(** * BusTub storage and concurrency primitives: a shallow embedding

    The development follows the C++ sources:
    - [storage/page/hash_table_bucket_page.cpp]  (module [BucketPage]),
    - [container/hash/extendible_hash_table.cpp] (module [HashTable]),
    - [concurrency/lock_manager.cpp]             (module [LockMgr]),
    - [execution/*_executor.cpp]                 (modules [Executors], [HashJoin]),
    - [buffer/lru_replacer.cpp]                  (module [LRU]),
    - [buffer/parallel_buffer_pool_manager.cpp]  (module [ParallelPool]),
    - [include/primer/p0_starter.h]              (module [Primer]).

    Integers are modelled as [Z]; the bitmaps of a bucket page are lists of
    bytes (values of [uint8_t]) manipulated with [Z.land], [Z.lor],
    [Z.shiftl] and [Z.shiftr] exactly as the source does. *)

From stdpp Require Import gmap list.
From Stdlib Require Import ZArith Lia.

Open Scope Z_scope.

(** ** Outcome of a call

    Most calls of the index are wrapped in [assert(...)]: the unpin calls and
    the re-insertions of a split only happen inside an assertion, so the code
    is meant to run with assertions enabled, and a failed assertion aborts the
    process.  [Unmodelled] marks a read of page bytes through a view of the
    wrong type ([reinterpret_cast]), which depends on the memory layout. *)

Inductive Result (A : Type) : Type :=
  | Ok (a : A)
  | AssertFail
  | Unmodelled
  | OutOfFuel.
Arguments Ok {A} a.
Arguments AssertFail {A}.
Arguments Unmodelled {A}.
Arguments OutOfFuel {A}.

Definition rbind {A B} (r : Result A) (k : A → Result B) : Result B :=
  match r with
  | Ok a => k a
  | AssertFail => AssertFail
  | Unmodelled => Unmodelled
  | OutOfFuel => OutOfFuel
  end.

Notation "'let*' x ':=' c 'in' k" := (rbind c (fun x => k))
  (at level 10, x pattern, c at level 100, k at level 200).

(** [assert(cond)] *)
Definition assert_ (cond : bool) : Result unit :=
  if cond then Ok tt else AssertFail.

(** ** Bucket page: [hash_table_bucket_page.cpp] *)

Module BucketPage.

Section Bucket.
Context {KeyType ValueType : Type}.
Context `{ValEq : EqDecision ValueType}.

(** [KeyComparator]: [cmp(a, b) == 0] means equal keys. *)
Variable cmp : KeyType → KeyType → Z.
(** The macro [BUCKET_ARRAY_SIZE] (it depends on [sizeof(MappingType)]). *)
Variable BUCKET_ARRAY_SIZE : nat.
(** The [MappingType] whose bytes are all zero (what [memset] leaves). *)
Variable zero_entry : KeyType * ValueType.

Record HashTableBucketPage : Type := mkBucket {
  occupied_ : list Z;
  readable_ : list Z;
  array_ : list (KeyType * ValueType)
}.

(** Number of bytes of each bitmap: [(BUCKET_ARRAY_SIZE - 1) / 8 + 1]. *)
Definition bitmap_bytes : nat := ((BUCKET_ARRAY_SIZE - 1) / 8 + 1)%nat.

Definition num_index (bucket_idx : nat) : nat := (bucket_idx / 8)%nat.
Definition bit_index (bucket_idx : nat) : Z := Z.of_nat (bucket_idx mod 8).

(** [static_cast<uint8_t>(bytes[n])] *)
Definition byte_at (bytes : list Z) (n : nat) : Z := default 0 (bytes !! n).
Definition to_uint8 (z : Z) : Z := z mod 256.

Definition KeyAt (b : HashTableBucketPage) (bucket_idx : nat) : KeyType :=
  fst (default zero_entry (array_ b !! bucket_idx)).

Definition ValueAt (b : HashTableBucketPage) (bucket_idx : nat) : ValueType :=
  snd (default zero_entry (array_ b !! bucket_idx)).

Definition RemoveAt (b : HashTableBucketPage) (bucket_idx : nat) : HashTableBucketPage :=
  let c := byte_at (readable_ b) (num_index bucket_idx) in
  let c := to_uint8 (Z.land c (Z.lnot (Z.shiftl 1 (bit_index bucket_idx)))) in
  mkBucket (occupied_ b) (<[num_index bucket_idx := c]> (readable_ b)) (array_ b).

Definition IsOccupied (b : HashTableBucketPage) (bucket_idx : nat) : bool :=
  let num := byte_at (occupied_ b) (num_index bucket_idx) in
  Z.land (Z.shiftr num (bit_index bucket_idx)) 1 =? 1.

Definition SetOccupied (b : HashTableBucketPage) (bucket_idx : nat) : HashTableBucketPage :=
  let c := byte_at (occupied_ b) (num_index bucket_idx) in
  let c := to_uint8 (Z.lor c (Z.shiftl 1 (bit_index bucket_idx))) in
  mkBucket (<[num_index bucket_idx := c]> (occupied_ b)) (readable_ b) (array_ b).

Definition IsReadable (b : HashTableBucketPage) (bucket_idx : nat) : bool :=
  let num := byte_at (readable_ b) (num_index bucket_idx) in
  0 <? Z.land num (Z.shiftl 1 (bit_index bucket_idx)).

Definition SetReadable (b : HashTableBucketPage) (bucket_idx : nat) : HashTableBucketPage :=
  let c := byte_at (readable_ b) (num_index bucket_idx) in
  let c := to_uint8 (Z.lor c (Z.shiftl 1 (bit_index bucket_idx))) in
  mkBucket (occupied_ b) (<[num_index bucket_idx := c]> (readable_ b)) (array_ b).

(** [GetValue]: the loop [for (i = 0; i < BUCKET_ARRAY_SIZE; i++)], run for
    [n] more iterations from index [i]; [result] is the output vector. *)
Fixpoint GetValue_loop (n i : nat) (b : HashTableBucketPage) (key : KeyType)
    (result : list ValueType) (has_find_value : bool) : list ValueType * bool :=
  match n with
  | O => (result, has_find_value)
  | S n' =>
    if IsReadable b i && (cmp key (KeyAt b i) =? 0)
    then GetValue_loop n' (S i) b key (result ++ [ValueAt b i]) true
    else GetValue_loop n' (S i) b key result has_find_value
  end.

Definition GetValue (b : HashTableBucketPage) (key : KeyType)
    (result : list ValueType) : list ValueType * bool :=
  GetValue_loop BUCKET_ARRAY_SIZE 0 b key result false.

(** The scan of [Insert]: [None] is the early [return false] on an exact
    duplicate, [Some available] the value of [available] after the loop
    ([None] inside stands for [-1]). *)
Fixpoint Insert_scan (n i : nat) (b : HashTableBucketPage) (key : KeyType)
    (value : ValueType) (available : option nat) : option (option nat) :=
  match n with
  | O => Some available
  | S n' =>
    if IsReadable b i then
      if (cmp key (KeyAt b i) =? 0) && bool_decide (ValueAt b i = value)
      then None
      else Insert_scan n' (S i) b key value available
    else
      match available with
      | None => Insert_scan n' (S i) b key value (Some i)
      | Some _ => Insert_scan n' (S i) b key value available
      end
  end.

Definition Insert (b : HashTableBucketPage) (key : KeyType) (value : ValueType)
    : HashTableBucketPage * bool :=
  match Insert_scan BUCKET_ARRAY_SIZE 0 b key value None with
  | None => (b, false)
  | Some None => (b, false)
  | Some (Some available) =>
    let b1 := mkBucket (occupied_ b) (readable_ b)
                       (<[available := (key, value)]> (array_ b)) in
    (SetReadable (SetOccupied b1 available) available, true)
  end.

Fixpoint Remove_loop (n i : nat) (b : HashTableBucketPage) (key : KeyType)
    (value : ValueType) : HashTableBucketPage * bool :=
  match n with
  | O => (b, false)
  | S n' =>
    if IsReadable b i && ((cmp key (KeyAt b i) =? 0) && bool_decide (value = ValueAt b i))
    then (RemoveAt b i, true)
    else Remove_loop n' (S i) b key value
  end.

Definition Remove (b : HashTableBucketPage) (key : KeyType) (value : ValueType)
    : HashTableBucketPage * bool :=
  Remove_loop BUCKET_ARRAY_SIZE 0 b key value.

Definition quotient : nat := (BUCKET_ARRAY_SIZE / 8)%nat.
Definition reminder : nat := (BUCKET_ARRAY_SIZE mod 8)%nat.

(** The loops over the low [reminder] bits of the last byte: each one tests
    [c & 1] and then shifts [c] right by one. *)
Fixpoint low_bits_are (n : nat) (c : Z) (bit : Z) : bool :=
  match n with
  | O => true
  | S n' => if Z.land c 1 =? bit then low_bits_are n' (Z.shiftr c 1) bit else false
  end.

Fixpoint count_low_bits (n : nat) (c : Z) (ans : Z) : Z :=
  match n with
  | O => ans
  | S n' => count_low_bits n' (Z.shiftr c 1) (if Z.land c 1 =? 1 then ans + 1 else ans)
  end.

(** The loops over the first [quotient] whole bytes. *)
Fixpoint bytes_all_are (n i : nat) (bytes : list Z) (v : Z) : bool :=
  match n with
  | O => true
  | S n' => if byte_at bytes i =? v then bytes_all_are n' (S i) bytes v else false
  end.

Fixpoint count_bytes (n i : nat) (bytes : list Z) (ans : Z) : Z :=
  match n with
  | O => ans
  | S n' => count_bytes n' (S i) bytes (count_low_bits 8 (byte_at bytes i) ans)
  end.

Definition IsFull (b : HashTableBucketPage) : bool :=
  bytes_all_are quotient 0 (readable_ b) 255
  && low_bits_are reminder (byte_at (readable_ b) quotient) 1.

Definition NumReadable (b : HashTableBucketPage) : Z :=
  let ans := count_bytes quotient 0 (readable_ b) 0 in
  count_low_bits reminder (byte_at (readable_ b) quotient) ans.

Definition IsEmpty (b : HashTableBucketPage) : bool :=
  bytes_all_are quotient 0 (readable_ b) 0
  && low_bits_are reminder (byte_at (readable_ b) quotient) 0.

(** [GetArrayCopy]: the readable entries, in slot order. *)
Fixpoint GetArrayCopy_loop (n i : nat) (b : HashTableBucketPage)
    : list (KeyType * ValueType) :=
  match n with
  | O => []
  | S n' =>
    if IsReadable b i
    then default zero_entry (array_ b !! i) :: GetArrayCopy_loop n' (S i) b
    else GetArrayCopy_loop n' (S i) b
  end.

Definition GetArrayCopy (b : HashTableBucketPage) : list (KeyType * ValueType) :=
  GetArrayCopy_loop BUCKET_ARRAY_SIZE 0 b.

(** [Reset]: three [memset]s to zero. *)
Definition Reset (b : HashTableBucketPage) : HashTableBucketPage :=
  mkBucket (replicate (length (occupied_ b)) 0)
           (replicate (length (readable_ b)) 0)
           (replicate (length (array_ b)) zero_entry).

(** The view of a freshly allocated (zeroed) page as a bucket page. *)
Definition zero_bucket : HashTableBucketPage :=
  mkBucket (replicate bitmap_bytes 0) (replicate bitmap_bytes 0)
           (replicate BUCKET_ARRAY_SIZE zero_entry).

(** The shape of a bucket page: the sizes of its three arrays. *)
Definition wf_bucket (b : HashTableBucketPage) : Prop :=
  length (occupied_ b) = bitmap_bytes ∧
  length (readable_ b) = bitmap_bytes ∧
  length (array_ b) = BUCKET_ARRAY_SIZE.

End Bucket.

End BucketPage.

(** ** Directory page *)

Module DirectoryPage.

Definition DIRECTORY_ARRAY_SIZE : nat := 512%nat.

(** Modelled from the spec: [hash_table_directory_page.cpp] is not among the
    sources.  The spec gives the page as
    [{page_id, global_depth (0..9), local_depth[512], bucket_page_id[512]}]. *)
Record HashTableDirectoryPage : Type := mkDir {
  page_id_ : Z;
  global_depth_ : Z;
  local_depths_ : list Z;
  bucket_page_ids_ : list Z
}.

(** The view of a freshly allocated (zeroed) page as a directory page. *)
Definition zero_directory : HashTableDirectoryPage :=
  mkDir 0 0 (replicate DIRECTORY_ARRAY_SIZE 0) (replicate DIRECTORY_ARRAY_SIZE 0).

Definition GetPageId (d : HashTableDirectoryPage) : Z := page_id_ d.

Definition SetPageId (d : HashTableDirectoryPage) (p : Z) : HashTableDirectoryPage :=
  mkDir p (global_depth_ d) (local_depths_ d) (bucket_page_ids_ d).

Definition GetGlobalDepth (d : HashTableDirectoryPage) : Z := global_depth_ d.

(** Modelled from the spec: [dir_index = HASH(key) & ((1 << global_depth) - 1)]. *)
Definition GetGlobalDepthMask (d : HashTableDirectoryPage) : Z :=
  Z.shiftl 1 (global_depth_ d) - 1.

(** Modelled from the spec: [directory_size = 1 << global_depth]. *)
Definition Size (d : HashTableDirectoryPage) : Z := Z.shiftl 1 (global_depth_ d).

Definition GetLocalDepth (d : HashTableDirectoryPage) (bucket_idx : Z) : Z :=
  default 0 (local_depths_ d !! Z.to_nat bucket_idx).

Definition SetLocalDepth (d : HashTableDirectoryPage) (bucket_idx : Z) (depth : Z)
    : HashTableDirectoryPage :=
  mkDir (page_id_ d) (global_depth_ d)
        (<[Z.to_nat bucket_idx := depth]> (local_depths_ d)) (bucket_page_ids_ d).

(** [local_depths_] holds one byte per slot, so the increment and the
    decrement wrap around at 256. *)
Definition IncrLocalDepth (d : HashTableDirectoryPage) (bucket_idx : Z) : HashTableDirectoryPage :=
  SetLocalDepth d bucket_idx ((GetLocalDepth d bucket_idx + 1) mod 256).

Definition DecrLocalDepth (d : HashTableDirectoryPage) (bucket_idx : Z) : HashTableDirectoryPage :=
  SetLocalDepth d bucket_idx ((GetLocalDepth d bucket_idx - 1) mod 256).

(** Modelled from the spec: the mask of the low [local_depth] bits, used to
    rehash "using the NEW local depth mask". *)
Definition GetLocalDepthMask (d : HashTableDirectoryPage) (bucket_idx : Z) : Z :=
  Z.shiftl 1 (GetLocalDepth d bucket_idx) - 1.

Definition GetBucketPageId (d : HashTableDirectoryPage) (bucket_idx : Z) : Z :=
  default 0 (bucket_page_ids_ d !! Z.to_nat bucket_idx).

Definition SetBucketPageId (d : HashTableDirectoryPage) (bucket_idx : Z) (p : Z)
    : HashTableDirectoryPage :=
  mkDir (page_id_ d) (global_depth_ d) (local_depths_ d)
        (<[Z.to_nat bucket_idx := p]> (bucket_page_ids_ d)).

(** Modelled from the spec: [image = b ^ (1 << (local_depth[b] - 1))]. *)
Definition GetSplitImageIndex (d : HashTableDirectoryPage) (bucket_idx : Z) : Z :=
  Z.lxor bucket_idx (Z.shiftl 1 (GetLocalDepth d bucket_idx - 1)).

(** One step of the doubling: slot [i + old_size] takes what slot [i] holds. *)
Definition inherit_slot (old_size : Z) (d : HashTableDirectoryPage) (i : nat)
    : HashTableDirectoryPage :=
  let i := Z.of_nat i in
  SetBucketPageId (SetLocalDepth d (i + old_size) (GetLocalDepth d i))
                  (i + old_size) (GetBucketPageId d i).

(** Modelled from the spec: "double the directory ([global_depth++]) — new
    slots inherit the existing mappings". *)
Definition IncrGlobalDepth (d : HashTableDirectoryPage) : HashTableDirectoryPage :=
  let old_size := Size d in
  let d := foldl (inherit_slot old_size) d (seq 0 (Z.to_nat old_size)) in
  mkDir (page_id_ d) (global_depth_ d + 1) (local_depths_ d) (bucket_page_ids_ d).

Definition DecrGlobalDepth (d : HashTableDirectoryPage) : HashTableDirectoryPage :=
  mkDir (page_id_ d) (global_depth_ d - 1) (local_depths_ d) (bucket_page_ids_ d).

(** Modelled from the spec: "The directory [CanShrink] when every
    [local_depth[i] < global_depth]" (over the slots [i < directory_size]). *)
Definition CanShrink (d : HashTableDirectoryPage) : bool :=
  forallb (λ i, GetLocalDepth d (Z.of_nat i) <? global_depth_ d)
          (seq 0 (Z.to_nat (Size d))).

End DirectoryPage.

(** ** Buffer pool *)

Module BufferPool.

Section Pool.
(** What a page holds (the hash table stores typed views, see [HashTable]). *)
Variable PageData : Type.

(** Modelled from the spec: [buffer_pool_manager_instance.cpp] is not among the
    sources.  What the index observes is kept: the content of each page, the
    pin count of each page, its dirty flag, the allocator of page ids (a
    single instance: ids 0, 1, 2, ...) and the number of frames.  The frame
    array, the page table, the replacer and the disk are left out: a page
    that is not pinned keeps its content, in its frame or on disk.  By the
    invariants of the spec every frame is free, holds an unpinned page (a
    victim for the replacer) or holds a pinned page, and every pinned page
    has its frame; so "no victim exists" is: [pool_size] pages are pinned. *)
Record BufferPoolManager : Type := mkBPM {
  pages : gmap Z PageData;
  pin_count : gmap Z nat;
  is_dirty : gmap Z bool;
  next_page_id : Z;
  pool_size : nat
}.

Definition empty_pool (pool_size : nat) : BufferPoolManager := mkBPM ∅ ∅ ∅ 0 pool_size.

(** The pin count of page [p] (zero when it is not resident). *)
Definition pins (bpm : BufferPoolManager) (p : Z) : nat := default O (pin_count bpm !! p).

(** The pages with [pin_count > 0]; each of them holds a frame. *)
Definition pinned_pages (bpm : BufferPoolManager) : gset Z :=
  dom (filter (λ kv, (0 < kv.2)%nat) (pin_count bpm)).

(** Modelled from the spec: "If no victim exists": neither the free list nor
    the replacer has a frame, all [pool_size] frames hold pinned pages. *)
Definition no_victim (bpm : BufferPoolManager) : bool :=
  bool_decide (pool_size bpm ≤ size (pinned_pages bpm))%nat.

(** Modelled from the spec: "allocate a shard-local fresh page id ...,
    acquire a victim as in Fetch; ...; pin=1; is_dirty=false; zero the
    buffer.  Fails only if no victim exists (all frames pinned)."  [None] is
    the null pointer. *)
Definition NewPage (zero : PageData) (bpm : BufferPoolManager)
    : BufferPoolManager * option Z :=
  let p := next_page_id bpm in
  if no_victim bpm then
    (mkBPM (pages bpm) (pin_count bpm) (is_dirty bpm) (p + 1) (pool_size bpm), None)
  else
    (mkBPM (<[p := zero]> (pages bpm)) (<[p := 1%nat]> (pin_count bpm))
           (<[p := false]> (is_dirty bpm)) (p + 1) (pool_size bpm), Some p).

(** Modelled from the spec: "Hit: if resident, pin++ ...; Miss: acquire a
    victim frame ...  If no victim exists, return failure. ... read page from
    disk into the frame, set pin=1, is_dirty=false".  A pinned page is
    resident; a page that is not pinned is resident in a frame that is itself
    a victim, or it needs one.  [None] is the null pointer. *)
Definition FetchPage (bpm : BufferPoolManager) (p : Z) : option BufferPoolManager :=
  match pin_count bpm !! p with
  | Some (S n) =>
    Some (mkBPM (pages bpm) (<[p := S (S n)]> (pin_count bpm)) (is_dirty bpm)
                (next_page_id bpm) (pool_size bpm))
  | Some O =>
    if no_victim bpm then None
    else Some (mkBPM (pages bpm) (<[p := 1%nat]> (pin_count bpm)) (is_dirty bpm)
                     (next_page_id bpm) (pool_size bpm))
  | None =>
    if no_victim bpm then None
    else Some (mkBPM (pages bpm) (<[p := 1%nat]> (pin_count bpm))
                     (<[p := false]> (is_dirty bpm)) (next_page_id bpm) (pool_size bpm))
  end.

(** Modelled from the spec: "if absent, false. If pin==0, false. Decrement
    pin; [is_dirty |= is_dirty_hint]". *)
Definition UnpinPage (bpm : BufferPoolManager) (p : Z) (dirty : bool)
    : BufferPoolManager * bool :=
  match pin_count bpm !! p with
  | None => (bpm, false)
  | Some O => (bpm, false)
  | Some (S n) =>
    (mkBPM (pages bpm) (<[p := n]> (pin_count bpm))
           (<[p := default false (is_dirty bpm !! p) || dirty]> (is_dirty bpm))
           (next_page_id bpm) (pool_size bpm), true)
  end.

(** Modelled from the spec: "if not resident, true ...  If resident with
    pin>0, false.  Otherwise ... drop mapping ..., deallocate on disk". *)
Definition DeletePage (bpm : BufferPoolManager) (p : Z) : BufferPoolManager * bool :=
  match pin_count bpm !! p with
  | None =>
    (mkBPM (delete p (pages bpm)) (pin_count bpm) (is_dirty bpm) (next_page_id bpm)
           (pool_size bpm), true)
  | Some O =>
    (mkBPM (delete p (pages bpm)) (delete p (pin_count bpm)) (delete p (is_dirty bpm))
           (next_page_id bpm) (pool_size bpm), true)
  | Some (S _) => (bpm, false)
  end.

End Pool.

End BufferPool.

(** ** Extendible hash table: [extendible_hash_table.cpp] *)

Module HashTable.
Import DirectoryPage BufferPool.

Section Table.
Context {KeyType ValueType : Type}.
Context `{ValEq : EqDecision ValueType}.
Variable cmp : KeyType → KeyType → Z.
Variable BUCKET_ARRAY_SIZE : nat.
Variable zero_entry : KeyType * ValueType.
(** [hash_fn_.GetHash(key)], a 64-bit hash. *)
Variable hash_fn : KeyType → Z.

Abbreviation Bucket := (@BucketPage.HashTableBucketPage KeyType ValueType).

(** The bytes of a page, seen through the typed view the code casts them to.
    [RawZero] is a page as [NewPage] hands it out, all bytes zero. *)
Inductive PageData : Type :=
  | RawZero
  | DirData (d : HashTableDirectoryPage)
  | BucketData (b : Bucket).

Record ExtendibleHashTable : Type := mkTable {
  buffer_pool_manager_ : BufferPoolManager PageData;
  directory_page_id_ : Z
}.

Definition INVALID_PAGE_ID : Z := -1.
Definition MAX_BUCKET_DEPTH : Z := 9.

(** [ExtendibleHashTable(name, buffer_pool_manager, comparator, hash_fn)]:
    the table as the constructor leaves it, over the pool it is given. *)
Definition ExtendibleHashTable_new (buffer_pool_manager : BufferPoolManager PageData)
    : ExtendibleHashTable :=
  mkTable buffer_pool_manager INVALID_PAGE_ID.

(** [static_cast<uint32_t>(hash_fn_.GetHash(key))] *)
Definition Hash (key : KeyType) : Z := hash_fn key mod 2 ^ 32.

Definition KeyToDirectoryIndex (key : KeyType) (dir_page : HashTableDirectoryPage) : Z :=
  Z.land (Hash key) (GetGlobalDepthMask dir_page).

Definition KeyToPageId (key : KeyType) (dir_page : HashTableDirectoryPage) : Z :=
  GetBucketPageId dir_page (KeyToDirectoryIndex key dir_page).

Definition with_pool (ht : ExtendibleHashTable) (bpm : BufferPoolManager PageData)
    : ExtendibleHashTable :=
  mkTable bpm (directory_page_id_ ht).

(** A write through a pointer into the frame of page [p]. *)
Definition store (ht : ExtendibleHashTable) (p : Z) (data : PageData) : ExtendibleHashTable :=
  let bpm := buffer_pool_manager_ ht in
  with_pool ht (mkBPM PageData (<[p := data]> (pages _ bpm)) (pin_count _ bpm)
                      (is_dirty _ bpm) (next_page_id _ bpm) (pool_size _ bpm)).

(** [reinterpret_cast<HashTableDirectoryPage *>(page->GetData())] *)
Definition as_directory (o : option PageData) : Result HashTableDirectoryPage :=
  match o with
  | Some (DirData d) => Ok d
  | Some RawZero => Ok zero_directory
  | _ => Unmodelled
  end.

(** [reinterpret_cast<HASH_TABLE_BUCKET_TYPE *>(page->GetData())] *)
Definition as_bucket (o : option PageData) : Result Bucket :=
  match o with
  | Some (BucketData b) => Ok b
  | Some RawZero => Ok (BucketPage.zero_bucket BUCKET_ARRAY_SIZE zero_entry)
  | _ => Unmodelled
  end.

(** [assert(buffer_pool_manager_->UnpinPage(p, dirty))] *)
Definition unpin_assert (ht : ExtendibleHashTable) (p : Z) (dirty : bool)
    : Result ExtendibleHashTable :=
  let '(bpm, ok) := UnpinPage PageData (buffer_pool_manager_ ht) p dirty in
  let* _ := assert_ ok in
  Ok (with_pool ht bpm).

(** [page = buffer_pool_manager_->NewPage(&page_id); assert(page != nullptr)] *)
Definition new_page_assert (bpm : BufferPoolManager PageData)
    : Result (BufferPoolManager PageData * Z) :=
  match NewPage PageData RawZero bpm with
  | (bpm, Some new_page_id) => Ok (bpm, new_page_id)
  | (_, None) => AssertFail
  end.

(** [page = buffer_pool_manager_->FetchPage(page_id); assert(page != nullptr)] *)
Definition fetch_assert (ht : ExtendibleHashTable) (page_id : Z) : Result ExtendibleHashTable :=
  match FetchPage PageData (buffer_pool_manager_ ht) page_id with
  | Some bpm => Ok (with_pool ht bpm)
  | None => AssertFail
  end.

Definition FetchDirectoryPage (ht : ExtendibleHashTable)
    : Result (ExtendibleHashTable * HashTableDirectoryPage) :=
  let* ht :=
    (if directory_page_id_ ht =? INVALID_PAGE_ID then
       let* (bpm, new_page_id_directory) := new_page_assert (buffer_pool_manager_ ht) in
       let dir_page := SetPageId zero_directory new_page_id_directory in
       let* (bpm, new_page_id_bucket) := new_page_assert bpm in
       let dir_page := SetBucketPageId dir_page 0 new_page_id_bucket in
       let ht := store (mkTable bpm new_page_id_directory) new_page_id_directory (DirData dir_page) in
       let* ht := unpin_assert ht new_page_id_directory true in
       unpin_assert ht new_page_id_bucket true
     else Ok ht) in
  let* _ := assert_ (negb (directory_page_id_ ht =? INVALID_PAGE_ID)) in
  let* ht := fetch_assert ht (directory_page_id_ ht) in
  let* dir_page := as_directory (pages _ (buffer_pool_manager_ ht) !! directory_page_id_ ht) in
  Ok (ht, dir_page).

Definition FetchBucketPage (ht : ExtendibleHashTable) (bucket_page_id : Z)
    : Result ExtendibleHashTable :=
  fetch_assert ht bucket_page_id.

Definition FetchHashBucketPage (ht : ExtendibleHashTable) (page : Z) : Result Bucket :=
  as_bucket (pages _ (buffer_pool_manager_ ht) !! page).

Definition GetValue (ht : ExtendibleHashTable) (key : KeyType) (result : list ValueType)
    : Result (ExtendibleHashTable * (list ValueType * bool)) :=
  let* (ht, dir_page) := FetchDirectoryPage ht in
  let bucket_page_id := KeyToPageId key dir_page in
  let* ht := FetchBucketPage ht bucket_page_id in
  let* bucket := FetchHashBucketPage ht bucket_page_id in
  let has_get_value := BucketPage.GetValue cmp BUCKET_ARRAY_SIZE zero_entry bucket key result in
  let* ht := unpin_assert ht bucket_page_id false in
  let* ht := unpin_assert ht (GetPageId dir_page) false in
  Ok (ht, has_get_value).

(** The rehash loop of [SplitInsert] over [pre_array]. *)
Fixpoint rehash_loop (pre_array : list (KeyType * ValueType))
    (dir_page : HashTableDirectoryPage)
    (split_bucket_index split_bucket_page_id new_bucket_page_id : Z)
    (split_bucket new_bucket : Bucket) : Result (Bucket * Bucket) :=
  match pre_array with
  | [] => Ok (split_bucket, new_bucket)
  | kv :: rest =>
    let target_bucket_index :=
      Z.land (Hash (fst kv)) (GetLocalDepthMask dir_page split_bucket_index) in
    let target_bucket_page_id := GetBucketPageId dir_page target_bucket_index in
    let* _ := assert_ ((target_bucket_page_id =? split_bucket_page_id)
                       || (target_bucket_page_id =? new_bucket_page_id)) in
    if target_bucket_page_id =? split_bucket_page_id then
      let '(split_bucket, ok) :=
        BucketPage.Insert cmp BUCKET_ARRAY_SIZE zero_entry split_bucket (fst kv) (snd kv) in
      let* _ := assert_ ok in
      rehash_loop rest dir_page split_bucket_index split_bucket_page_id new_bucket_page_id
                  split_bucket new_bucket
    else
      let '(new_bucket, ok) :=
        BucketPage.Insert cmp BUCKET_ARRAY_SIZE zero_entry new_bucket (fst kv) (snd kv) in
      let* _ := assert_ ok in
      rehash_loop rest dir_page split_bucket_index split_bucket_page_id new_bucket_page_id
                  split_bucket new_bucket
  end.

(** The body shared by the four propagation loops of [SplitInsert]:
    [SetLocalDepth(i, GetLocalDepth(ref)); SetBucketPageId(i, page_id)]. *)
Definition propagate (ref page_id : Z) (dir_page : HashTableDirectoryPage) (i : Z)
    : HashTableDirectoryPage :=
  SetBucketPageId (SetLocalDepth dir_page i (GetLocalDepth dir_page ref)) i page_id.

(** [for (uint32_t i = start; i >= diff; i -= diff)]; at most [n] rounds. *)
Fixpoint loop_down (n : nat) (i diff : Z) (body : HashTableDirectoryPage → Z → HashTableDirectoryPage)
    (dir_page : HashTableDirectoryPage) : HashTableDirectoryPage :=
  match n with
  | O => dir_page
  | S n' => if i >=? diff then loop_down n' (i - diff) diff body (body dir_page i) else dir_page
  end.

(** [for (uint32_t i = start; i < dir_page->Size(); i += diff)]; at most [n]
    rounds. *)
Fixpoint loop_up (n : nat) (i diff : Z) (body : HashTableDirectoryPage → Z → HashTableDirectoryPage)
    (dir_page : HashTableDirectoryPage) : HashTableDirectoryPage :=
  match n with
  | O => dir_page
  | S n' => if i <? Size dir_page then loop_up n' (i + diff) diff body (body dir_page i) else dir_page
  end.

(** The four loops; [diff >= 1] and every index is below 512, so
    [DIRECTORY_ARRAY_SIZE] rounds are never used up. *)
Definition propagate_all (dir_page : HashTableDirectoryPage)
    (split_bucket_index new_bucket_index split_bucket_page_id new_bucket_page_id : Z)
    : HashTableDirectoryPage :=
  let diff := Z.shiftl 1 (GetLocalDepth dir_page split_bucket_index) in
  let n := S DIRECTORY_ARRAY_SIZE in
  let dir_page := loop_down n split_bucket_index diff
                    (propagate split_bucket_index split_bucket_page_id) dir_page in
  let dir_page := loop_up n split_bucket_index diff
                    (propagate split_bucket_index split_bucket_page_id) dir_page in
  let dir_page := loop_down n new_bucket_index diff
                    (propagate new_bucket_index new_bucket_page_id) dir_page in
  loop_up n new_bucket_index diff (propagate new_bucket_index new_bucket_page_id) dir_page.

(** Lines 170-174 of [SplitInsert]: double the directory when the bucket is at
    the global depth, then raise the local depth of the slot. *)
Definition begin_split (dir_page : HashTableDirectoryPage) (split_bucket_index : Z)
    : HashTableDirectoryPage :=
  let split_bucket_depth := GetLocalDepth dir_page split_bucket_index in
  let dir_page :=
    if split_bucket_depth =? GetGlobalDepth dir_page then IncrGlobalDepth dir_page else dir_page in
  IncrLocalDepth dir_page split_bucket_index.

(** Lines 189-191 of [SplitInsert]: enter the new page at the split image. *)
Definition place_image (dir_page : HashTableDirectoryPage)
    (split_bucket_index new_bucket_page_id : Z) : HashTableDirectoryPage * Z :=
  let new_bucket_index := GetSplitImageIndex dir_page split_bucket_index in
  let dir_page := SetLocalDepth dir_page new_bucket_index (GetGlobalDepth dir_page) in
  let dir_page := SetBucketPageId dir_page new_bucket_index new_bucket_page_id in
  (dir_page, new_bucket_index).

(** [SplitInsert]; [Insert_rec] is the final call [Insert(transaction, key,
    value)]. *)
Definition SplitInsert
    (Insert_rec : ExtendibleHashTable → KeyType → ValueType → Result (ExtendibleHashTable * bool))
    (ht : ExtendibleHashTable) (key : KeyType) (value : ValueType)
    : Result (ExtendibleHashTable * bool) :=
  let* (ht, dir_page) := FetchDirectoryPage ht in
  let split_bucket_index := KeyToDirectoryIndex key dir_page in
  let split_bucket_depth := GetLocalDepth dir_page split_bucket_index in
  if split_bucket_depth >=? MAX_BUCKET_DEPTH then
    let* ht := unpin_assert ht (GetPageId dir_page) false in
    Ok (ht, false)
  else
    let dir_page := begin_split dir_page split_bucket_index in
    let split_bucket_page_id := KeyToPageId key dir_page in
    let* ht := FetchBucketPage ht split_bucket_page_id in
    let* split_bucket := FetchHashBucketPage ht split_bucket_page_id in
    let pre_array_size := BucketPage.NumReadable BUCKET_ARRAY_SIZE split_bucket in
    let pre_array := BucketPage.GetArrayCopy BUCKET_ARRAY_SIZE zero_entry split_bucket in
    let split_bucket := BucketPage.Reset zero_entry split_bucket in
    let* (bpm, new_bucket_page_id) := new_page_assert (buffer_pool_manager_ ht) in
    let ht := with_pool ht bpm in
    let new_bucket := BucketPage.zero_bucket BUCKET_ARRAY_SIZE zero_entry in
    let '(dir_page, new_bucket_index) :=
      place_image dir_page split_bucket_index new_bucket_page_id in
    let* (split_bucket, new_bucket) :=
      rehash_loop (take (Z.to_nat pre_array_size) pre_array) dir_page split_bucket_index
                  split_bucket_page_id new_bucket_page_id split_bucket new_bucket in
    let dir_page := propagate_all dir_page split_bucket_index new_bucket_index
                                  split_bucket_page_id new_bucket_page_id in
    let ht := store ht split_bucket_page_id (BucketData split_bucket) in
    let ht := store ht new_bucket_page_id (BucketData new_bucket) in
    let ht := store ht (directory_page_id_ ht) (DirData dir_page) in
    let* ht := unpin_assert ht split_bucket_page_id true in
    let* ht := unpin_assert ht new_bucket_page_id true in
    let* ht := unpin_assert ht (GetPageId dir_page) true in
    Insert_rec ht key value.

(** [Insert]; [fuel] bounds the number of nested [SplitInsert] calls. *)
Fixpoint Insert (fuel : nat) (ht : ExtendibleHashTable) (key : KeyType) (value : ValueType)
    : Result (ExtendibleHashTable * bool) :=
  let* (ht, dir_page) := FetchDirectoryPage ht in
  let bucket_page_id := KeyToPageId key dir_page in
  let* ht := FetchBucketPage ht bucket_page_id in
  let* bucket := FetchHashBucketPage ht bucket_page_id in
  if negb (BucketPage.IsFull BUCKET_ARRAY_SIZE bucket) then
    let '(bucket, has_insert) :=
      BucketPage.Insert cmp BUCKET_ARRAY_SIZE zero_entry bucket key value in
    let ht := store ht bucket_page_id (BucketData bucket) in
    let* ht := unpin_assert ht bucket_page_id true in
    let* ht := unpin_assert ht (GetPageId dir_page) false in
    Ok (ht, has_insert)
  else
    let* ht := unpin_assert ht bucket_page_id false in
    let* ht := unpin_assert ht (GetPageId dir_page) false in
    match fuel with
    | O => OutOfFuel
    | S fuel' => SplitInsert (Insert fuel') ht key value
    end.

(** The loop of [Merge] over the slots [i < dir_page->Size()]. *)
Definition merge_slot (bucket_page_id split_bucket_page_id split_bucket_index : Z)
    (dir_page : HashTableDirectoryPage) (i : nat) : HashTableDirectoryPage :=
  let i := Z.of_nat i in
  let i_bucket_page_id := GetBucketPageId dir_page i in
  if (i_bucket_page_id =? bucket_page_id) || (i_bucket_page_id =? split_bucket_page_id) then
    let dir_page := SetBucketPageId dir_page i split_bucket_page_id in
    SetLocalDepth dir_page i (GetLocalDepth dir_page split_bucket_index)
  else dir_page.

(** [while (dir_page->CanShrink()) dir_page->DecrGlobalDepth();] — the global
    depth falls at every round, and nothing can shrink at depth 0. *)
Fixpoint shrink_loop (n : nat) (dir_page : HashTableDirectoryPage) : HashTableDirectoryPage :=
  match n with
  | O => dir_page
  | S n' => if CanShrink dir_page then shrink_loop n' (DecrGlobalDepth dir_page) else dir_page
  end.

(** [Merge(transaction, bucket_index)] *)
Definition Merge (ht : ExtendibleHashTable) (bucket_index : Z) : Result ExtendibleHashTable :=
  let* (ht, dir_page) := FetchDirectoryPage ht in
  let bucket_page_id := GetBucketPageId dir_page bucket_index in
  let split_bucket_index := GetSplitImageIndex dir_page bucket_index in
  let bucket_local_depth := GetLocalDepth dir_page bucket_index in
  if bucket_local_depth =? 0 then
    unpin_assert ht (GetPageId dir_page) false
  else
    let split_bucket_local_depth := GetLocalDepth dir_page split_bucket_index in
    if negb (bucket_local_depth =? split_bucket_local_depth) then
      unpin_assert ht (GetPageId dir_page) false
    else
      (* [FetchBucketPage(bucket_index)]: the slot index is passed where a
         page id is expected *)
      let* ht := FetchBucketPage ht bucket_index in
      match FetchHashBucketPage ht bucket_index with
      | Ok bucket =>
        if negb (BucketPage.IsEmpty BUCKET_ARRAY_SIZE bucket) then
          let* ht := unpin_assert ht bucket_page_id false in
          unpin_assert ht (GetPageId dir_page) false
        else
          let* ht := unpin_assert ht bucket_page_id false in
          let '(bpm, deleted) := DeletePage PageData (buffer_pool_manager_ ht) bucket_page_id in
          let* _ := assert_ deleted in
          let ht := with_pool ht bpm in
          let split_bucket_page_id := GetBucketPageId dir_page split_bucket_index in
          let dir_page := SetBucketPageId dir_page bucket_index split_bucket_page_id in
          let dir_page := DecrLocalDepth dir_page bucket_index in
          let dir_page := DecrLocalDepth dir_page split_bucket_index in
          let* _ := assert_ (GetLocalDepth dir_page bucket_index
                             =? GetLocalDepth dir_page split_bucket_index) in
          let dir_page :=
            foldl (merge_slot bucket_page_id split_bucket_page_id split_bucket_index) dir_page
                  (seq 0 (Z.to_nat (Size dir_page))) in
          let dir_page := shrink_loop (Z.to_nat (GetGlobalDepth dir_page)) dir_page in
          let ht := store ht (directory_page_id_ ht) (DirData dir_page) in
          unpin_assert ht (GetPageId dir_page) true
      | _ =>
        (* the page with id [bucket_index] is not a bucket page: what
           [IsEmpty] reads there is not modelled, but either branch begins
           with the same assertion *)
        let* ht := unpin_assert ht bucket_page_id false in
        Unmodelled
      end.

(** [Remove] *)
Definition Remove (ht : ExtendibleHashTable) (key : KeyType) (value : ValueType)
    : Result (ExtendibleHashTable * bool) :=
  let* (ht, dir_page) := FetchDirectoryPage ht in
  let bucket_page_id := KeyToPageId key dir_page in
  let bucket_index := KeyToDirectoryIndex key dir_page in
  let* ht := FetchBucketPage ht bucket_page_id in
  let* bucket := FetchHashBucketPage ht bucket_page_id in
  let '(bucket, has_remove) :=
    BucketPage.Remove cmp BUCKET_ARRAY_SIZE zero_entry bucket key value in
  if negb has_remove then
    Ok (ht, has_remove)
  else
    let ht := store ht bucket_page_id (BucketData bucket) in
    let bucket_is_empty := BucketPage.IsEmpty BUCKET_ARRAY_SIZE bucket in
    let* ht := unpin_assert ht (GetPageId dir_page) true in
    let* ht := unpin_assert ht bucket_page_id true in
    if bucket_is_empty then
      let* ht := Merge ht bucket_index in
      Ok (ht, has_remove)
    else Ok (ht, has_remove).

Definition GetGlobalDepth_ (ht : ExtendibleHashTable) : Result (ExtendibleHashTable * Z) :=
  let* (ht, dir_page) := FetchDirectoryPage ht in
  let global_depth := GetGlobalDepth dir_page in
  let* ht := unpin_assert ht (directory_page_id_ ht) false in
  Ok (ht, global_depth).

End Table.

End HashTable.

(** ** Lock manager: [lock_manager.cpp] *)

Module LockMgr.

(** A record identifier: [(page_id, slot_num)]. *)
Definition RID : Type := (Z * Z)%type.

Inductive LockMode : Type := SHARED | EXCLUSIVE.
Inductive TransactionState : Type := GROWING | SHRINKING | COMMITTED | ABORTED.
Inductive IsolationLevel : Type := READ_UNCOMMITTED | REPEATABLE_READ | READ_COMMITTED.

Global Instance LockMode_eq_dec : EqDecision LockMode.
Proof. solve_decision. Defined.
Global Instance TransactionState_eq_dec : EqDecision TransactionState.
Proof. solve_decision. Defined.
Global Instance IsolationLevel_eq_dec : EqDecision IsolationLevel.
Proof. solve_decision. Defined.

(** Modelled from the spec: [lock_manager.h] is not among the sources.  A
    queue entry is [{txn_id, mode, granted}]; [LockRequest{txn_id, lock_mode}]
    builds one that is not granted. *)
Record LockRequest : Type := mkRequest {
  txn_id_ : Z;
  lock_mode_ : LockMode;
  granted_ : bool
}.

(** Modelled from the spec: the queue of a rid is "an ordered list of
    requests, a single condition variable, an [upgrading] flag".  The
    condition variable is part of [System] below. *)
Record LockRequestQueue : Type := mkQueue {
  request_queue_ : list LockRequest;
  upgrading_ : bool
}.

(** Modelled from the spec: [transaction.h] is not among the sources.  The
    lock manager touches the state and the two lock sets of a transaction. *)
Record Transaction : Type := mkTxn {
  state_ : TransactionState;
  isolation_level_ : IsolationLevel;
  shared_lock_set_ : gset RID;
  exclusive_lock_set_ : gset RID
}.

(** [lock_table_[rid]] default-constructs the queue of a rid never seen. *)
Global Instance LockRequestQueue_inhabited : Inhabited LockRequestQueue :=
  populate (mkQueue [] false).

Global Instance Transaction_inhabited : Inhabited Transaction :=
  populate (mkTxn GROWING REPEATABLE_READ ∅ ∅).

(** The lock manager together with the transactions it reaches through
    [TransactionManager::GetTransaction]: [txn_map] is the global table of
    transaction objects, so the caller's [txn] and a queue entry with the same
    id denote the same object. *)
Record LockManager : Type := mkLM {
  lock_table_ : gmap RID LockRequestQueue;
  txn_map : gmap Z Transaction
}.

(** How a call ends: it returns, it blocks in [cv_.wait], or an assertion
    fails. *)
Inductive Outcome : Type :=
  | Returned (b : bool)
  | Blocked
  | Crashed.

Global Instance Outcome_eq_dec : EqDecision Outcome.
Proof. solve_decision. Defined.

Definition GetTransaction (lm : LockManager) (txn_id : Z) : Transaction :=
  txn_map lm !!! txn_id.

Definition queue_of (lm : LockManager) (rid : RID) : LockRequestQueue :=
  lock_table_ lm !!! rid.

Definition IsSharedLocked (t : Transaction) (rid : RID) : bool :=
  bool_decide (rid ∈ shared_lock_set_ t).

Definition IsExclusiveLocked (t : Transaction) (rid : RID) : bool :=
  bool_decide (rid ∈ exclusive_lock_set_ t).

Definition SetState (t : Transaction) (s : TransactionState) : Transaction :=
  mkTxn s (isolation_level_ t) (shared_lock_set_ t) (exclusive_lock_set_ t).

Definition set_txn (lm : LockManager) (txn_id : Z) (t : Transaction) : LockManager :=
  mkLM (lock_table_ lm) (<[txn_id := t]> (txn_map lm)).

Definition set_queue (lm : LockManager) (rid : RID) (q : LockRequestQueue) : LockManager :=
  mkLM (<[rid := q]> (lock_table_ lm)) (txn_map lm).

(** The loop of [InsertTxnIntoLockQueue]: [None] when no entry has the id. *)
Fixpoint mark_first (q : list LockRequest) (txn_id : Z) (lock_mode : LockMode)
    : option (list LockRequest) :=
  match q with
  | [] => None
  | iter :: rest =>
    if txn_id_ iter =? txn_id
    then Some (mkRequest (txn_id_ iter) (lock_mode_ iter)
                         (bool_decide (lock_mode = EXCLUSIVE)) :: rest)
    else option_map (cons iter) (mark_first rest txn_id lock_mode)
  end.

Definition InsertTxnIntoLockQueue (q : list LockRequest) (txn_id : Z) (lock_mode : LockMode)
    : list LockRequest :=
  match mark_first q txn_id lock_mode with
  | Some q' => q'
  | None => q ++ [mkRequest txn_id lock_mode false]
  end.

(** The three statements that wound or kill a transaction on [rid]:
    erase [rid] from both lock sets and set the state to [ABORTED]. *)
Definition wound (t : Transaction) (rid : RID) : Transaction :=
  mkTxn ABORTED (isolation_level_ t)
        (shared_lock_set_ t ∖ {[rid]}) (exclusive_lock_set_ t ∖ {[rid]}).

Definition add_shared (t : Transaction) (rid : RID) : Transaction :=
  mkTxn (state_ t) (isolation_level_ t) (shared_lock_set_ t ∪ {[rid]}) (exclusive_lock_set_ t).

Definition add_exclusive (t : Transaction) (rid : RID) : Transaction :=
  mkTxn (state_ t) (isolation_level_ t) (shared_lock_set_ t) (exclusive_lock_set_ t ∪ {[rid]}).

Definition erase_shared (t : Transaction) (rid : RID) : Transaction :=
  mkTxn (state_ t) (isolation_level_ t) (shared_lock_set_ t ∖ {[rid]}) (exclusive_lock_set_ t).

Definition erase_exclusive (t : Transaction) (rid : RID) : Transaction :=
  mkTxn (state_ t) (isolation_level_ t) (shared_lock_set_ t) (exclusive_lock_set_ t ∖ {[rid]}).

(** How a scan of the queue ends. *)
Inductive Scan : Type :=
  | ScanEnd    (* the iterator reached [end()] *)
  | ScanWait   (* [cv_.wait] was reached *)
  | ScanDie.   (* the caller aborted itself *)

(** The [while] loop of [LockShared].  [kept] are the entries the iterator has
    passed, [rest] those from the iterator on; an [erase] drops the head of
    [rest].  The result is the queue and the transactions when the loop is
    left. *)
Fixpoint LockShared_scan (txn_id : Z) (rid : RID) (kept rest : list LockRequest)
    (txns : gmap Z Transaction) : Scan * list LockRequest * gmap Z Transaction :=
  match rest with
  | [] => (ScanEnd, kept, txns)
  | iter :: rest' =>
    let trans := txns !!! txn_id_ iter in
    if (txn_id_ iter >? txn_id) && IsExclusiveLocked trans rid then
      LockShared_scan txn_id rid kept rest' (<[txn_id_ iter := wound trans rid]> txns)
    else if (txn_id_ iter <? txn_id) && IsExclusiveLocked trans rid then
      (ScanWait, kept ++ iter :: rest', txns)
    else LockShared_scan txn_id rid (kept ++ [iter]) rest' txns
  end.

(** [LockShared], from the label [ShareCheck] to the first [return] or
    [cv_.wait]. *)
Definition LockShared (lm : LockManager) (txn_id : Z) (rid : RID) : LockManager * Outcome :=
  let lock_queue := queue_of lm rid in
  let txn := GetTransaction lm txn_id in
  if bool_decide (state_ txn = ABORTED) then (lm, Returned false)
  else if bool_decide (isolation_level_ txn = READ_UNCOMMITTED) then
    (set_txn lm txn_id (SetState txn ABORTED), Returned false)
  else if bool_decide (state_ txn = SHRINKING) then
    (set_txn lm txn_id (SetState txn ABORTED), Returned false)
  else if IsSharedLocked txn rid then (lm, Returned true)
  else
    match LockShared_scan txn_id rid [] (request_queue_ lock_queue) (txn_map lm) with
    | (ScanEnd, q, txns) =>
      let txn := SetState (txns !!! txn_id) GROWING in
      let q := InsertTxnIntoLockQueue q txn_id SHARED in
      let txn := add_shared txn rid in
      (mkLM (<[rid := mkQueue q (upgrading_ lock_queue)]> (lock_table_ lm))
            (<[txn_id := txn]> txns), Returned true)
    | (_, q, txns) =>
      let q := InsertTxnIntoLockQueue q txn_id SHARED in
      let txn := add_shared (txns !!! txn_id) rid in
      (mkLM (<[rid := mkQueue q (upgrading_ lock_queue)]> (lock_table_ lm))
            (<[txn_id := txn]> txns), Blocked)
    end.

(** The [while] loop of [LockExclusive]. *)
Fixpoint LockExclusive_scan (txn_id : Z) (rid : RID) (kept rest : list LockRequest)
    (txns : gmap Z Transaction) : Scan * list LockRequest * gmap Z Transaction :=
  match rest with
  | [] => (ScanEnd, kept, txns)
  | iter :: rest' =>
    let trans := txns !!! txn_id_ iter in
    if (txn_id_ iter >? txn_id) || (txn_id =? 9) then
      LockExclusive_scan txn_id rid kept rest' (<[txn_id_ iter := wound trans rid]> txns)
    else if txn_id_ iter <? txn_id then
      (ScanDie, kept ++ iter :: rest', <[txn_id := wound (txns !!! txn_id) rid]> txns)
    else LockExclusive_scan txn_id rid (kept ++ [iter]) rest' txns
  end.

Definition LockExclusive (lm : LockManager) (txn_id : Z) (rid : RID) : LockManager * Outcome :=
  let lock_queue := queue_of lm rid in
  let txn := GetTransaction lm txn_id in
  if bool_decide (state_ txn = ABORTED) then (lm, Returned false)
  else if bool_decide (state_ txn = SHRINKING) then
    (set_txn lm txn_id (SetState txn ABORTED), Returned false)
  else if IsExclusiveLocked txn rid then (lm, Returned true)
  else
    match LockExclusive_scan txn_id rid [] (request_queue_ lock_queue) (txn_map lm) with
    | (ScanEnd, q, txns) =>
      let txn := SetState (txns !!! txn_id) GROWING in
      let q := InsertTxnIntoLockQueue q txn_id EXCLUSIVE in
      let txn := add_exclusive txn rid in
      (mkLM (<[rid := mkQueue q (upgrading_ lock_queue)]> (lock_table_ lm))
            (<[txn_id := txn]> txns), Returned true)
    | (_, q, txns) =>
      (mkLM (<[rid := mkQueue q (upgrading_ lock_queue)]> (lock_table_ lm)) txns,
       Returned false)
    end.

(** The [while] loop of [LockUpgrade]. *)
Fixpoint LockUpgrade_scan (txn_id : Z) (rid : RID) (kept rest : list LockRequest)
    (txns : gmap Z Transaction) : Scan * list LockRequest * gmap Z Transaction :=
  match rest with
  | [] => (ScanEnd, kept, txns)
  | iter :: rest' =>
    if txn_id_ iter >? txn_id then
      let trans := txns !!! txn_id_ iter in
      LockUpgrade_scan txn_id rid kept rest' (<[txn_id_ iter := wound trans rid]> txns)
    else if txn_id_ iter <? txn_id then
      (ScanWait, kept ++ iter :: rest', txns)
    else LockUpgrade_scan txn_id rid (kept ++ [iter]) rest' txns
  end.

(** [LockUpgrade], from the label [upgCheck] to the first [return],
    [cv_.wait] or failed assertion. *)
Definition LockUpgrade (lm : LockManager) (txn_id : Z) (rid : RID) : LockManager * Outcome :=
  let txn := GetTransaction lm txn_id in
  if bool_decide (state_ txn = ABORTED) then (lm, Returned false)
  else if bool_decide (state_ txn = SHRINKING) then
    (set_txn lm txn_id (SetState txn ABORTED), Returned false)
  else
    let lock_queue := queue_of lm rid in
    if upgrading_ lock_queue then
      (set_txn lm txn_id (SetState txn ABORTED), Returned false)
    else
      match LockUpgrade_scan txn_id rid [] (request_queue_ lock_queue) (txn_map lm) with
      | (ScanEnd, q, txns) =>
        let txn := SetState (txns !!! txn_id) GROWING in
        match q with
        | [request] =>
          if txn_id_ request =? txn_id then
            let request := mkRequest (txn_id_ request) EXCLUSIVE (granted_ request) in
            let txn := erase_shared (add_exclusive txn rid) rid in
            (mkLM (<[rid := mkQueue [request] false]> (lock_table_ lm))
                  (<[txn_id := txn]> txns), Returned true)
          else
            (mkLM (<[rid := mkQueue q true]> (lock_table_ lm)) (<[txn_id := txn]> txns),
             Crashed)
        | _ =>
          (mkLM (<[rid := mkQueue q true]> (lock_table_ lm)) (<[txn_id := txn]> txns),
           Crashed)
        end
      | (_, q, txns) =>
        (mkLM (<[rid := mkQueue q true]> (lock_table_ lm)) txns, Blocked)
      end.

(** The loop of [Unlock]: the queue without the first entry of [txn_id], and
    the mode of that entry. *)
Fixpoint erase_first (q : list LockRequest) (txn_id : Z) : option (LockMode * list LockRequest) :=
  match q with
  | [] => None
  | iter :: rest =>
    if txn_id_ iter =? txn_id then Some (lock_mode_ iter, rest)
    else
      match erase_first rest txn_id with
      | Some (m, rest') => Some (m, iter :: rest')
      | None => None
      end
  end.

(** [Unlock]; the last component tells whether [cv_.notify_all()] was
    called. *)
Definition Unlock (lm : LockManager) (txn_id : Z) (rid : RID)
    : LockManager * Outcome * bool :=
  let lock_queue := queue_of lm rid in
  let txn := GetTransaction lm txn_id in
  let txn_lockmode := if IsSharedLocked txn rid then SHARED else EXCLUSIVE in
  let txn :=
    if bool_decide (state_ txn = GROWING) then
      if IsExclusiveLocked txn rid then SetState txn SHRINKING
      else if IsSharedLocked txn rid && bool_decide (isolation_level_ txn = REPEATABLE_READ)
           then SetState txn SHRINKING
           else txn
    else txn in
  match erase_first (request_queue_ lock_queue) txn_id with
  | Some (mode, q) =>
    if bool_decide (mode = txn_lockmode) then
      let lt := <[rid := mkQueue q (upgrading_ lock_queue)]> (lock_table_ lm) in
      match txn_lockmode with
      | SHARED =>
        (mkLM lt (<[txn_id := erase_shared txn rid]> (txn_map lm)), Returned true,
         negb (bool_decide (q = [])))
      | EXCLUSIVE =>
        (mkLM lt (<[txn_id := erase_exclusive txn rid]> (txn_map lm)), Returned true, true)
      end
    else (set_txn lm txn_id txn, Crashed, false)
  | None => (set_txn lm txn_id txn, Returned false, false)
  end.

(** *** The threads around the lock manager

    Every call runs under the one mutex [latch_], which only [cv_.wait]
    releases; so a schedule of the threads is a sequence of atomic segments:
    a call up to its [return] or [cv_.wait], and the re-run of a blocked call
    from its label ([goto ShareCheck], [goto upgCheck]) when its [cv_.wait]
    returns.  [cv_.wait(unique_latch)] is called without a predicate: it
    returns after a [notify_all] on the queue, and it may return without one
    (a spurious wake-up), so a blocked thread may go on at any time.  A
    transaction is run by one thread, which issues no other call while it is
    blocked. *)

Inductive Pending : Type :=
  | PendingShared (rid : RID)
  | PendingUpgrade (rid : RID).

Global Instance Pending_eq_dec : EqDecision Pending.
Proof. solve_decision. Defined.

Definition pending_rid (p : Pending) : RID :=
  match p with PendingShared r => r | PendingUpgrade r => r end.

(** [waiting !! t = Some p]: the thread of transaction [t] is inside the call
    [p], in [cv_.wait]. *)
Record System : Type := mkSys {
  lm : LockManager;
  waiting : gmap Z Pending
}.

(** The thread of [t] may run the call [p]: it is not blocked, or it is
    blocked in this very call, whose [cv_.wait] returns. *)
Definition runnable (w : gmap Z Pending) (t : Z) (p : Pending) : Prop :=
  w !! t = None ∨ w !! t = Some p.

Definition after_call (w : gmap Z Pending) (t : Z) (p : Pending) (out : Outcome)
    : gmap Z Pending :=
  match out with
  | Blocked => <[t := p]> w
  | _ => delete t w
  end.

Inductive step : System → System → Prop :=
  | step_LockShared (s : System) (t : Z) (rid : RID) (lm' : LockManager) (out : Outcome) :
      runnable (waiting s) t (PendingShared rid) →
      LockShared (lm s) t rid = (lm', out) →
      out ≠ Crashed →
      step s (mkSys lm' (after_call (waiting s) t (PendingShared rid) out))
  | step_LockExclusive (s : System) (t : Z) (rid : RID) (lm' : LockManager) (out : Outcome) :
      waiting s !! t = None →
      LockExclusive (lm s) t rid = (lm', out) →
      step s (mkSys lm' (waiting s))
  | step_LockUpgrade (s : System) (t : Z) (rid : RID) (lm' : LockManager) (out : Outcome) :
      runnable (waiting s) t (PendingUpgrade rid) →
      LockUpgrade (lm s) t rid = (lm', out) →
      out ≠ Crashed →
      step s (mkSys lm' (after_call (waiting s) t (PendingUpgrade rid) out))
  | step_Unlock (s : System) (t : Z) (rid : RID) (lm' : LockManager) (out : Outcome)
      (notified : bool) :
      waiting s !! t = None →
      Unlock (lm s) t rid = (lm', out, notified) →
      out ≠ Crashed →
      step s (mkSys lm' (waiting s)).

(** The states a schedule can reach. *)
Inductive reachable (s0 : System) : System → Prop :=
  | reachable_refl : reachable s0 s0
  | reachable_step (s s' : System) : reachable s0 s → step s s' → reachable s0 s'.

(** A lock manager that has seen no call yet, over any transactions. *)
Definition initial (s : System) : Prop :=
  lock_table_ (lm s) = ∅ ∧ waiting s = ∅.

End LockMgr.

(** ** Executors: [seq_scan_executor.cpp], [insert_executor.cpp],
       [delete_executor.cpp], [update_executor.cpp] *)

Module Executors.
Import LockMgr.

(** A tuple is the list of its column values; values are integers. *)
Definition Tuple : Type := list Z.

(** What reaches the heap table and the indexes. *)
Inductive Event : Type :=
  | EvInsertTuple (t : Tuple) (rid : RID)
  | EvMarkDelete (rid : RID)
  | EvUpdateTuple (t : Tuple) (rid : RID)
  | EvInsertEntry (index_oid : Z) (key : Tuple) (rid : RID)
  | EvDeleteEntry (index_oid : Z) (key : Tuple) (rid : RID).

Inductive WType : Type := INSERT | DELETE | UPDATE.

Record IndexWriteRecord : Type := mkIndexWriteRecord {
  rid_ : RID;
  wtype_ : WType;
  tuple_ : Tuple;
  old_tuple_ : Tuple;
  index_oid_ : Z
}.

(** Modelled from the spec: the catalog yields, for the table of the plan,
    the list of its indexes [{index, index_oid}], each with its key
    attributes. *)
Record IndexInfo : Type := mkIndexInfo {
  index_oid : Z;
  key_attrs : list nat
}.

(** Modelled from the spec: the heap table is an external collaborator with
    [InsertTuple], [UpdateTuple], [MarkDelete]; here it is the list of its
    rows, the room left, and the next free slot. *)
Record TableHeap : Type := mkHeap {
  rows : list (RID * Tuple);
  free_slots : nat;
  next_slot : Z
}.

(** What an executor works on: the lock manager of the context (with the
    transactions), whether [GetLockManager()] is non-null, the heap of the
    table, the log of the calls made to the heap and the indexes, and the
    index write set of the transaction. *)
Record ExecState : Type := mkExec {
  lock_mgr : LockManager;
  has_lock_mgr : bool;
  table_heap : TableHeap;
  log : list Event;
  index_write_set : list IndexWriteRecord
}.

Inductive ExecResult (A : Type) : Type :=
  | Done (a : A)
  | ThreadBlocked          (* a lock call waits on the condition variable *)
  | ProcessAborted         (* a failed assertion in the lock manager *)
  | Thrown                 (* an [Exception] leaves [Next] *)
  | NoFuel.
Arguments Done {A} a.
Arguments ThreadBlocked {A}.
Arguments ProcessAborted {A}.
Arguments Thrown {A}.
Arguments NoFuel {A}.

Definition ebind {A B} (r : ExecResult A) (k : A → ExecResult B) : ExecResult B :=
  match r with
  | Done a => k a
  | ThreadBlocked => ThreadBlocked
  | ProcessAborted => ProcessAborted
  | Thrown => Thrown
  | NoFuel => NoFuel
  end.

Notation "'do*' x ':=' c 'in' k" := (ebind c (fun x => k))
  (at level 10, x pattern, c at level 100, k at level 200).

Definition with_lock_mgr (st : ExecState) (lm : LockManager) : ExecState :=
  mkExec lm (has_lock_mgr st) (table_heap st) (log st) (index_write_set st).

Definition emit (st : ExecState) (e : Event) : ExecState :=
  mkExec (lock_mgr st) (has_lock_mgr st) (table_heap st) (log st ++ [e]) (index_write_set st).

Definition record_write (st : ExecState) (r : IndexWriteRecord) : ExecState :=
  mkExec (lock_mgr st) (has_lock_mgr st) (table_heap st) (log st) (index_write_set st ++ [r]).

(** A lock call whose result the caller drops: [lock_mgr->LockShared(txn,
    rid);] and the like are statements, their [bool] is not looked at. *)
Definition call_dropping_result (st : ExecState) (r : LockManager * Outcome)
    : ExecResult ExecState :=
  match r with
  | (lm, Returned _) => Done (with_lock_mgr st lm)
  | (_, Blocked) => ThreadBlocked
  | (_, Crashed) => ProcessAborted
  end.

Definition txn_of (st : ExecState) (txn : Z) : Transaction :=
  GetTransaction (lock_mgr st) txn.

(** The release after the work: [if (isolation == READ_COMMITTED && lock_mgr
    != nullptr) lock_mgr->Unlock(txn, rid);] *)
Definition unlock_if_read_committed (st : ExecState) (txn : Z) (rid : RID)
    : ExecResult ExecState :=
  if bool_decide (isolation_level_ (txn_of st txn) = READ_COMMITTED) && has_lock_mgr st
  then call_dropping_result st (Unlock (lock_mgr st) txn rid).1
  else Done st.

(** The lock step shared by Insert, Delete and Update: upgrade when the rid is
    shared-locked, else take the exclusive lock unless it is held. *)
Definition lock_for_write (st : ExecState) (txn : Z) (rid : RID) : ExecResult ExecState :=
  if has_lock_mgr st then
    if IsSharedLocked (txn_of st txn) rid then
      call_dropping_result st (LockUpgrade (lock_mgr st) txn rid)
    else if negb (IsExclusiveLocked (txn_of st txn) rid) then
      call_dropping_result st (LockExclusive (lock_mgr st) txn rid)
    else Done st
  else Done st.

Definition KeyFromTuple (t : Tuple) (attrs : list nat) : Tuple :=
  map (λ i, default 0 (t !! i)) attrs.

(** *** SeqScan *)

Record SeqScanPlanNode : Type := mkSeqScanPlan {
  output_exprs : list (Tuple → Z);
  predicate : option (Tuple → bool)
}.

(** [SeqScanExecutor::Next]; [iter] is the part of the table from [iter_]
    on.  The result carries the advanced iterator and the emitted row. *)
Fixpoint SeqScan_Next (plan : SeqScanPlanNode) (txn : Z) (iter : list (RID * Tuple))
    (st : ExecState) : ExecResult (ExecState * list (RID * Tuple) * option (Tuple * RID)) :=
  match iter with
  | [] => Done (st, [], None)
  | (original_rid, row) :: iter' =>
    do* st :=
      (if has_lock_mgr st
          && negb (bool_decide (isolation_level_ (txn_of st txn) = READ_UNCOMMITTED))
          && negb (IsExclusiveLocked (txn_of st txn) original_rid)
          && negb (IsSharedLocked (txn_of st txn) original_rid)
       then call_dropping_result st (LockShared (lock_mgr st) txn original_rid)
       else Done st) in
    let vals := map (λ expr, expr row) (output_exprs plan) in
    do* st := unlock_if_read_committed st txn original_rid in
    let temp_tuple := vals in
    match predicate plan with
    | None => Done (st, iter', Some (temp_tuple, original_rid))
    | Some predict =>
      if predict temp_tuple then Done (st, iter', Some (temp_tuple, original_rid))
      else SeqScan_Next plan txn iter' st
    end
  end.

(** *** The child of a writing executor

    [child_Next c st] is [child_executor_->Next(&tuple, &rid)] on the child in
    state [c]. *)
Definition Child (C : Type) : Type :=
  C → ExecState → ExecResult (ExecState * C * option (Tuple * RID)).

(** A sequential scan as a child. *)
Definition SeqScan_child (plan : SeqScanPlanNode) (txn : Z) : Child (list (RID * Tuple)) :=
  λ iter st, SeqScan_Next plan txn iter st.

(** *** Delete *)

(** The body of the [for] loop over the indexes of the table in [Delete]. *)
Definition Delete_index (cur_tuple : Tuple) (cur_rid : RID)
    (st : ExecState) (index : IndexInfo) : ExecState :=
  let st := emit st (EvDeleteEntry (index_oid index)
                                   (KeyFromTuple cur_tuple (key_attrs index)) cur_rid) in
  record_write st (mkIndexWriteRecord cur_rid DELETE cur_tuple [] (index_oid index)).

(** One round of the [while (true)] loop of [DeleteExecutor::Next], after the
    child has produced [(cur_tuple, cur_rid)]. *)
Definition Delete_row (indexes : list IndexInfo) (txn : Z) (cur_tuple : Tuple) (cur_rid : RID)
    (st : ExecState) : ExecResult ExecState :=
  do* st := lock_for_write st txn cur_rid in
  let st := emit st (EvMarkDelete cur_rid) in
  let st := foldl (Delete_index cur_tuple cur_rid) st indexes in
  unlock_if_read_committed st txn cur_rid.

(** [DeleteExecutor::Next]: at most [fuel] calls of the child. *)
Fixpoint Delete_Next {C : Type} (child_Next : Child C) (indexes : list IndexInfo) (txn : Z)
    (fuel : nat) (c : C) (st : ExecState) : ExecResult (ExecState * bool) :=
  match fuel with
  | O => NoFuel
  | S fuel' =>
    match child_Next c st with
    | Done (st, c, None) => Done (st, false)
    | Done (st, c, Some (cur_tuple, cur_rid)) =>
      do* st := Delete_row indexes txn cur_tuple cur_rid st in
      Delete_Next child_Next indexes txn fuel' c st
    | Thrown => Thrown
    | ThreadBlocked => ThreadBlocked
    | ProcessAborted => ProcessAborted
    | NoFuel => NoFuel
    end
  end.

(** *** Update *)

Inductive UpdateType : Type := Add | Set_.

Record UpdateInfo : Type := mkUpdateInfo {
  type_ : UpdateType;
  update_val_ : Z
}.

(** [GenerateUpdatedTuple]; [col_count] is the column count of the schema. *)
Definition GenerateUpdatedTuple (update_attrs : gmap nat UpdateInfo) (col_count : nat)
    (src_tuple : Tuple) : Tuple :=
  map (λ idx,
         let val := default 0 (src_tuple !! idx) in
         match update_attrs !! idx with
         | None => val
         | Some info =>
           match type_ info with
           | Add => val + update_val_ info
           | Set_ => update_val_ info
           end
         end)
      (seq 0 col_count).

Definition Update_index (old_tuple new_tuple : Tuple) (tuple_rid : RID)
    (st : ExecState) (index : IndexInfo) : ExecState :=
  let st := emit st (EvDeleteEntry (index_oid index)
                                   (KeyFromTuple old_tuple (key_attrs index)) tuple_rid) in
  let st := emit st (EvInsertEntry (index_oid index)
                                   (KeyFromTuple new_tuple (key_attrs index)) tuple_rid) in
  record_write st (mkIndexWriteRecord tuple_rid UPDATE new_tuple old_tuple (index_oid index)).

Definition Update_row (update_attrs : gmap nat UpdateInfo) (col_count : nat)
    (indexes : list IndexInfo) (txn : Z) (old_tuple : Tuple) (tuple_rid : RID)
    (st : ExecState) : ExecResult ExecState :=
  do* st := lock_for_write st txn tuple_rid in
  let new_tuple := GenerateUpdatedTuple update_attrs col_count old_tuple in
  let st := emit st (EvUpdateTuple new_tuple tuple_rid) in
  let st := foldl (Update_index old_tuple new_tuple tuple_rid) st indexes in
  unlock_if_read_committed st txn tuple_rid.

Fixpoint Update_Next {C : Type} (child_Next : Child C) (update_attrs : gmap nat UpdateInfo)
    (col_count : nat) (indexes : list IndexInfo) (txn : Z)
    (fuel : nat) (c : C) (st : ExecState) : ExecResult (ExecState * bool) :=
  match fuel with
  | O => NoFuel
  | S fuel' =>
    match child_Next c st with
    | Done (st, c, None) => Done (st, false)
    | Done (st, c, Some (old_tuple, tuple_rid)) =>
      do* st := Update_row update_attrs col_count indexes txn old_tuple tuple_rid st in
      Update_Next child_Next update_attrs col_count indexes txn fuel' c st
    | Thrown => Thrown
    | ThreadBlocked => ThreadBlocked
    | ProcessAborted => ProcessAborted
    | NoFuel => NoFuel
    end
  end.

(** *** Insert *)

(** Modelled from the spec: [InsertTuple] on the heap; it fails when the heap
    has no room left, else it places the tuple at a fresh rid. *)
Definition InsertTuple (h : TableHeap) (t : Tuple) : option (TableHeap * RID) :=
  match free_slots h with
  | O => None
  | S n =>
    let rid : RID := (0, next_slot h) in
    Some (mkHeap (rows h ++ [(rid, t)]) n (next_slot h + 1), rid)
  end.

Definition Insert_index (cur_tuple : Tuple) (cur_rid : RID)
    (st : ExecState) (index : IndexInfo) : ExecState :=
  let st := emit st (EvInsertEntry (index_oid index)
                                   (KeyFromTuple cur_tuple (key_attrs index)) cur_rid) in
  record_write st (mkIndexWriteRecord cur_rid INSERT cur_tuple [] (index_oid index)).

(** [InsertExecutor::InsertIntoTableWithIndex] *)
Definition InsertIntoTableWithIndex (indexes : list IndexInfo) (txn : Z) (cur_tuple : Tuple)
    (st : ExecState) : ExecResult ExecState :=
  match InsertTuple (table_heap st) cur_tuple with
  | None => Thrown
  | Some (heap, cur_rid) =>
    let st := mkExec (lock_mgr st) (has_lock_mgr st) heap
                     (log st ++ [EvInsertTuple cur_tuple cur_rid]) (index_write_set st) in
    do* st := lock_for_write st txn cur_rid in
    let st := foldl (Insert_index cur_tuple cur_rid) st indexes in
    unlock_if_read_committed st txn cur_rid
  end.

(** The raw-insert branch of [InsertExecutor::Next]. *)
Fixpoint Insert_rows (indexes : list IndexInfo) (txn : Z) (raw_values : list Tuple)
    (st : ExecState) : ExecResult ExecState :=
  match raw_values with
  | [] => Done st
  | row_value :: rest =>
    do* st := InsertIntoTableWithIndex indexes txn row_value st in
    Insert_rows indexes txn rest st
  end.

(** The first loop of the other branch: drain the child into
    [child_tuples]. *)
Fixpoint drain_child {C : Type} (child_Next : Child C) (fuel : nat) (c : C) (st : ExecState)
    (child_tuples : list Tuple) : ExecResult (ExecState * list Tuple) :=
  match fuel with
  | O => NoFuel
  | S fuel' =>
    match child_Next c st with
    | Done (st, c, None) => Done (st, child_tuples)
    | Done (st, c, Some (cur_tuple, _)) =>
      drain_child child_Next fuel' c st (child_tuples ++ [cur_tuple])
    | Thrown => Thrown
    | ThreadBlocked => ThreadBlocked
    | ProcessAborted => ProcessAborted
    | NoFuel => NoFuel
    end
  end.

(** [InsertExecutor::Next]: [raw_values] is [Some] for a raw insert. *)
Definition Insert_Next {C : Type} (child_Next : Child C) (raw_values : option (list Tuple))
    (indexes : list IndexInfo) (txn : Z) (fuel : nat) (c : C) (st : ExecState)
    : ExecResult (ExecState * bool) :=
  match raw_values with
  | Some values =>
    do* st := Insert_rows indexes txn values st in
    Done (st, false)
  | None =>
    do* (st, child_tuples) := drain_child child_Next fuel c st [] in
    do* st := Insert_rows indexes txn child_tuples st in
    Done (st, false)
  end.

End Executors.

(** * Properties

    The predicates the theorems are stated with, and the concrete tables,
    queues and plans the examples run on. *)

(** ** Bucket page *)

Module BucketProps.
Import BucketPage.

Section Props.
Context {KeyType ValueType : Type}.
Variable BUCKET_ARRAY_SIZE : nat.

Abbreviation Bucket := (@HashTableBucketPage KeyType ValueType).

(** [readable[i] ⇒ occupied[i]] on the slots of the page. *)
Definition bitmaps_consistent (b : Bucket) : Prop :=
  ∀ i : nat, (i < BUCKET_ARRAY_SIZE)%nat → IsReadable b i = true → IsOccupied b i = true.

(** No occupied bit of [b] is cleared in [b']. *)
Definition keeps_occupied (b b' : Bucket) : Prop :=
  ∀ i : nat, (i < BUCKET_ARRAY_SIZE)%nat → IsOccupied b i = true → IsOccupied b' i = true.

End Props.

(** [IntComparator], for the instance [<int, int, IntComparator>]. *)
Definition IntComparator (a b : Z) : Z :=
  if a <? b then -1 else if b <? a then 1 else 0.

(** A bucket of four slots holding the one pair [(7, 7)]. *)
Definition one_entry_bucket : @HashTableBucketPage Z Z :=
  (Insert IntComparator 4 (0, 0) (zero_bucket 4 (0, 0)) 7 7).1.

End BucketProps.

(** ** Bucket page: what a bucket holds *)

Module BucketView.
Import BucketPage.

Section View.
Context {KeyType ValueType : Type}.
Context `{ValEq : EqDecision ValueType}.
Variable cmp : KeyType → KeyType → Z.
Variable BUCKET_ARRAY_SIZE : nat.
Variable zero_entry : KeyType * ValueType.

Abbreviation Bucket := (@HashTableBucketPage KeyType ValueType).

(** The slots whose readable bit is set, in rising order. *)
Definition readable_slots (b : Bucket) : list nat :=
  filter (λ i, IsReadable b i = true) (seq 0 BUCKET_ARRAY_SIZE).

(** The values at the readable slots whose key compares equal to [key], in
    the order of the slots. *)
Definition values_of (b : Bucket) (key : KeyType) : list ValueType :=
  map (ValueAt zero_entry b)
      (filter (λ i, IsReadable b i = true ∧ cmp key (KeyAt zero_entry b i) = 0)
              (seq 0 BUCKET_ARRAY_SIZE)).

(** The readable slot [i] holds the pair [(key, value)], as [Insert] and
    [Remove] test it. *)
Definition pair_at (b : Bucket) (key : KeyType) (value : ValueType) (i : nat) : Prop :=
  IsReadable b i = true ∧ cmp key (KeyAt zero_entry b i) = 0 ∧ ValueAt zero_entry b i = value.

(** The bitmaps hold bytes. *)
Definition bytes_ok (b : Bucket) : Prop :=
  Forall (λ c, 0 ≤ c < 256) (occupied_ b) ∧ Forall (λ c, 0 ≤ c < 256) (readable_ b).

(** A bucket page of the right shape. *)
Definition bucket_ok (b : Bucket) : Prop :=
  wf_bucket BUCKET_ARRAY_SIZE b ∧ bytes_ok b.

End View.

(** A bucket of four slots with the pairs [(1, 10)], [(2, 20)], [(1, 30)],
    and the same after [(2, 20)] has been removed. *)
Definition bucket_3 : @HashTableBucketPage Z Z :=
  foldl (λ b kv, (Insert BucketProps.IntComparator 4 (0, 0) b kv.1 kv.2).1)
        (zero_bucket 4 (0, 0)) [(1, 10); (2, 20); (1, 30)].

Definition bucket_3_hole : @HashTableBucketPage Z Z :=
  (Remove BucketProps.IntComparator 4 (0, 0) bucket_3 2 20).1.

(** A full bucket of four slots. *)
Definition bucket_4 : @HashTableBucketPage Z Z :=
  (Insert BucketProps.IntComparator 4 (0, 0) bucket_3 4 40).1.

End BucketView.

(** ** Extendible hash table *)

Module TableProps.
Import DirectoryPage BufferPool HashTable BucketProps.

(** The instance [ExtendibleHashTable<int, int, IntComparator>], with the
    bucket size of the split scenario of the spec ([BUCKET_ARRAY_SIZE = 4])
    and a hash function that returns the key itself. *)
Abbreviation IntTable := (@ExtendibleHashTable Z Z).

Definition SLOTS : nat := 4%nat.
Definition int_hash (key : Z) : Z := key.

(** The buffer pool the table is built over: an empty pool of ten frames.
    The calls of the index pin at most three pages at a time. *)
Definition POOL_SIZE : nat := 10%nat.

Definition new_table : IntTable := ExtendibleHashTable_new (empty_pool _ POOL_SIZE).

(** Sixteen nested splits are more than [MAX_BUCKET_DEPTH] allows. *)
Definition insert_int (ht : IntTable) (key value : Z) : Result (IntTable * bool) :=
  Insert IntComparator SLOTS (0, 0) int_hash 16 ht key value.

Definition remove_int (ht : IntTable) (key value : Z) : Result (IntTable * bool) :=
  Remove IntComparator SLOTS (0, 0) int_hash ht key value.

Definition get_int (ht : IntTable) (key : Z) : Result (IntTable * (list Z * bool)) :=
  GetValue IntComparator SLOTS (0, 0) int_hash ht key [].

(** [Insert(k, k)] for each key in turn; the results of the calls are
    collected. *)
Fixpoint insert_all (keys : list Z) (ht : IntTable) (results : list bool)
    : Result (IntTable * list bool) :=
  match keys with
  | [] => Ok (ht, results)
  | key :: rest =>
    let* (ht, ok) := insert_int ht key key in
    (insert_all rest ht (results ++ [ok]))
  end.

(** [Remove(k, k)] for each key in turn. *)
Fixpoint remove_all (keys : list Z) (ht : IntTable) (results : list bool)
    : Result (IntTable * list bool) :=
  match keys with
  | [] => Ok (ht, results)
  | key :: rest =>
    let* (ht, ok) := remove_int ht key key in
    (remove_all rest ht (results ++ [ok]))
  end.

(** The directory page of a table, as it is in the pool. *)
Definition directory_of (ht : IntTable) : Result HashTableDirectoryPage :=
  as_directory (pages _ (buffer_pool_manager_ ht) !! directory_page_id_ ht).

(** The bucket page a slot of the directory points to. *)
Definition bucket_of (ht : IntTable) (bucket_idx : Z)
    : Result (@BucketPage.HashTableBucketPage Z Z) :=
  let* dir_page := directory_of ht in
  as_bucket SLOTS (0, 0)
    (pages _ (buffer_pool_manager_ ht) !! GetBucketPageId dir_page bucket_idx).

(** The pin count of a page of the table. *)
Definition pins_of (ht : IntTable) (p : Z) : nat := pins _ (buffer_pool_manager_ ht) p.

(** [SplitInsert] stopped where it would call [Insert] again: the table right
    after the split. *)
Definition split_only (ht : IntTable) (key value : Z) : Result (IntTable * bool) :=
  SplitInsert IntComparator SLOTS (0, 0) int_hash (λ ht _ _, Ok (ht, true)) ht key value.

(** The same instance with buckets of 56 slots, to see that what happens
    with four slots is not owed to the small bucket. *)
Definition WIDE_SLOTS : nat := 56%nat.

Definition insert_wide (ht : IntTable) (key value : Z) : Result (IntTable * bool) :=
  Insert IntComparator WIDE_SLOTS (0, 0) int_hash 16 ht key value.

Definition get_wide (ht : IntTable) (key : Z) : Result (IntTable * (list Z * bool)) :=
  GetValue IntComparator WIDE_SLOTS (0, 0) int_hash ht key [].

(** [Insert(k, k)] for each key in turn; [all_ok] tells whether every call so
    far returned true. *)
Fixpoint insert_all_wide (keys : list Z) (ht : IntTable) (all_ok : bool)
    : Result (IntTable * bool) :=
  match keys with
  | [] => Ok (ht, all_ok)
  | key :: rest =>
    let* (ht, ok) := insert_wide ht key key in
    (insert_all_wide rest ht (all_ok && ok))
  end.

(** 57 keys that agree in their three low bits, and 56 even keys with 10
    among them. *)
Definition odd_keys : list Z := map (λ k, 1 + 8 * Z.of_nat k) (seq 0 57).
Definition even_keys : list Z := 10 :: map (λ k, 8 * Z.of_nat k) (seq 0 55).

End TableProps.

(** ** Extendible hash table: the bucket of a key *)

Module TableView.
Import DirectoryPage BufferPool HashTable.

Section View.
Context {KeyType ValueType : Type}.
Context `{ValEq : EqDecision ValueType}.
Variable BUCKET_ARRAY_SIZE : nat.
Variable zero_entry : KeyType * ValueType.
Variable hash_fn : KeyType → Z.

Abbreviation Table := (@ExtendibleHashTable KeyType ValueType).

(** The table has its directory page, which holds [dir_page], and the slot
    of [key] in it names a page that is seen as the bucket [bucket]: a page
    that holds a bucket, or a new page that has not been written yet. *)
Definition bucket_for (ht : Table) (key : KeyType) (dir_page : HashTableDirectoryPage)
    (bucket : @BucketPage.HashTableBucketPage KeyType ValueType) : Prop :=
  directory_page_id_ ht ≠ INVALID_PAGE_ID ∧
  pages _ (buffer_pool_manager_ ht) !! directory_page_id_ ht = Some (DirData dir_page) ∧
  GetPageId dir_page = directory_page_id_ ht ∧
  as_bucket BUCKET_ARRAY_SIZE zero_entry
    (pages _ (buffer_pool_manager_ ht) !! KeyToPageId hash_fn key dir_page) = Ok bucket.

(** The pool of [ht'] has the pin counts, the allocator and the frames of the
    pool of [ht]. *)
Definition same_pins (ht ht' : Table) : Prop :=
  directory_page_id_ ht' = directory_page_id_ ht ∧
  next_page_id _ (buffer_pool_manager_ ht') = next_page_id _ (buffer_pool_manager_ ht) ∧
  pool_size _ (buffer_pool_manager_ ht') = pool_size _ (buffer_pool_manager_ ht) ∧
  ∀ p, pins _ (buffer_pool_manager_ ht') p = pins _ (buffer_pool_manager_ ht) p.

(** At least [n] frames of the pool are free or hold a page that is not
    pinned. *)
Definition frames_left (ht : Table) (n : nat) : Prop :=
  (size (pinned_pages _ (buffer_pool_manager_ ht)) + n
   ≤ pool_size _ (buffer_pool_manager_ ht))%nat.

End View.

(** The table of the instance [TableProps.IntTable] after [Insert(k, k)] for
    [k = 0, 2, 4]: no split has happened, the three keys are in one bucket
    of four slots. *)
Definition table_three : TableProps.IntTable :=
  match TableProps.insert_all [0; 2; 4] TableProps.new_table [] with
  | Ok (ht, _) => ht
  | _ => TableProps.new_table
  end.

Definition dir_three : HashTableDirectoryPage :=
  match TableProps.directory_of table_three with
  | Ok dir_page => dir_page
  | _ => zero_directory
  end.

Definition bucket_three : @BucketPage.HashTableBucketPage Z Z :=
  match TableProps.bucket_of table_three 0 with
  | Ok bucket => bucket
  | _ => BucketPage.zero_bucket TableProps.SLOTS (0, 0)
  end.

End TableView.

(** ** Lock manager *)

Module LockProps.
Import LockMgr.

(** The transaction ids of the entries of a queue. *)
Definition ids (q : list LockRequest) : list Z := txn_id_ <$> q.

(** The entries of a queue in front of the first entry of a transaction older
    than [txn_id] (one with a smaller id), and the rest of the queue from that
    entry on. *)
Fixpoint before_first_older (txn_id : Z) (q : list LockRequest) : list LockRequest :=
  match q with
  | [] => []
  | e :: rest => if txn_id_ e <? txn_id then [] else e :: before_first_older txn_id rest
  end.

Fixpoint from_first_older (txn_id : Z) (q : list LockRequest) : list LockRequest :=
  match q with
  | [] => []
  | e :: rest => if txn_id_ e <? txn_id then e :: rest else from_first_older txn_id rest
  end.

Definition younger (txn_id : Z) (e : LockRequest) : Prop := txn_id < txn_id_ e.

Global Instance younger_dec (txn_id : Z) (e : LockRequest) : Decision (younger txn_id e).
Proof. unfold younger. apply _. Defined.

(** A transaction has been wounded on [rid]: it is [ABORTED] and [rid] is in
    neither of its lock sets. *)
Definition wounded_on (t : Transaction) (rid : RID) : Prop :=
  state_ t = ABORTED ∧ (rid ∉ shared_lock_set_ t) ∧ (rid ∉ exclusive_lock_set_ t).

(** Wounding, one after the other, the transactions of a list of entries. *)
Definition wound_all (rid : RID) (victims : list LockRequest) (txns : gmap Z Transaction)
    : gmap Z Transaction :=
  foldl (λ m e, <[txn_id_ e := wound (m !!! txn_id_ e) rid]> m) txns victims.

(** [LockExclusive(txn, rid)] gets past its three early returns. *)
Definition reaches_exclusive_scan (lm : LockManager) (txn_id : Z) (rid : RID) : Prop :=
  let txn := GetTransaction lm txn_id in
  state_ txn ≠ ABORTED ∧ state_ txn ≠ SHRINKING ∧ rid ∉ exclusive_lock_set_ txn.

(** [LockShared(txn, rid)] gets past its four early returns. *)
Definition reaches_shared_scan (lm : LockManager) (txn_id : Z) (rid : RID) : Prop :=
  let txn := GetTransaction lm txn_id in
  state_ txn ≠ ABORTED ∧ isolation_level_ txn ≠ READ_UNCOMMITTED ∧
  state_ txn ≠ SHRINKING ∧ rid ∉ shared_lock_set_ txn.

(** C2 as the claim states it: every entry of a younger transaction is
    wounded (and only those), and the caller dies when some entry is older. *)
Definition wounds_exactly_the_younger (lm : LockManager) (txn_id : Z) (rid : RID) : Prop :=
  let q := request_queue_ (queue_of lm rid) in
  let '(lm', out) := LockExclusive lm txn_id rid in
  (∀ e, e ∈ q → txn_id < txn_id_ e →
        (txn_id_ e ∉ ids (request_queue_ (queue_of lm' rid))) ∧
        wounded_on (GetTransaction lm' (txn_id_ e)) rid) ∧
  (∀ e, e ∈ q → txn_id_ e < txn_id →
        GetTransaction lm' (txn_id_ e) = GetTransaction lm (txn_id_ e)) ∧
  ((∃ e, e ∈ q ∧ txn_id_ e < txn_id) →
        out = Returned false ∧ state_ (GetTransaction lm' txn_id) = ABORTED).

(** *** Concrete lock managers *)

Definition r0 : RID := (0, 0).

Definition fresh_txn : Transaction := mkTxn GROWING REPEATABLE_READ ∅ ∅.
Definition reader_of (rid : RID) : Transaction := mkTxn GROWING REPEATABLE_READ {[rid]} ∅.

(** No lock taken yet; transactions 0 to 3 and 9 have begun. *)
Definition lm_fresh : LockManager :=
  mkLM ∅ (list_to_map [(0, fresh_txn); (1, fresh_txn); (2, fresh_txn); (3, fresh_txn);
                       (5, fresh_txn); (9, fresh_txn)]).

(** Transactions 1 and 5 hold [r0] in shared mode. *)
Definition lm_readers_1_5 : LockManager :=
  mkLM {[ r0 := mkQueue [mkRequest 1 SHARED false; mkRequest 5 SHARED false] false ]}
       (list_to_map [(1, reader_of r0); (3, fresh_txn); (5, reader_of r0)]).

(** Transaction 3 holds [r0] in shared mode; transaction 9 has begun. *)
Definition lm_reader_3 : LockManager :=
  mkLM {[ r0 := mkQueue [mkRequest 3 SHARED false] false ]}
       (list_to_map [(3, reader_of r0); (9, fresh_txn)]).

End LockProps.

(** ** Schedules of lock manager calls *)

Module LockSched.
Import LockMgr LockProps.

(** The entries of the queue of [rid] that are not the pending request of a
    thread blocked in [LockShared] on [rid]: the requests whose call has
    returned true and that have not been given back or wounded.  (The flag
    [granted_] does not tell them: a request is appended with the flag
    clear, whether its call returns true or waits.) *)
Definition granted_in (s : System) (rid : RID) (e : LockRequest) : Prop :=
  waiting s !! txn_id_ e ≠ Some (PendingShared rid).

Global Instance granted_in_dec (s : System) (rid : RID) (e : LockRequest)
  : Decision (granted_in s rid e).
Proof. unfold granted_in. apply _. Defined.

(** Either all entries are SHARED, or there is exactly one and it is
    EXCLUSIVE. *)
Definition compatible (granted : list LockRequest) : Prop :=
  (∀ e, e ∈ granted → lock_mode_ e = SHARED) ∨
  (∃ e, granted = [e] ∧ lock_mode_ e = EXCLUSIVE).

(** Transaction [txn_id] holds a lock on [rid] in mode [mode], by the test
    the lock manager and the executors use ([IsSharedLocked],
    [IsExclusiveLocked]): [rid] is in the lock set of that mode, and the
    thread of the transaction is not still waiting for it. *)
Definition holds (s : System) (txn_id : Z) (rid : RID) (mode : LockMode) : Prop :=
  waiting s !! txn_id ≠ Some (PendingShared rid) ∧
  match mode with
  | SHARED => rid ∈ shared_lock_set_ (GetTransaction (lm s) txn_id)
  | EXCLUSIVE => rid ∈ exclusive_lock_set_ (GetTransaction (lm s) txn_id)
  end.

(** C3 as the claim states it, at one state and one rid: the granted entries
    are all SHARED or there is exactly one and it is EXCLUSIVE, and no
    transaction holds [rid] in exclusive mode while another transaction
    holds it in any mode. *)
Definition locks_compatible (s : System) (rid : RID) : Prop :=
  compatible (filter (granted_in s rid) (request_queue_ (queue_of (lm s) rid))) ∧
  (∀ t t' mode, holds s t rid EXCLUSIVE → holds s t' rid mode → t' = t).

(** *** Schedules as lists of calls *)

Inductive Call : Type :=
  | CallLockShared (txn_id : Z) (rid : RID)
  | CallLockExclusive (txn_id : Z) (rid : RID)
  | CallLockUpgrade (txn_id : Z) (rid : RID)
  | CallUnlock (txn_id : Z) (rid : RID).

(** One segment: the call run up to its [return] or [cv_.wait]; for a
    thread that is in [cv_.wait] inside this call, the call as it goes on from
    its label. *)
Definition do_call (s : System) (c : Call) : System :=
  match c with
  | CallLockShared t rid =>
    let '(lm', out) := LockShared (lm s) t rid in
    mkSys lm' (after_call (waiting s) t (PendingShared rid) out)
  | CallLockExclusive t rid => mkSys (LockExclusive (lm s) t rid).1 (waiting s)
  | CallLockUpgrade t rid =>
    let '(lm', out) := LockUpgrade (lm s) t rid in
    mkSys lm' (after_call (waiting s) t (PendingUpgrade rid) out)
  | CallUnlock t rid => mkSys (Unlock (lm s) t rid).1.1 (waiting s)
  end.

(** The thread of the call may run it, and no assertion fails in it. *)
Definition enabled (s : System) (c : Call) : bool :=
  match c with
  | CallLockShared t rid =>
    bool_decide (runnable (waiting s) t (PendingShared rid))
    && negb (bool_decide ((LockShared (lm s) t rid).2 = Crashed))
  | CallLockExclusive t rid => bool_decide (waiting s !! t = None)
  | CallLockUpgrade t rid =>
    bool_decide (runnable (waiting s) t (PendingUpgrade rid))
    && negb (bool_decide ((LockUpgrade (lm s) t rid).2 = Crashed))
  | CallUnlock t rid =>
    bool_decide (waiting s !! t = None)
    && negb (bool_decide ((Unlock (lm s) t rid).1.2 = Crashed))
  end.

Definition run (s : System) (calls : list Call) : System := foldl do_call s calls.

Fixpoint schedule_ok (s : System) (calls : list Call) : bool :=
  match calls with
  | [] => true
  | c :: calls => enabled s c && schedule_ok (do_call s c) calls
  end.

(** *** A schedule of three segments

    Transaction 1 takes [r0] in exclusive mode; transaction 2 asks for it in
    shared mode and waits; the wait of transaction 2 returns and its call
    goes on from [ShareCheck]. *)
Definition sys_fresh : System := mkSys lm_fresh ∅.

Definition sys_writer : System := run sys_fresh [CallLockExclusive 1 r0].

Definition sys_writer_and_waiter : System :=
  run sys_fresh [CallLockExclusive 1 r0; CallLockShared 2 r0].

Definition sys_writer_and_reader : System :=
  run sys_fresh [CallLockExclusive 1 r0; CallLockShared 2 r0; CallLockShared 2 r0].

(** *** A schedule in which every wake-up follows a [notify_all]

    Transaction 1 takes [r0] in shared mode and then in exclusive mode (not
    by an upgrade); transaction 3 asks for it in shared mode and waits;
    transaction 1 calls [Unlock] once, which wakes transaction 3. *)
Definition sys_shared_1 : System := run sys_fresh [CallLockShared 1 r0].

Definition sys_both_modes_1 : System :=
  run sys_fresh [CallLockShared 1 r0; CallLockExclusive 1 r0].

Definition sys_both_modes_1_waiter_3 : System :=
  run sys_fresh [CallLockShared 1 r0; CallLockExclusive 1 r0; CallLockShared 3 r0].

Definition sys_unlocked_once : System :=
  run sys_fresh [CallLockShared 1 r0; CallLockExclusive 1 r0; CallLockShared 3 r0;
                 CallUnlock 1 r0].

Definition sys_unlocked_once_reader_3 : System :=
  run sys_fresh [CallLockShared 1 r0; CallLockExclusive 1 r0; CallLockShared 3 r0;
                 CallUnlock 1 r0; CallLockShared 3 r0].

End LockSched.

(** ** Executors *)

Module ExecProps.
Import LockMgr Executors.

(** C8 as the claim states it, for the work on one row: when the lock call
    of the executor is refused, the executor does not go on, so nothing more
    reaches the heap or the indexes and no row is handed on. *)
Definition refusal_stops_write (row_step : ExecState → ExecResult ExecState)
    (st : ExecState) : Prop :=
  ∀ st', row_step st = Done st' → log st' = log st.

Definition refusal_stops_scan
    (next : ExecState → ExecResult (ExecState * list (RID * Tuple) * option (Tuple * RID)))
    (st : ExecState) : Prop :=
  ∀ st' iter out, next st = Done (st', iter, out) → out = None.

(** *** A wounded transaction in front of the four executors *)

Definition r1 : RID := (0, 1).

(** Transaction 7 has been wounded: it is [ABORTED] and holds no lock. *)
Definition lm_wounded_7 : LockManager :=
  mkLM ∅ (list_to_map [(7, mkTxn ABORTED REPEATABLE_READ ∅ ∅)]).

Definition st_wounded_7 : ExecState :=
  mkExec lm_wounded_7 true (mkHeap [(r1, [10; 20])] 1%nat 2) [] [].

(** [SELECT *] without a predicate over a table of two columns. *)
Definition scan_all : SeqScanPlanNode :=
  mkSeqScanPlan [λ t, default 0 (t !! 0%nat); λ t, default 0 (t !! 1%nat)] None.

(** One index, on the first column. *)
Definition one_index : list IndexInfo := [mkIndexInfo 0 [0%nat]].

(** [SET col1 = col1 + 5] *)
Definition add_5 : gmap nat UpdateInfo := {[ 1%nat := mkUpdateInfo Add 5 ]}.

End ExecProps.

(** ** Lock manager: the two phases of a transaction *)

Module LockPhases.
Import LockMgr LockProps.

(** The three lock calls of the lock manager. *)
Inductive LockCall : Type := CallLockShared | CallLockExclusive | CallLockUpgrade.

Definition lock_call (c : LockCall) (lm : LockManager) (txn_id : Z) (rid : RID)
    : LockManager * Outcome :=
  match c with
  | CallLockShared => LockShared lm txn_id rid
  | CallLockExclusive => LockExclusive lm txn_id rid
  | CallLockUpgrade => LockUpgrade lm txn_id rid
  end.

(** [Unlock(txn, rid)] finds a lock of [txn] on [rid] that ends the growing
    phase: an exclusive lock, or a shared lock under [REPEATABLE_READ]. *)
Definition ends_growing (t : Transaction) (rid : RID) : Prop :=
  rid ∈ exclusive_lock_set_ t ∨
  (rid ∈ shared_lock_set_ t ∧ isolation_level_ t = REPEATABLE_READ).

(** Transaction 1 holds [r0] in exclusive mode. *)
Definition lm_writer_1 : LockManager := (LockExclusive lm_fresh 1 r0).1.

(** Transaction 2 runs under [READ_COMMITTED]; transaction 5 holds [r0] in
    shared mode. *)
Definition lm_read_committed_2 : LockManager :=
  mkLM {[ r0 := mkQueue [mkRequest 5 SHARED false] false ]}
       (list_to_map [(2, mkTxn GROWING READ_COMMITTED ∅ ∅); (5, reader_of r0)]).

End LockPhases.

(** ** Executors: the rows of a writing statement *)

Module WriteRounds.
Import LockMgr Executors.

(** The transaction holds no lock on [rid], and no request stands in the
    queue of [rid]. *)
Definition unlocked (st : ExecState) (txn : Z) (rid : RID) : Prop :=
  (rid ∉ shared_lock_set_ (txn_of st txn)) ∧ (rid ∉ exclusive_lock_set_ (txn_of st txn)) ∧
  request_queue_ (queue_of (lock_mgr st) rid) = [].

(** Transaction 4 runs under [READ_COMMITTED] over a table of two rows; no
    lock has been taken. *)
Definition st_read_committed_4 : ExecState :=
  mkExec (mkLM ∅ (list_to_map [(4, mkTxn GROWING READ_COMMITTED ∅ ∅)])) true
         (mkHeap [((0, 1), [10; 20]); ((0, 2), [30; 40])] 0%nat 3) [] [].

End WriteRounds.

(** ** LRU replacer: [buffer/lru_replacer.cpp] *)

Module LRU.

Definition INT32_MIN : Z := -2147483648.
Definition INT32_MAX : Z := 2147483647.

(** [list_] holds the frame ids, front first.  [map_] maps a frame id to the
    iterator of its node in [list_]; the only iterator ever stored under
    [frame_id] is [list_.begin()] right after [push_front(frame_id)], so the
    keys of the map are kept and an iterator is named by the frame id of its
    node. *)
Record LRUReplacer : Type := mkLRU {
  list_ : list Z;
  map_ : gset Z;
  max_size_ : nat
}.

(** [LRUReplacer(num_pages)] *)
Definition LRUReplacer_new (num_pages : nat) : LRUReplacer := mkLRU [] ∅ num_pages.

(** [list_.erase(map_[frame_id])]: the node that holds [frame_id] goes. *)
Fixpoint erase_node (l : list Z) (frame_id : Z) : list Z :=
  match l with
  | [] => []
  | x :: l' => if bool_decide (x = frame_id) then l' else x :: erase_node l' frame_id
  end.

(** [Victim(frame_id_t *frame_id)]; [frame_id] is the value the pointer
    holds at the call, [None] is [return false].  The [typeid] test compares
    the static type of [*frame_id] with itself and never holds. *)
Definition Victim (r : LRUReplacer) (frame_id : Z) : LRUReplacer * option Z :=
  match last (list_ r) with
  | None => (r, None)
  | Some back =>
    if (INT32_MIN >? frame_id) || (frame_id >? INT32_MAX) then (r, None)
    else (mkLRU (removelast (list_ r)) (map_ r ∖ {[back]}) (max_size_ r), Some back)
  end.

Definition Pin (r : LRUReplacer) (frame_id : Z) : LRUReplacer :=
  if bool_decide (frame_id ∉ map_ r) then r
  else mkLRU (erase_node (list_ r) frame_id) (map_ r ∖ {[frame_id]}) (max_size_ r).

Definition Unpin (r : LRUReplacer) (frame_id : Z) : LRUReplacer :=
  if bool_decide (frame_id ∈ map_ r) then r
  else if (max_size_ r <=? length (list_ r))%nat then r
  else mkLRU (frame_id :: list_ r) (map_ r ∪ {[frame_id]}) (max_size_ r).

Definition Size (r : LRUReplacer) : nat := length (list_ r).

(** *** Sequences of calls *)

Inductive Call : Type :=
  | CallVictim (frame_id : Z)
  | CallPin (frame_id : Z)
  | CallUnpin (frame_id : Z).

Definition call (r : LRUReplacer) (c : Call) : LRUReplacer :=
  match c with
  | CallVictim frame_id => (Victim r frame_id).1
  | CallPin frame_id => Pin r frame_id
  | CallUnpin frame_id => Unpin r frame_id
  end.

(** A value of type [frame_id_t]. *)
Definition is_frame_id (z : Z) : Prop := INT32_MIN ≤ z ≤ INT32_MAX.

(** What the replacer keeps: no frame is listed twice, the map has the
    frames of the list as its keys, and the list is no longer than
    [max_size_]. *)
Definition replacer_ok (r : LRUReplacer) : Prop :=
  NoDup (list_ r) ∧ (∀ f, f ∈ map_ r ↔ f ∈ list_ r) ∧ (length (list_ r) ≤ max_size_ r)%nat.

(** [n] calls of [Victim] in a row: the frames handed out (a failed call
    hands out nothing) and the replacer left. *)
Fixpoint victims (n : nat) (r : LRUReplacer) (frame_id : Z) : list Z * LRUReplacer :=
  match n with
  | O => ([], r)
  | S n' =>
    match Victim r frame_id with
    | (r', Some f) => let '(fs, r'') := victims n' r' frame_id in (f :: fs, r'')
    | (r', None) => victims n' r' frame_id
    end
  end.

(** The scenario of the replacer: capacity 4, frames 1 to 4 unpinned. *)
Definition lru_1234 : LRUReplacer := foldl Unpin (LRUReplacer_new 4) [1; 2; 3; 4].

End LRU.

(** ** Parallel buffer pool: [buffer/parallel_buffer_pool_manager.cpp] *)

Module ParallelPool.

(** The interface [BufferPoolManager] as the parallel manager uses it on its
    instances.  [I] is the state of an instance and [Page] what a [Page *]
    points to; [None] is the null pointer.  [bpm_NewPage] also gives the page
    id it writes through [page_id]. *)
Class BufferPoolManager (I Page : Type) : Type := {
  (* [new BufferPoolManagerInstance(pool_size, num_instances, instance_index, ...)] *)
  bpm_new : nat → nat → nat → I;
  bpm_GetPoolSize : I → nat;
  bpm_FetchPage : I → Z → I * option Page;
  bpm_UnpinPage : I → Z → bool → I * bool;
  bpm_FlushPage : I → Z → I * bool;
  bpm_NewPage : I → I * option (Page * Z);
  bpm_DeletePage : I → Z → I * bool;
  bpm_FlushAllPages : I → I
}.

Section Pool.
Context {I Page : Type} `{BPM : BufferPoolManager I Page}.

Record ParallelBufferPoolManager : Type := mkPBPM {
  buffer_pools_ : list I;
  num_instances_ : nat;
  pool_size_ : nat;
  start_index_ : Z
}.

(** [ParallelBufferPoolManager(num_instances, pool_size, ...)] *)
Definition ParallelBufferPoolManager_new (num_instances pool_size : nat)
    : ParallelBufferPoolManager :=
  mkPBPM (map (λ i, bpm_new pool_size num_instances i) (seq 0 num_instances))
         num_instances pool_size 0.

Definition with_pools (m : ParallelBufferPoolManager) (pools : list I)
    : ParallelBufferPoolManager :=
  mkPBPM pools (num_instances_ m) (pool_size_ m) (start_index_ m).

(** [buffer_pools_[i]]; there is no such element when [i] is out of
    bounds. *)
Definition pool_at (m : ParallelBufferPoolManager) (i : nat) : Result I :=
  match buffer_pools_ m !! i with
  | Some bpmi => Ok bpmi
  | None => Unmodelled
  end.

Fixpoint GetPoolSize_loop (m : ParallelBufferPoolManager) (range : list nat) (total : nat)
    : Result nat :=
  match range with
  | [] => Ok total
  | i :: rest =>
    let* bpmi := pool_at m i in
    GetPoolSize_loop m rest (total + bpm_GetPoolSize bpmi)%nat
  end.

Definition GetPoolSize (m : ParallelBufferPoolManager) : Result nat :=
  GetPoolSize_loop m (seq 0 (num_instances_ m)) 0%nat.

(** [page_id % num_instances_]: [page_id] is a signed 32-bit integer and
    [num_instances_] a [size_t], so [page_id] is converted to 64 unsigned bits
    first. *)
Definition instance_of (m : ParallelBufferPoolManager) (page_id : Z) : nat :=
  Z.to_nat ((page_id mod 2 ^ 64) mod Z.of_nat (num_instances_ m)).

Definition GetBufferPoolManager (m : ParallelBufferPoolManager) (page_id : Z) : Result I :=
  pool_at m (instance_of m page_id).

Definition FetchPgImp (m : ParallelBufferPoolManager) (page_id : Z)
    : Result (ParallelBufferPoolManager * option Page) :=
  let* bpmi := pool_at m (instance_of m page_id) in
  let '(bpmi, page) := bpm_FetchPage bpmi page_id in
  Ok (with_pools m (<[instance_of m page_id := bpmi]> (buffer_pools_ m)), page).

Definition UnpinPgImp (m : ParallelBufferPoolManager) (page_id : Z) (is_dirty : bool)
    : Result (ParallelBufferPoolManager * bool) :=
  let* bpmi := pool_at m (instance_of m page_id) in
  let '(bpmi, ok) := bpm_UnpinPage bpmi page_id is_dirty in
  Ok (with_pools m (<[instance_of m page_id := bpmi]> (buffer_pools_ m)), ok).

(** [FlushPgImp]; for [INVALID_PAGE_ID] it writes a debug line and goes
    on. *)
Definition FlushPgImp (m : ParallelBufferPoolManager) (page_id : Z)
    : Result (ParallelBufferPoolManager * bool) :=
  let* bpmi := pool_at m (instance_of m page_id) in
  let '(bpmi, ok) := bpm_FlushPage bpmi page_id in
  Ok (with_pools m (<[instance_of m page_id := bpmi]> (buffer_pools_ m)), ok).

Definition DeletePgImp (m : ParallelBufferPoolManager) (page_id : Z)
    : Result (ParallelBufferPoolManager * bool) :=
  let* bpmi := pool_at m (instance_of m page_id) in
  let '(bpmi, ok) := bpm_DeletePage bpmi page_id in
  Ok (with_pools m (<[instance_of m page_id := bpmi]> (buffer_pools_ m)), ok).

(** The [while (true)] loop of [NewPgImp], for at most [fuel] rounds. *)
Fixpoint NewPg_loop (fuel : nat) (m : ParallelBufferPoolManager) (idx start : nat)
    : Result (ParallelBufferPoolManager * option (Page * Z)) :=
  match fuel with
  | O => OutOfFuel
  | S fuel' =>
    let* bpmi := pool_at m idx in
    let '(bpmi, result) := bpm_NewPage bpmi in
    let m := with_pools m (<[idx := bpmi]> (buffer_pools_ m)) in
    match result with
    | Some page => Ok (m, Some page)
    | None =>
      let idx := ((idx + 1) mod num_instances_ m)%nat in
      if (idx =? start)%nat then Ok (m, None) else NewPg_loop fuel' m idx start
    end
  end.

(** [NewPgImp]; [start_index_] is a [size_t] and wraps around. *)
Definition NewPgImp (m : ParallelBufferPoolManager)
    : Result (ParallelBufferPoolManager * option (Page * Z)) :=
  let start := Z.to_nat (start_index_ m mod Z.of_nat (num_instances_ m)) in
  let m := mkPBPM (buffer_pools_ m) (num_instances_ m) (pool_size_ m)
                  ((start_index_ m + 1) mod 2 ^ 64) in
  NewPg_loop (num_instances_ m) m start start.

Fixpoint FlushAll_loop (m : ParallelBufferPoolManager) (range : list nat)
    : Result ParallelBufferPoolManager :=
  match range with
  | [] => Ok m
  | i :: rest =>
    let* bpmi := pool_at m i in
    FlushAll_loop (with_pools m (<[i := bpm_FlushAllPages bpmi]> (buffer_pools_ m))) rest
  end.

Definition FlushAllPgsImp (m : ParallelBufferPoolManager) : Result ParallelBufferPoolManager :=
  FlushAll_loop m (seq 0 (num_instances_ m)).

(** *** What the theorems are stated with *)

(** The manager as its constructor leaves it and every call keeps it. *)
Definition pools_ok (m : ParallelBufferPoolManager) : Prop :=
  length (buffer_pools_ m) = num_instances_ m ∧ (0 < num_instances_ m)%nat ∧
  0 ≤ start_index_ m < 2 ^ 64.

(** The instances in the order of a full turn that begins at [start]. *)
Definition turn (m : ParallelBufferPoolManager) (start : nat) : list nat :=
  map (λ k, ((start + k) mod num_instances_ m)%nat) (seq 0 (num_instances_ m)).

(** [NewPage] on the instances of [order], one after the other, up to the
    first that has a page. *)
Fixpoint probe (order : list nat) (pools : list I) : list I * option (Page * Z) :=
  match order with
  | [] => (pools, None)
  | i :: rest =>
    match pools !! i with
    | None => (pools, None)
    | Some bpmi =>
      let '(bpmi, result) := bpm_NewPage bpmi in
      match result with
      | Some page => (<[i := bpmi]> pools, Some page)
      | None => probe rest (<[i := bpmi]> pools)
      end
    end
  end.

End Pool.

(** *** A stand-in instance for the examples

    It hands out [stub_free] pages, with the ids [index], [index + count],
    [index + 2 * count], ..., and has none after that; nothing else is kept. *)
Record Stub : Type := mkStub {
  stub_index : nat;
  stub_count : nat;
  stub_next : Z;
  stub_free : nat
}.

Definition Stub_NewPage (s : Stub) : Stub * option (unit * Z) :=
  match stub_free s with
  | O => (s, None)
  | S n => (mkStub (stub_index s) (stub_count s) (stub_next s + Z.of_nat (stub_count s)) n,
            Some (tt, stub_next s))
  end.

Global Instance Stub_BufferPoolManager : BufferPoolManager Stub unit := {
  bpm_new pool_size num_instances instance_index :=
    mkStub instance_index num_instances (Z.of_nat instance_index) pool_size;
  bpm_GetPoolSize s := stub_free s;
  bpm_FetchPage s page_id := (s, None);
  bpm_UnpinPage s page_id is_dirty := (s, false);
  bpm_FlushPage s page_id := (s, false);
  bpm_NewPage := Stub_NewPage;
  bpm_DeletePage s page_id := (s, true);
  bpm_FlushAllPages s := s
}.

(** Three instances; the first has no page left. *)
Definition three_pools : @ParallelBufferPoolManager Stub :=
  mkPBPM [mkStub 0 3 0 0; mkStub 1 3 1 2; mkStub 2 3 2 2] 3 2 0.

End ParallelPool.

(** ** Row matrix: [include/primer/p0_starter.h] *)

Module Primer.

(** How a member function ends: with a value, with
    [Exception(ExceptionType::OUT_OF_RANGE, ...)], or in a call through a null
    pointer. *)
Inductive Outcome (A : Type) : Type :=
  | Returns (a : A)
  | OUT_OF_RANGE
  | NullDereference.
Arguments Returns {A} a.
Arguments OUT_OF_RANGE {A}.
Arguments NullDereference {A}.

Definition obind {A B} (r : Outcome A) (k : A → Outcome B) : Outcome B :=
  match r with
  | Returns a => k a
  | OUT_OF_RANGE => OUT_OF_RANGE
  | NullDereference => NullDereference
  end.

Notation "'try*' x ':=' c 'in' k" := (obind c (fun x => k))
  (at level 10, x pattern, c at level 100, k at level 200).

(** [for (int i = 0; i < n; ++i) body], with [n] given as the list of the
    values [i] takes. *)
Fixpoint for_each {S : Type} (range : list nat) (body : nat → S → Outcome S) (s : S)
    : Outcome S :=
  match range with
  | [] => Returns s
  | i :: rest => try* s := body i s in for_each rest body s
  end.

(** The values of [i] in [for (int i = 0; i < n; ++i)]. *)
Definition upto (n : Z) : list nat := seq 0 (Z.to_nat n).

(** [static_cast<int>(source.size())] *)
Definition to_int (z : Z) : Z := (z + 2 ^ 31) mod 2 ^ 32 - 2 ^ 31.

Section Matrix.
(** The element type [T] with [T(0)], [operator+] and [operator*]. *)
Context {T : Type}.
Variable zero : T.
Variable add : T → T → T.
Variable mul : T → T → T.

(** [linear_] is the flattened array [new T[rows * cols]]; the row pointers
    are [data_[i] = &linear_[cols * i]], so [data_[i][j]] is
    [linear_[cols * i + j]]. *)
Record RowMatrix : Type := mkMatrix {
  rows_ : Z;
  cols_ : Z;
  linear_ : list T
}.

(** [RowMatrix(rows, cols)]; [uninit] is what the fresh array happens to
    hold, [new T[n]] does not initialise it.  The size [rows * cols] is a
    product of [int]: the definition gives the array for counts whose product
    is a value of [int], below [2 ^ 31]; a larger product overflows in the
    source and is outside the model.  [Add] and [GEMM] allocate the size of a
    matrix they were given; the theorem on [Multiply] assumes the bound. *)
Definition RowMatrix_new (rows cols : Z) (uninit : nat → T) : RowMatrix :=
  mkMatrix rows cols (map uninit (seq 0 (Z.to_nat (rows * cols)))).

Definition GetRowCount (m : RowMatrix) : Z := rows_ m.
Definition GetColumnCount (m : RowMatrix) : Z := cols_ m.

(** The place of [data_[i][j]] in [linear_]. *)
Definition cell (m : RowMatrix) (i j : Z) : nat := Z.to_nat (cols_ m * i + j).

Definition GetElement (m : RowMatrix) (i j : Z) : Outcome T :=
  if (i <? 0) || (i >=? rows_ m) then OUT_OF_RANGE
  else if (j <? 0) || (j >=? cols_ m) then OUT_OF_RANGE
  else Returns (default zero (linear_ m !! cell m i j)).

Definition SetElement (m : RowMatrix) (i j : Z) (val : T) : Outcome RowMatrix :=
  if (i <? 0) || (i >=? rows_ m) then OUT_OF_RANGE
  else if (j <? 0) || (j >=? cols_ m) then OUT_OF_RANGE
  else Returns (mkMatrix (rows_ m) (cols_ m) (<[cell m i j := val]> (linear_ m))).

(** [data_[i][j] = val], without a check. *)
Definition store (m : RowMatrix) (i j : Z) (val : T) : RowMatrix :=
  mkMatrix (rows_ m) (cols_ m) (<[cell m i j := val]> (linear_ m)).

Definition FillFrom (m : RowMatrix) (source : list T) : Outcome RowMatrix :=
  if negb (to_int (Z.of_nat (length source)) =? GetRowCount m * GetColumnCount m)
  then OUT_OF_RANGE
  else
    for_each (upto (rows_ m))
      (λ i, for_each (upto (cols_ m))
         (λ j m,
            let i := Z.of_nat i in
            let j := Z.of_nat j in
            Returns (store m i j (default zero (source !! Z.to_nat (i * cols_ m + j))))))
      m.

(** [RowMatrixOperations<T>::Add]; [None] is the null pointer. *)
Definition Add (matrixA matrixB : RowMatrix) (uninit : nat → T) : Outcome (option RowMatrix) :=
  if negb (GetRowCount matrixA =? GetRowCount matrixB)
     || negb (GetColumnCount matrixA =? GetColumnCount matrixB)
  then Returns None
  else
    let ans := RowMatrix_new (GetRowCount matrixA) (GetColumnCount matrixA) uninit in
    try* ans :=
      for_each (upto (GetRowCount matrixA))
        (λ i, for_each (upto (GetColumnCount matrixA))
           (λ j ans,
              let i := Z.of_nat i in
              let j := Z.of_nat j in
              try* a := GetElement matrixA i j in
              try* b := GetElement matrixB i j in
              SetElement ans i j (add a b)))
        ans in
    Returns (Some ans).

(** The innermost loop of [Multiply]: [ele += A(i, k) * B(k, j)]. *)
Definition Multiply_cell (matrixA matrixB : RowMatrix) (i j : Z) : Outcome T :=
  for_each (upto (GetColumnCount matrixA))
    (λ k ele,
       let k := Z.of_nat k in
       try* a := GetElement matrixA i k in
       try* b := GetElement matrixB k j in
       Returns (add ele (mul a b)))
    zero.

(** [RowMatrixOperations<T>::Multiply] *)
Definition Multiply (matrixA matrixB : RowMatrix) (uninit : nat → T)
    : Outcome (option RowMatrix) :=
  if negb (GetColumnCount matrixA =? GetRowCount matrixB)
  then Returns None
  else
    let ans := RowMatrix_new (GetRowCount matrixA) (GetColumnCount matrixB) uninit in
    try* ans :=
      for_each (upto (GetRowCount matrixA))
        (λ i, for_each (upto (GetColumnCount matrixB))
           (λ j ans,
              let i := Z.of_nat i in
              let j := Z.of_nat j in
              try* ele := Multiply_cell matrixA matrixB i j in
              SetElement ans i j ele))
        ans in
    Returns (Some ans).

(** [RowMatrixOperations<T>::GEMM]: [Add(Multiply(A, B).get(), C)]; the
    two results are allocated one after the other. *)
Definition GEMM (matrixA matrixB matrixC : RowMatrix) (uninit uninit' : nat → T)
    : Outcome (option RowMatrix) :=
  let ar := GetRowCount matrixA in
  let br := GetRowCount matrixB in
  let cr := GetRowCount matrixC in
  let ac := GetColumnCount matrixA in
  let bc := GetColumnCount matrixB in
  let cc := GetColumnCount matrixC in
  if negb (ac =? br) || (negb (cr =? ar) || negb (cc =? bc))
  then Returns None
  else
    try* product := Multiply matrixA matrixB uninit in
    match product with
    | None => NullDereference
    | Some product => Add product matrixC uninit'
    end.

(** *** What the theorems are stated with *)

(** A matrix as a constructor leaves it: the array has [rows * cols]
    elements, and both counts are those of an array that can be allocated. *)
Definition matrix_ok (m : RowMatrix) : Prop :=
  0 ≤ rows_ m ∧ 0 ≤ cols_ m ∧ Z.of_nat (length (linear_ m)) = rows_ m * cols_ m.

Definition in_range (m : RowMatrix) (i j : Z) : Prop :=
  (0 ≤ i < rows_ m) ∧ (0 ≤ j < cols_ m).

(** The sum [ele] of the products [A(i, k) * B(k, j)], added up from
    [T(0)] for [k = 0, 1, ...]. *)
Definition dot (a b : Z → Z → T) (n : Z) (i j : Z) : T :=
  foldl (λ ele k, add ele (mul (a i (Z.of_nat k)) (b (Z.of_nat k) j))) zero (upto n).

(** The state of a matrix in the middle of the two nested loops that fill it
    with [g]: the rows before [i] and the columns before [j] of row [i] are
    done. *)
Definition filled (R C : nat) (g : nat → nat → T) (i j : nat) (m : RowMatrix) : Prop :=
  rows_ m = Z.of_nat R ∧ cols_ m = Z.of_nat C ∧ length (linear_ m) = (R * C)%nat ∧
  ∀ i' j', (j' < C)%nat → (i' < i ∨ (i' = i ∧ j' < j))%nat →
           linear_ m !! (C * i' + j')%nat = Some (g i' j').

(** The element [(i, j)] of a matrix, for indexes in range. *)
Definition at_ (m : RowMatrix) (i j : Z) : T := default zero (linear_ m !! cell m i j).

End Matrix.

(** Matrices of integers for the examples: [[1 2] [3 4]] and [[5 6] [7 8]]. *)
Definition m_1234 : @RowMatrix Z := mkMatrix 2 2 [1; 2; 3; 4].
Definition m_5678 : @RowMatrix Z := mkMatrix 2 2 [5; 6; 7; 8].

End Primer.

(** ** Hash join: [execution/hash_join_executor.cpp] *)

Module HashJoin.
Import LockMgr Executors.

(** Modelled from the spec: the plan gives the two join key expressions and
    the output columns, each a "join evaluate" against a left and a right
    tuple.  Values are integers, and a [HashJoinKey] is the value of the key
    expression: equal values are equal keys. *)
Record HashJoinPlanNode : Type := mkHashJoinPlan {
  LeftJoinKeyExpression : Tuple → Z;
  RightJoinKeyExpression : Tuple → Z;
  OutputColumns : list (Tuple → Tuple → Z)
}.

(** The members [map_], [result_] and [now_id_]. *)
Record HashJoinExecutor : Type := mkHashJoin {
  map_ : gmap Z (list Tuple);
  result_ : list Tuple;
  now_id_ : nat
}.

(** The executor as the constructor leaves it. *)
Definition HashJoinExecutor_new : HashJoinExecutor := mkHashJoin ∅ [] 0.

(** The body of the first loop of [Init]. *)
Definition build_row (plan : HashJoinPlanNode) (map : gmap Z (list Tuple)) (left_tuple : Tuple)
    : gmap Z (list Tuple) :=
  let dis_key := LeftJoinKeyExpression plan left_tuple in
  match map !! dis_key with
  | Some tuples => <[dis_key := tuples ++ [left_tuple]]> map
  | None => <[dis_key := [left_tuple]]> map
  end.

(** The tuple made of the output columns for a pair of tuples. *)
Definition join_output (plan : HashJoinPlanNode) (cur_left_tuple right_tuple : Tuple) : Tuple :=
  map (λ col, col cur_left_tuple right_tuple) (OutputColumns plan).

(** The body of the second loop of [Init]. *)
Definition probe_row (plan : HashJoinPlanNode) (map : gmap Z (list Tuple))
    (result : list Tuple) (right_tuple : Tuple) : list Tuple :=
  let dis_key := RightJoinKeyExpression plan right_tuple in
  match map !! dis_key with
  | Some tuples =>
    foldl (λ result cur_left_tuple, result ++ [join_output plan cur_left_tuple right_tuple])
          result tuples
  | None => result
  end.

(** [while (left_child_executor_->Next(&left_tuple, &left_rid))]: at most
    [fuel] calls of the child. *)
Fixpoint build_loop {C : Type} (plan : HashJoinPlanNode) (left_Next : Child C) (fuel : nat)
    (c : C) (st : ExecState) (map : gmap Z (list Tuple))
    : ExecResult (ExecState * gmap Z (list Tuple)) :=
  match fuel with
  | O => NoFuel
  | S fuel' =>
    do* (st, c, next) := left_Next c st in
    match next with
    | None => Done (st, map)
    | Some (left_tuple, _) => build_loop plan left_Next fuel' c st (build_row plan map left_tuple)
    end
  end.

(** [while (right_child_executor_->Next(&right_tuple, &right_rid))] *)
Fixpoint probe_loop {C : Type} (plan : HashJoinPlanNode) (right_Next : Child C) (fuel : nat)
    (c : C) (st : ExecState) (map : gmap Z (list Tuple)) (result : list Tuple)
    : ExecResult (ExecState * list Tuple) :=
  match fuel with
  | O => NoFuel
  | S fuel' =>
    do* (st, c, next) := right_Next c st in
    match next with
    | None => Done (st, result)
    | Some (right_tuple, _) =>
      probe_loop plan right_Next fuel' c st map (probe_row plan map result right_tuple)
    end
  end.

(** [HashJoinExecutor::Init]; [cl] and [cr] are the two children after
    their own [Init]. *)
Definition Init {CL CR : Type} (plan : HashJoinPlanNode) (left_Next : Child CL)
    (right_Next : Child CR) (fuel : nat) (cl : CL) (cr : CR) (st : ExecState)
    (e : HashJoinExecutor) : ExecResult (ExecState * HashJoinExecutor) :=
  do* (st, map) := build_loop plan left_Next fuel cl st (map_ e) in
  do* (st, result) := probe_loop plan right_Next fuel cr st map (result_ e) in
  Done (st, mkHashJoin map result (now_id_ e)).

(** [HashJoinExecutor::Next]; the rid handed out is the one the tuple
    carries, which the tuples of this development do not have. *)
Definition Next (e : HashJoinExecutor) : HashJoinExecutor * option Tuple :=
  if (now_id_ e <? length (result_ e))%nat then
    (mkHashJoin (map_ e) (result_ e) (S (now_id_ e)), result_ e !! now_id_ e)
  else (e, None).

(** *** What the theorems are stated with *)

(** A child that hands out the rows of a list, one at each call. *)
Definition rows_child : Child (list (Tuple * RID)) :=
  λ c st,
    match c with
    | [] => Done (st, [], None)
    | row :: c' => Done (st, c', Some row)
    end.

(** The join as two nested loops: for every right tuple in turn, the left
    tuples with the same key in their order. *)
Definition nested_loop_join (plan : HashJoinPlanNode) (lefts rights : list Tuple) : list Tuple :=
  rights ≫= λ right_tuple,
    map (λ left_tuple, join_output plan left_tuple right_tuple)
        (filter (λ left_tuple, LeftJoinKeyExpression plan left_tuple
                               = RightJoinKeyExpression plan right_tuple) lefts).

(** What the hash table holds under a key once the tuples [lefts] are in. *)
Definition bucket_of_key (plan : HashJoinPlanNode) (lefts : list Tuple) (key : Z)
    : option (list Tuple) :=
  match filter (λ t, LeftJoinKeyExpression plan t = key) lefts with
  | [] => None
  | tuples => Some tuples
  end.

(** [n] calls of [Next] in a row: the tuples handed out, up to the first
    call that returns false. *)
Fixpoint pull (n : nat) (e : HashJoinExecutor) : list Tuple * HashJoinExecutor :=
  match n with
  | O => ([], e)
  | S n' =>
    match Next e with
    | (e', Some tuple) => let '(tuples, e'') := pull n' e' in (tuple :: tuples, e'')
    | (e', None) => ([], e')
    end
  end.

(** The join of the scenario: left rows [(1, 10)], [(2, 20)], [(1, 30)],
    right rows [(1, 7)], [(3, 8)], joined on the first column; the output has
    the second column of each side. *)
Definition join_plan : HashJoinPlanNode :=
  mkHashJoinPlan (λ t, default 0 (t !! 0%nat)) (λ t, default 0 (t !! 0%nat))
                 [λ l _, default 0 (l !! 1%nat); λ _ r, default 0 (r !! 1%nat)].
Definition join_lefts : list (Tuple * RID) := [([1; 10], (0, 0)); ([2; 20], (0, 1)); ([1; 30], (0, 2))].
Definition join_rights : list (Tuple * RID) := [([1; 7], (1, 0)); ([3; 8], (1, 1))].
Definition join_state : ExecState := mkExec (mkLM ∅ ∅) false (mkHeap [] 0%nat 0) [] [].

End HashJoin.

(** * Theorems *)

(** ** Bucket page *)

Module BucketFacts.
Import BucketPage BucketProps.

(** *** Bits of a byte *)

Lemma land_bit (c k : Z) : 0 ≤ k → (0 <? Z.land c (Z.shiftl 1 k)) = Z.testbit c k.
Proof.
  intros Hk. rewrite Z.shiftl_1_l.
  assert (Hl : Z.land c (2 ^ k) = if Z.testbit c k then 2 ^ k else 0).
  { apply Z.bits_inj'. intros n Hn. rewrite Z.land_spec, Z.pow2_bits_eqb by done.
    destruct (Z.eqb_spec k n) as [->|Hne].
    - destruct (Z.testbit c n); [by rewrite Z.pow2_bits_true|by rewrite Z.bits_0].
    - rewrite andb_false_r. destruct (Z.testbit c k).
      + by rewrite Z.pow2_bits_false.
      + by rewrite Z.bits_0. }
  rewrite Hl. destruct (Z.testbit c k).
  - apply Z.ltb_lt. by apply Z.pow_pos_nonneg.
  - done.
Qed.

Lemma shr_bit (c k : Z) : 0 ≤ k → (Z.land (Z.shiftr c k) 1 =? 1) = Z.testbit c k.
Proof.
  intros Hk. rewrite (Z.testbit_odd c k).
  change 1 with (Z.ones 1) at 1. rewrite Z.land_ones by lia.
  change (2 ^ 1) with 2. rewrite Zmod_odd.
  by destruct (Z.odd (Z.shiftr c k)).
Qed.

Lemma set_bit_spec (c k j : Z) :
  0 ≤ k → 0 ≤ j < 8 →
  Z.testbit (to_uint8 (Z.lor c (Z.shiftl 1 k))) j = Z.testbit c j || (k =? j).
Proof.
  intros Hk Hj. unfold to_uint8. change 256 with (2 ^ 8).
  rewrite Z.mod_pow2_bits_low by lia.
  by rewrite Z.lor_spec, Z.shiftl_1_l, Z.pow2_bits_eqb.
Qed.

Lemma clear_bit_spec (c k j : Z) :
  0 ≤ k → 0 ≤ j < 8 →
  Z.testbit (to_uint8 (Z.land c (Z.lnot (Z.shiftl 1 k)))) j = Z.testbit c j && negb (k =? j).
Proof.
  intros Hk Hj. unfold to_uint8. change 256 with (2 ^ 8).
  rewrite Z.mod_pow2_bits_low by lia.
  rewrite Z.land_spec, Z.lnot_spec by lia.
  by rewrite Z.shiftl_1_l, Z.pow2_bits_eqb.
Qed.

(** *** Bytes of a bitmap *)

Lemma byte_at_insert (l : list Z) (n m : nat) (v : Z) :
  (n < length l)%nat →
  byte_at (<[n := v]> l) m = if decide (n = m) then v else byte_at l m.
Proof.
  intros Hn. unfold byte_at. destruct (decide (n = m)) as [->|Hne].
  - by rewrite list_lookup_insert_eq.
  - by rewrite list_lookup_insert_ne.
Qed.

Lemma num_index_lt (N i : nat) : (i < N)%nat → (num_index i < bitmap_bytes N)%nat.
Proof.
  intros Hi. unfold num_index, bitmap_bytes.
  assert ((i / 8 ≤ (N - 1) / 8)%nat) by (apply Nat.Div0.div_le_mono; lia). lia.
Qed.

Lemma bit_index_range (i : nat) : 0 ≤ bit_index i < 8.
Proof.
  unfold bit_index. pose proof (Nat.mod_upper_bound i 8). lia.
Qed.

Lemma slot_eq (i j : nat) :
  num_index i = num_index j → bit_index i = bit_index j → i = j.
Proof.
  unfold num_index, bit_index. intros Hq Hr.
  rewrite (Nat.div_mod_eq i 8), (Nat.div_mod_eq j 8). lia.
Qed.

Lemma same_slot (i j : nat) :
  bool_decide (i = j) =
  bool_decide (num_index i = num_index j) && (bit_index i =? bit_index j).
Proof.
  destruct (decide (i = j)) as [->|Hne].
  - rewrite !bool_decide_eq_true_2 by done. by rewrite Z.eqb_refl.
  - rewrite (bool_decide_eq_false_2 (i = j)) by done.
    destruct (decide (num_index i = num_index j)) as [Hq|Hq].
    + rewrite bool_decide_eq_true_2 by done. simpl. symmetry. apply Z.eqb_neq.
      intros Hr. by apply Hne, slot_eq.
    + by rewrite bool_decide_eq_false_2.
Qed.

Section Facts.
Context {KeyType ValueType : Type}.
Context `{ValEq : EqDecision ValueType}.
Variable cmp : KeyType → KeyType → Z.
Variable BUCKET_ARRAY_SIZE : nat.
Variable zero_entry : KeyType * ValueType.

Abbreviation Bucket := (@HashTableBucketPage KeyType ValueType).
Abbreviation wf := (@wf_bucket KeyType ValueType BUCKET_ARRAY_SIZE).
Abbreviation consistent := (@bitmaps_consistent KeyType ValueType BUCKET_ARRAY_SIZE).

(** *** What each bit operation does to the two bitmaps *)

Lemma IsReadable_testbit (b : Bucket) (i : nat) :
  IsReadable b i = Z.testbit (byte_at (readable_ b) (num_index i)) (bit_index i).
Proof. unfold IsReadable. apply land_bit, bit_index_range. Qed.

Lemma IsOccupied_testbit (b : Bucket) (i : nat) :
  IsOccupied b i = Z.testbit (byte_at (occupied_ b) (num_index i)) (bit_index i).
Proof. unfold IsOccupied. apply shr_bit, bit_index_range. Qed.

Lemma IsReadable_SetReadable (b : Bucket) (i j : nat) :
  wf b → (i < BUCKET_ARRAY_SIZE)%nat →
  IsReadable (SetReadable b i) j = IsReadable b j || bool_decide (i = j).
Proof.
  intros (_ & Hr & _) Hi. rewrite !IsReadable_testbit. simpl.
  rewrite byte_at_insert by (rewrite Hr; by apply num_index_lt).
  rewrite same_slot. destruct (decide (num_index i = num_index j)) as [Hq|Hq].
  - rewrite bool_decide_eq_true_2 by done. simpl.
    rewrite set_bit_spec by apply bit_index_range. by rewrite Hq.
  - rewrite bool_decide_eq_false_2 by done. simpl. by rewrite orb_false_r.
Qed.

Lemma IsOccupied_SetOccupied (b : Bucket) (i j : nat) :
  wf b → (i < BUCKET_ARRAY_SIZE)%nat →
  IsOccupied (SetOccupied b i) j = IsOccupied b j || bool_decide (i = j).
Proof.
  intros (Ho & _ & _) Hi. rewrite !IsOccupied_testbit. simpl.
  rewrite byte_at_insert by (rewrite Ho; by apply num_index_lt).
  rewrite same_slot. destruct (decide (num_index i = num_index j)) as [Hq|Hq].
  - rewrite bool_decide_eq_true_2 by done. simpl.
    rewrite set_bit_spec by apply bit_index_range. by rewrite Hq.
  - rewrite bool_decide_eq_false_2 by done. simpl. by rewrite orb_false_r.
Qed.

Lemma IsReadable_RemoveAt (b : Bucket) (i j : nat) :
  wf b → (i < BUCKET_ARRAY_SIZE)%nat →
  IsReadable (RemoveAt b i) j = IsReadable b j && negb (bool_decide (i = j)).
Proof.
  intros (_ & Hr & _) Hi. rewrite !IsReadable_testbit. simpl.
  rewrite byte_at_insert by (rewrite Hr; by apply num_index_lt).
  rewrite same_slot. destruct (decide (num_index i = num_index j)) as [Hq|Hq].
  - rewrite bool_decide_eq_true_2 by done. simpl.
    rewrite clear_bit_spec by apply bit_index_range. by rewrite Hq.
  - rewrite bool_decide_eq_false_2 by done. simpl. by rewrite andb_true_r.
Qed.

Lemma wf_SetReadable (b : Bucket) (i : nat) : wf b → wf (SetReadable b i).
Proof. intros (? & ? & ?). repeat split; simpl; by rewrite ?length_insert. Qed.

Lemma wf_SetOccupied (b : Bucket) (i : nat) : wf b → wf (SetOccupied b i).
Proof. intros (? & ? & ?). repeat split; simpl; by rewrite ?length_insert. Qed.

Lemma wf_RemoveAt (b : Bucket) (i : nat) : wf b → wf (RemoveAt b i).
Proof. intros (? & ? & ?). repeat split; simpl; by rewrite ?length_insert. Qed.

Lemma wf_Reset (b : Bucket) : wf b → wf (Reset zero_entry b).
Proof. intros (? & ? & ?). repeat split; simpl; by rewrite length_replicate. Qed.

Lemma wf_zero_bucket : wf (zero_bucket BUCKET_ARRAY_SIZE zero_entry).
Proof. repeat split; simpl; by rewrite length_replicate. Qed.

Lemma byte_at_replicate (n m : nat) : byte_at (replicate n 0) m = 0.
Proof.
  unfold byte_at. destruct (replicate n 0 !! m) as [z|] eqn:E; [|done].
  apply lookup_replicate in E as [-> _]. done.
Qed.

Lemma IsOccupied_Reset (b : Bucket) (i : nat) : IsOccupied (Reset zero_entry b) i = false.
Proof. rewrite IsOccupied_testbit. simpl. by rewrite byte_at_replicate, Z.bits_0. Qed.

Lemma IsReadable_Reset (b : Bucket) (i : nat) : IsReadable (Reset zero_entry b) i = false.
Proof. rewrite IsReadable_testbit. simpl. by rewrite byte_at_replicate, Z.bits_0. Qed.

Lemma IsReadable_zero_bucket (i : nat) :
  IsReadable (zero_bucket BUCKET_ARRAY_SIZE zero_entry) i = false.
Proof. rewrite IsReadable_testbit. simpl. by rewrite byte_at_replicate, Z.bits_0. Qed.

(** *** The slot [Insert] picks and the slot [Remove] clears *)

Lemma Insert_scan_range (n i : nat) (b : Bucket) (key : KeyType) (value : ValueType)
    (av : option nat) (a : nat) :
  Insert_scan cmp zero_entry n i b key value av = Some (Some a) →
  av = Some a ∨ (i ≤ a < i + n)%nat.
Proof.
  revert i av. induction n as [|n IH]; intros i av; simpl.
  - intros [= ->]. by left.
  - destruct (IsReadable b i).
    + destruct (_ && _); [done|]. intros H. apply IH in H as [H|H]; [by left|right; lia].
    + destruct av as [a'|]; intros H; apply IH in H as [H|H]; try (right; lia).
      * by left.
      * injection H as ->. right. lia.
Qed.

Lemma Insert_cases (b : Bucket) (key : KeyType) (value : ValueType) :
  Insert cmp BUCKET_ARRAY_SIZE zero_entry b key value = (b, false) ∨
  ∃ a : nat, (a < BUCKET_ARRAY_SIZE)%nat ∧
    Insert cmp BUCKET_ARRAY_SIZE zero_entry b key value =
      (SetReadable (SetOccupied (mkBucket (occupied_ b) (readable_ b)
                                   (<[a := (key, value)]> (array_ b))) a) a, true).
Proof.
  unfold Insert.
  destruct (Insert_scan _ _ _ _ _ _ _ _) as [[a|]|] eqn:E; [|by left..].
  right. exists a. split; [|done].
  apply Insert_scan_range in E as [E|E]; [done|lia].
Qed.

Lemma Remove_loop_cases (n i : nat) (b : Bucket) (key : KeyType) (value : ValueType) :
  Remove_loop cmp zero_entry n i b key value = (b, false) ∨
  ∃ a : nat, (i ≤ a < i + n)%nat ∧ IsReadable b a = true ∧
    Remove_loop cmp zero_entry n i b key value = (RemoveAt b a, true).
Proof.
  revert i. induction n as [|n IH]; intros i; simpl; [by left|].
  destruct (IsReadable b i) eqn:Hr; simpl.
  - destruct (_ && _).
    + right. exists i. repeat split; [lia..|done].
    + destruct (IH (S i)) as [H|(a & Ha & Hra & H)]; [by left|].
      right. exists a. repeat split; [lia..|done|done].
  - destruct (IH (S i)) as [H|(a & Ha & Hra & H)]; [by left|].
    right. exists a. repeat split; [lia..|done|done].
Qed.

(** *** Each operation keeps [readable ⇒ occupied] *)

Lemma consistent_zero_bucket : consistent (zero_bucket BUCKET_ARRAY_SIZE zero_entry).
Proof. intros i _. by rewrite IsReadable_zero_bucket. Qed.

Lemma consistent_Reset (b : Bucket) : consistent (Reset zero_entry b).
Proof. intros i _. by rewrite IsReadable_Reset. Qed.

Lemma consistent_RemoveAt (b : Bucket) (j : nat) :
  wf b → (j < BUCKET_ARRAY_SIZE)%nat → consistent b → consistent (RemoveAt b j).
Proof.
  intros Hwf Hj Hc i Hi. rewrite IsReadable_RemoveAt by done.
  intros [Hr _]%andb_true_iff. by apply Hc.
Qed.

Lemma Insert_bitmaps (b : Bucket) (key : KeyType) (value : ValueType) :
  wf b → consistent b →
  let b' := (Insert cmp BUCKET_ARRAY_SIZE zero_entry b key value).1 in
  wf b' ∧ consistent b' ∧ keeps_occupied BUCKET_ARRAY_SIZE b b'.
Proof.
  intros Hwf Hc b'. subst b'.
  destruct (Insert_cases b key value) as [->|(a & Ha & ->)]; simpl.
  { split; [done|]. split; [done|]. by intros i _ Ho. }
  set (b1 := mkBucket (occupied_ b) (readable_ b) (<[a:=(key, value)]> (array_ b))).
  assert (Hwf1 : wf b1).
  { destruct Hwf as (? & ? & ?). repeat split; simpl; by rewrite ?length_insert. }
  assert (Hwf2 : wf (SetOccupied b1 a)) by by apply wf_SetOccupied.
  split; [by apply wf_SetReadable|]. split.
  - intros i Hi. rewrite IsReadable_SetReadable by done.
    change (IsOccupied (SetReadable (SetOccupied b1 a) a) i)
      with (IsOccupied (SetOccupied b1 a) i).
    rewrite IsOccupied_SetOccupied by done.
    change (IsReadable (SetOccupied b1 a) i) with (IsReadable b i).
    change (IsOccupied b1 i) with (IsOccupied b i).
    intros [Hr|He]%orb_true_iff; apply orb_true_iff; [left; by apply Hc|by right].
  - intros i Hi Ho.
    change (IsOccupied (SetReadable (SetOccupied b1 a) a) i)
      with (IsOccupied (SetOccupied b1 a) i).
    rewrite IsOccupied_SetOccupied by done.
    change (IsOccupied b1 i) with (IsOccupied b i). by rewrite Ho.
Qed.

Lemma Remove_bitmaps (b : Bucket) (key : KeyType) (value : ValueType) :
  wf b → consistent b →
  let b' := (Remove cmp BUCKET_ARRAY_SIZE zero_entry b key value).1 in
  wf b' ∧ consistent b' ∧ occupied_ b' = occupied_ b ∧ array_ b' = array_ b.
Proof.
  intros Hwf Hc b'. subst b'. unfold Remove.
  destruct (Remove_loop_cases BUCKET_ARRAY_SIZE 0 b key value) as [->|(a & Ha & _ & ->)];
    simpl; [done|].
  repeat split; try apply wf_RemoveAt; try done.
  apply consistent_RemoveAt; [done|lia|done].
Qed.

End Facts.

(** C9 (as stated, refuted): an occupied bit does not survive every later
    operation.  Slot 0 of the bucket holding [(7, 7)] is occupied, and [Reset]
    — which [SplitInsert] calls on the bucket it splits — clears it. *)
Lemma C9_Reset_clears_occupied :
  ¬ keeps_occupied 4 one_entry_bucket (Reset (0, 0) one_entry_bucket).
Proof.
  intros H. specialize (H 0%nat). vm_compute in H.
  assert (false = true) by (apply H; [lia|done]). done.
Qed.

(** C9 (amended): on a bucket page of the right shape, [Insert], [Remove],
    [RemoveAt] and [Reset] each keep [readable[i] ⇒ occupied[i]] on every
    slot; [Insert] clears no occupied bit; [Remove] and [RemoveAt] leave the
    occupied bitmap (and the payload) as it is, so a logical removal clears
    only a readable bit; [Reset] clears every occupied and every readable
    bit. *)
Theorem C9_bucket_bitmaps {KeyType ValueType : Type} `{ValEq : EqDecision ValueType}
    (cmp : KeyType → KeyType → Z) (BUCKET_ARRAY_SIZE : nat)
    (zero_entry : KeyType * ValueType)
    (b : @HashTableBucketPage KeyType ValueType) (key : KeyType) (value : ValueType)
    (j : nat) :
  wf_bucket BUCKET_ARRAY_SIZE b →
  bitmaps_consistent BUCKET_ARRAY_SIZE b →
  (j < BUCKET_ARRAY_SIZE)%nat →
  let bi := (Insert cmp BUCKET_ARRAY_SIZE zero_entry b key value).1 in
  let br := (Remove cmp BUCKET_ARRAY_SIZE zero_entry b key value).1 in
  (bitmaps_consistent BUCKET_ARRAY_SIZE bi ∧ keeps_occupied BUCKET_ARRAY_SIZE b bi) ∧
  (bitmaps_consistent BUCKET_ARRAY_SIZE br ∧ occupied_ br = occupied_ b ∧ array_ br = array_ b) ∧
  (bitmaps_consistent BUCKET_ARRAY_SIZE (RemoveAt b j) ∧
   occupied_ (RemoveAt b j) = occupied_ b ∧
   IsReadable (RemoveAt b j) j = false) ∧
  (bitmaps_consistent BUCKET_ARRAY_SIZE (Reset zero_entry b) ∧
   ∀ i : nat, IsOccupied (Reset zero_entry b) i = false ∧
              IsReadable (Reset zero_entry b) i = false).
Proof.
  intros Hwf Hc Hj bi br. repeat split.
  - by apply Insert_bitmaps.
  - by apply Insert_bitmaps.
  - by apply Remove_bitmaps.
  - by apply Remove_bitmaps.
  - by apply Remove_bitmaps.
  - by apply consistent_RemoveAt.
  - rewrite (IsReadable_RemoveAt BUCKET_ARRAY_SIZE) by done.
    rewrite bool_decide_eq_true_2 by done. apply andb_false_r.
  - apply consistent_Reset.
  - apply IsOccupied_Reset.
  - apply IsReadable_Reset.
Qed.

(** The amended statement at the bucket holding [(7, 7)]. *)
Lemma C9_bucket_bitmaps_witness :
  let b := one_entry_bucket in
  wf_bucket 4 b ∧ bitmaps_consistent 4 b ∧
  bitmaps_consistent 4 (Remove IntComparator 4 (0, 0) b 7 7).1 ∧
  occupied_ (Remove IntComparator 4 (0, 0) b 7 7).1 = occupied_ b.
Proof.
  assert (Hwf : wf_bucket 4 one_entry_bucket) by (by vm_compute).
  assert (Hc : bitmaps_consistent 4 one_entry_bucket).
  { intros i Hi. do 4 (destruct i as [|i]; [by vm_compute|]). lia. }
  split; [exact Hwf|]. split; [exact Hc|].
  pose proof (C9_bucket_bitmaps IntComparator 4 (0, 0) one_entry_bucket 7 7 0%nat
                Hwf Hc ltac:(lia)) as (_ & (H1 & H2 & _) & _).
  split; [exact H1|exact H2].
Defined.

End BucketFacts.

(** ** Bucket page: lookups, inserts and removals *)

Module BucketViewFacts.
Import BucketPage BucketProps BucketView.

(** *** Bits and bytes *)

Lemma land_1_cases (x : Z) : Z.land x 1 = 0 ∨ Z.land x 1 = 1.
Proof.
  change 1 with (Z.ones 1) at 1 2. rewrite Z.land_ones by lia.
  pose proof (Z.mod_pos_bound x (2 ^ 1) ltac:(lia)). lia.
Qed.

Lemma low_bit (c : Z) (k : nat) (bit : Z) :
  bit = 0 ∨ bit = 1 →
  (Z.land (Z.shiftr c (Z.of_nat k)) 1 =? bit) =
    bool_decide (Z.testbit c (Z.of_nat k) = bool_decide (bit = 1)).
Proof.
  intros Hb. pose proof (BucketFacts.shr_bit c (Z.of_nat k) ltac:(lia)) as H.
  destruct (land_1_cases (Z.shiftr c (Z.of_nat k))) as [E|E]; rewrite E in H |- *;
    simpl in H; rewrite <- H; destruct Hb as [-> | ->]; done.
Qed.

Lemma low_bits_are_spec (n k : nat) (c bit : Z) :
  bit = 0 ∨ bit = 1 →
  low_bits_are n (Z.shiftr c (Z.of_nat k)) bit = true ↔
  ∀ j, (k ≤ j < k + n)%nat → Z.testbit c (Z.of_nat j) = bool_decide (bit = 1).
Proof.
  intros Hb. revert k. induction n as [|n IH]; intros k; simpl.
  - split; [|done]. intros _ j Hj. lia.
  - rewrite low_bit by done. rewrite Z.shiftr_shiftr by lia.
    replace (Z.of_nat k + 1) with (Z.of_nat (S k)) by lia.
    destruct (bool_decide (Z.testbit c (Z.of_nat k) = bool_decide (bit = 1))) eqn:Hk.
    + apply bool_decide_eq_true in Hk. rewrite IH. split.
      * intros H j Hj. destruct (decide (j = k)) as [->|]; [done|]. apply H. lia.
      * intros H j Hj. apply H. lia.
    + apply bool_decide_eq_false in Hk. split; [done|]. intros H. exfalso. apply Hk, H. lia.
Qed.

Lemma count_low_bits_spec (n k : nat) (c ans : Z) :
  count_low_bits n (Z.shiftr c (Z.of_nat k)) ans =
    ans + Z.of_nat (length (filter (λ j, Z.testbit c (Z.of_nat j) = true) (seq k n))).
Proof.
  revert k ans. induction n as [|n IH]; intros k ans; simpl; [lia|].
  rewrite Z.shiftr_shiftr by lia. replace (Z.of_nat k + 1) with (Z.of_nat (S k)) by lia.
  rewrite IH, BucketFacts.shr_bit by lia. rewrite filter_cons.
  destruct (decide _) as [E|E].
  - rewrite E. simpl. lia.
  - apply not_true_is_false in E. rewrite E. lia.
Qed.

Lemma byte_all_set (c : Z) :
  0 ≤ c < 256 → (c = 255 ↔ ∀ j, (j < 8)%nat → Z.testbit c (Z.of_nat j) = true).
Proof.
  intros Hc. split.
  - intros -> j Hj. do 8 (destruct j as [|j]; [done|]). lia.
  - intros H. apply Z.bits_inj'. intros n Hn. change 255 with (Z.ones 8).
    destruct (Z.lt_ge_cases n 8) as [Hlt|Hge].
    + rewrite Z.ones_spec_low by lia. rewrite <- (Z2Nat.id n) by lia. apply H. lia.
    + rewrite Z.ones_spec_high by lia. rewrite <- (Z.mod_small c (2 ^ 8)) by done.
      by apply Z.mod_pow2_bits_high.
Qed.

Lemma byte_all_clear (c : Z) :
  0 ≤ c < 256 → (c = 0 ↔ ∀ j, (j < 8)%nat → Z.testbit c (Z.of_nat j) = false).
Proof.
  intros Hc. split.
  - intros -> j Hj. apply Z.bits_0.
  - intros H. apply Z.bits_inj'. intros n Hn. rewrite Z.bits_0.
    destruct (Z.lt_ge_cases n 8) as [Hlt|Hge].
    + rewrite <- (Z2Nat.id n) by lia. apply H. lia.
    + rewrite <- (Z.mod_small c (2 ^ 8)) by done. by apply Z.mod_pow2_bits_high.
Qed.

Lemma slot_of_byte (q j : nat) :
  (j < 8)%nat → num_index (8 * q + j) = q ∧ bit_index (8 * q + j) = Z.of_nat j.
Proof.
  intros Hj. unfold num_index, bit_index.
  replace (8 * q + j)%nat with (j + q * 8)%nat by lia.
  rewrite Nat.div_add, Nat.Div0.mod_add by lia.
  rewrite Nat.div_small, Nat.mod_small by lia. done.
Qed.

Lemma length_filter_shift (P : nat → Prop) `{∀ x, Decision (P x)} (s k n : nat) :
  length (filter P (seq (s + k) n)) = length (filter (λ j, P (s + j)%nat) (seq k n)).
Proof.
  revert k. induction n as [|n IH]; intros k; [done|]. simpl.
  rewrite !filter_cons. replace (S (s + k)) with (s + S k)%nat by lia.
  destruct (decide (P (s + k)%nat)); simpl; by rewrite IH.
Qed.

Section Facts.
Context {KeyType ValueType : Type}.
Context `{ValEq : EqDecision ValueType}.
Variable cmp : KeyType → KeyType → Z.
Variable BUCKET_ARRAY_SIZE : nat.
Variable zero_entry : KeyType * ValueType.

Abbreviation Bucket := (@HashTableBucketPage KeyType ValueType).
Abbreviation wf := (@wf_bucket KeyType ValueType BUCKET_ARRAY_SIZE).
Abbreviation pair_in b key value := (pair_at cmp zero_entry b key value).

(** *** [GetValue] *)

Lemma GetValue_loop_spec (n i : nat) (b : Bucket) (key : KeyType) (result : list ValueType)
    (has_find_value : bool) :
  let found :=
    map (ValueAt zero_entry b)
        (filter (λ i, IsReadable b i = true ∧ cmp key (KeyAt zero_entry b i) = 0) (seq i n)) in
  GetValue_loop cmp zero_entry n i b key result has_find_value =
    (result ++ found, has_find_value || (if found is [] then false else true)).
Proof.
  revert i result has_find_value. induction n as [|n IH]; intros i result has; simpl.
  - by rewrite app_nil_r, orb_false_r.
  - destruct (IsReadable b i) eqn:Hr; simpl.
    + destruct (Z.eqb_spec (cmp key (KeyAt zero_entry b i)) 0) as [Hc|Hc].
      * rewrite filter_cons_True by (split; done). simpl. rewrite IH. cbv zeta.
        rewrite <- app_assoc. simpl. by rewrite orb_true_r.
      * rewrite filter_cons_False by tauto. apply IH.
    + rewrite filter_cons_False by (intros [? _]; congruence). apply IH.
Qed.

Lemma GetValue_values_of (b : Bucket) (key : KeyType)
    (result : list ValueType) :
  GetValue cmp BUCKET_ARRAY_SIZE zero_entry b key result =
    (result ++ values_of cmp BUCKET_ARRAY_SIZE zero_entry b key,
     if values_of cmp BUCKET_ARRAY_SIZE zero_entry b key is [] then false else true).
Proof. unfold GetValue. by rewrite GetValue_loop_spec. Qed.

(** X1: [GetValue] appends to [result]
    the values of the readable slots whose key compares equal to [key], in the
    order of the slots, and returns true exactly when there is one; slots that
    are not readable are passed over, whatever they hold. *)
Theorem Bucket_GetValue_reads_readable_slots (b : Bucket) (key : KeyType)
    (result : list ValueType) :
  GetValue cmp BUCKET_ARRAY_SIZE zero_entry b key result =
    (result ++ values_of cmp BUCKET_ARRAY_SIZE zero_entry b key,
     if values_of cmp BUCKET_ARRAY_SIZE zero_entry b key is [] then false else true).
Proof. apply GetValue_values_of. Qed.

(** *** The scan of [Insert] and the loop of [Remove] *)

Lemma Insert_scan_spec (n i : nat) (b : Bucket) (key : KeyType) (value : ValueType)
    (av : option nat) :
  match Insert_scan cmp zero_entry n i b key value av with
  | None => ∃ j, (i ≤ j < i + n)%nat ∧ pair_in b key value j
  | Some r =>
    (∀ j, (i ≤ j < i + n)%nat → ¬ pair_in b key value j) ∧
    match av with
    | Some a => r = Some a
    | None =>
      match r with
      | Some a => (i ≤ a < i + n)%nat ∧ IsReadable b a = false ∧
                  ∀ j, (i ≤ j < a)%nat → IsReadable b j = true
      | None => ∀ j, (i ≤ j < i + n)%nat → IsReadable b j = true
      end
    end
  end.
Proof.
  revert i av. induction n as [|n IH]; intros i av; simpl.
  - split; [intros j Hj; lia|]. destruct av; [done|]. intros j Hj. lia.
  - assert (Hhere : ∀ j, (i ≤ j < i + S n)%nat → j = i ∨ (S i ≤ j < S i + n)%nat) by lia.
    destruct (IsReadable b i) eqn:Hr.
    + destruct ((cmp key (KeyAt zero_entry b i) =? 0)
                && bool_decide (ValueAt zero_entry b i = value)) eqn:Hd.
      * apply andb_true_iff in Hd as [Hc%Z.eqb_eq Hv%bool_decide_eq_true].
        exists i. split; [lia|done].
      * assert (Hnot : ¬ pair_in b key value i).
        { intros (_ & Hc & Hv). apply andb_false_iff in Hd as [Hd|Hd].
          - apply Z.eqb_neq in Hd. done.
          - apply bool_decide_eq_false in Hd. done. }
        specialize (IH (S i) av).
        destruct (Insert_scan _ _ _ _ _ _ _ _) as [r|].
        -- destruct IH as [Hno Hav]. split.
           ++ intros j Hj. destruct (Hhere j Hj) as [->|Hj']; [done|by apply Hno].
           ++ destruct av as [a'|]; [done|]. destruct r as [a|].
              ** destruct Hav as (Ha & Hra & Hbefore). split; [lia|]. split; [done|].
                 intros j Hj. destruct (decide (j = i)) as [->|]; [done|].
                 apply Hbefore. lia.
              ** intros j Hj. destruct (Hhere j Hj) as [->|Hj']; [done|by apply Hav].
        -- destruct IH as (j & Hj & Hp). exists j. split; [lia|done].
    + assert (Hnot : ¬ pair_in b key value i).
      { intros (Hr' & _). congruence. }
      destruct av as [a'|].
      * specialize (IH (S i) (Some a')).
        destruct (Insert_scan _ _ _ _ _ _ _ _) as [r|].
        -- destruct IH as [Hno Hav]. split; [|done].
           intros j Hj. destruct (Hhere j Hj) as [->|Hj']; [done|by apply Hno].
        -- destruct IH as (j & Hj & Hp). exists j. split; [lia|done].
      * specialize (IH (S i) (Some i)).
        destruct (Insert_scan _ _ _ _ _ _ _ _) as [r|].
        -- destruct IH as [Hno ->]. split.
           ++ intros j Hj. destruct (Hhere j Hj) as [->|Hj']; [done|by apply Hno].
           ++ split; [lia|]. split; [done|]. intros j Hj. lia.
        -- destruct IH as (j & Hj & Hp). exists j. split; [lia|done].
Qed.

Lemma Remove_loop_spec (n i : nat) (b : Bucket) (key : KeyType) (value : ValueType) :
  match Remove_loop cmp zero_entry n i b key value with
  | (b', true) =>
    ∃ a, (i ≤ a < i + n)%nat ∧ pair_in b key value a ∧
         (∀ j, (i ≤ j < a)%nat → ¬ pair_in b key value j) ∧ b' = RemoveAt b a
  | (b', false) => b' = b ∧ ∀ j, (i ≤ j < i + n)%nat → ¬ pair_in b key value j
  end.
Proof.
  revert i. induction n as [|n IH]; intros i; simpl.
  - split; [done|]. intros j Hj. lia.
  - assert (Hhere : ∀ j, (i ≤ j < i + S n)%nat → j = i ∨ (S i ≤ j < S i + n)%nat) by lia.
    destruct (IsReadable b i && ((cmp key (KeyAt zero_entry b i) =? 0)
                                 && bool_decide (value = ValueAt zero_entry b i))) eqn:Hd.
    + apply andb_true_iff in Hd as [Hr [Hc%Z.eqb_eq Hv%bool_decide_eq_true]%andb_true_iff].
      exists i. split; [lia|]. split; [done|]. split; [intros j Hj; lia|done].
    + assert (Hnot : ¬ pair_in b key value i).
      { intros (Hr & Hc & Hv). rewrite Hr in Hd. simpl in Hd.
        apply andb_false_iff in Hd as [Hd|Hd].
        - apply Z.eqb_neq in Hd. done.
        - apply bool_decide_eq_false in Hd. done. }
      specialize (IH (S i)). destruct (Remove_loop _ _ _ _ _ _ _) as [b' []].
      * destruct IH as (a & Ha & Hp & Hbefore & ->). exists a. split; [lia|]. split; [done|].
        split; [|done]. intros j Hj. destruct (decide (j = i)) as [->|]; [done|].
        apply Hbefore. lia.
      * destruct IH as [-> Hno]. split; [done|].
        intros j Hj. destruct (Hhere j Hj) as [->|Hj']; [done|by apply Hno].
Qed.

Lemma KeyAt_insert (b : Bucket) (a j : nat) (key : KeyType) (value : ValueType) :
  (a < length (array_ b))%nat →
  let b1 := mkBucket (occupied_ b) (readable_ b) (<[a := (key, value)]> (array_ b)) in
  let b' := SetReadable (SetOccupied b1 a) a in
  (KeyAt zero_entry b' a = key ∧ ValueAt zero_entry b' a = value) ∧
  (j ≠ a → KeyAt zero_entry b' j = KeyAt zero_entry b j ∧
           ValueAt zero_entry b' j = ValueAt zero_entry b j).
Proof.
  intros Ha. cbv zeta. unfold KeyAt, ValueAt. simpl. split.
  - by rewrite list_lookup_insert_eq.
  - intros Hj. by rewrite list_lookup_insert_ne.
Qed.

Lemma Insert_first_free_slot (b : Bucket) (key : KeyType) (value : ValueType) :
  wf b →
  match Insert cmp BUCKET_ARRAY_SIZE zero_entry b key value with
  | (b', true) =>
    ∃ a, (a < BUCKET_ARRAY_SIZE)%nat ∧ IsReadable b a = false ∧
         (∀ j, (j < a)%nat → IsReadable b j = true) ∧
         (∀ j, (j < BUCKET_ARRAY_SIZE)%nat → ¬ pair_in b key value j) ∧
         wf b' ∧
         (∀ j, IsReadable b' j = IsReadable b j || bool_decide (a = j)) ∧
         KeyAt zero_entry b' a = key ∧ ValueAt zero_entry b' a = value ∧
         (∀ j, j ≠ a → KeyAt zero_entry b' j = KeyAt zero_entry b j ∧
                       ValueAt zero_entry b' j = ValueAt zero_entry b j)
  | (b', false) =>
    b' = b ∧
    ((∃ j, (j < BUCKET_ARRAY_SIZE)%nat ∧ pair_in b key value j) ∨
     (∀ j, (j < BUCKET_ARRAY_SIZE)%nat → IsReadable b j = true))
  end.
Proof.
  intros Hwf. unfold Insert.
  pose proof (Insert_scan_spec BUCKET_ARRAY_SIZE 0 b key value None) as H.
  destruct (Insert_scan _ _ _ _ _ _ _ _) as [[a|]|].
  - destruct H as (Hno & Ha & Hra & Hbefore).
    set (b1 := mkBucket (occupied_ b) (readable_ b) (<[a := (key, value)]> (array_ b))).
    assert (Hwf1 : wf b1).
    { destruct Hwf as (? & ? & ?). repeat split; simpl; by rewrite ?length_insert. }
    assert (Hwf2 : wf (SetOccupied b1 a)) by by apply BucketFacts.wf_SetOccupied.
    assert (HaN : (a < BUCKET_ARRAY_SIZE)%nat) by lia.
    assert (Hlen : (a < length (array_ b))%nat) by (destruct Hwf as (_ & _ & ->); done).
    destruct (KeyAt_insert b a a key value Hlen) as [[Hk Hv] _].
    exists a. split; [done|]. split; [done|]. split; [intros j Hj; apply Hbefore; lia|].
    split; [intros j Hj; apply Hno; lia|].
    split; [by apply BucketFacts.wf_SetReadable|].
    split; [|split; [done|split; [done|]]].
    + intros j. by rewrite (BucketFacts.IsReadable_SetReadable BUCKET_ARRAY_SIZE).
    + intros j Hj. by destruct (KeyAt_insert b a j key value Hlen) as [_ Hother]; apply Hother.
  - destruct H as (Hno & Hall). split; [done|]. right. intros j Hj. apply Hall. lia.
  - destruct H as (j & Hj & Hp). split; [done|]. left. exists j. split; [lia|done].
Qed.

(** X2: [Insert] returns false and
    changes nothing when a readable slot holds the very pair or when every
    slot is readable; else it writes the pair into the first slot that is not
    readable, sets the readable bit of that slot and changes no other slot: a
    slot freed by a removal is used again. *)
Theorem Bucket_Insert_takes_first_free_slot (b : Bucket) (key : KeyType) (value : ValueType) :
  wf b →
  match Insert cmp BUCKET_ARRAY_SIZE zero_entry b key value with
  | (b', true) =>
    ∃ a, (a < BUCKET_ARRAY_SIZE)%nat ∧ IsReadable b a = false ∧
         (∀ j, (j < a)%nat → IsReadable b j = true) ∧
         (∀ j, (j < BUCKET_ARRAY_SIZE)%nat → ¬ pair_in b key value j) ∧
         wf b' ∧
         (∀ j, IsReadable b' j = IsReadable b j || bool_decide (a = j)) ∧
         KeyAt zero_entry b' a = key ∧ ValueAt zero_entry b' a = value ∧
         (∀ j, j ≠ a → KeyAt zero_entry b' j = KeyAt zero_entry b j ∧
                       ValueAt zero_entry b' j = ValueAt zero_entry b j)
  | (b', false) =>
    b' = b ∧
    ((∃ j, (j < BUCKET_ARRAY_SIZE)%nat ∧ pair_in b key value j) ∨
     (∀ j, (j < BUCKET_ARRAY_SIZE)%nat → IsReadable b j = true))
  end.
Proof. apply Insert_first_free_slot. Qed.

Lemma filter_ext_elem {A : Type} (P Q : A → Prop) `{∀ x, Decision (P x)} `{∀ x, Decision (Q x)}
    (l : list A) :
  (∀ x, x ∈ l → P x ↔ Q x) → filter P l = filter Q l.
Proof.
  induction l as [|x l IH]; intros Hl; [done|].
  rewrite !filter_cons. rewrite IH by (intros y Hy; apply Hl; by right).
  destruct (decide (P x)) as [HP|HP], (decide (Q x)) as [HQ|HQ]; try done.
  - exfalso. apply HQ, Hl; [left|done].
  - exfalso. apply HP, Hl; [left|done].
Qed.

Lemma elem_of_values_of (b : Bucket) (key : KeyType) (value : ValueType) :
  value ∈ values_of cmp BUCKET_ARRAY_SIZE zero_entry b key ↔
  ∃ j, (j < BUCKET_ARRAY_SIZE)%nat ∧ pair_in b key value j.
Proof.
  unfold values_of, pair_at. rewrite list_elem_of_fmap. split.
  - intros (j & -> & [[Hr Hc] Hj%elem_of_seq]%list_elem_of_filter).
    exists j. split; [lia|done].
  - intros (j & Hj & Hr & Hc & Hv). exists j. split; [done|].
    apply list_elem_of_filter. split; [done|]. apply elem_of_seq. lia.
Qed.

(** X3: after an [Insert] that returned true, a
    lookup of a key finds what it found before and, when the key compares
    equal to the inserted one, the inserted value as well. *)
Theorem Bucket_Insert_then_GetValue (b b' : Bucket) (key : KeyType) (value : ValueType) :
  wf b →
  Insert cmp BUCKET_ARRAY_SIZE zero_entry b key value = (b', true) →
  ∀ key' value',
    value' ∈ values_of cmp BUCKET_ARRAY_SIZE zero_entry b' key' ↔
    value' ∈ values_of cmp BUCKET_ARRAY_SIZE zero_entry b key' ∨
    (cmp key' key = 0 ∧ value' = value).
Proof.
  intros Hwf E key' value'.
  pose proof (Insert_first_free_slot b key value Hwf) as H. rewrite E in H.
  destruct H as (a & Ha & Hra & _ & _ & _ & Hr' & Hk & Hv & Hother).
  rewrite !elem_of_values_of. unfold pair_at. split.
  - intros (j & Hj & Hr & Hc & Hval). destruct (decide (j = a)) as [->|Hne].
    + right. rewrite Hk in Hc. rewrite Hv in Hval. done.
    + left. exists j. split; [done|]. destruct (Hother j Hne) as [<- <-].
      rewrite Hr' in Hr. rewrite bool_decide_eq_false_2 in Hr by done.
      rewrite orb_false_r in Hr. done.
  - intros [(j & Hj & Hr & Hc & Hval)|[Hc ->]].
    + assert (Hne : j ≠ a) by (intros ->; congruence).
      exists j. split; [done|]. destruct (Hother j Hne) as [-> ->].
      rewrite Hr', Hr. done.
    + exists a. split; [done|]. rewrite Hr', Hk, Hv, bool_decide_eq_true_2 by done.
      by rewrite orb_true_r.
Qed.

Lemma Remove_first_match (b : Bucket) (key : KeyType) (value : ValueType) :
  wf b →
  match Remove cmp BUCKET_ARRAY_SIZE zero_entry b key value with
  | (b', true) =>
    ∃ a, (a < BUCKET_ARRAY_SIZE)%nat ∧ pair_in b key value a ∧
         (∀ j, (j < a)%nat → ¬ pair_in b key value j) ∧
         (∀ j, IsReadable b' j = IsReadable b j && negb (bool_decide (a = j))) ∧
         occupied_ b' = occupied_ b ∧ array_ b' = array_ b ∧ wf b'
  | (b', false) =>
    b' = b ∧ ∀ j, (j < BUCKET_ARRAY_SIZE)%nat → ¬ pair_in b key value j
  end.
Proof.
  intros Hwf. unfold Remove.
  pose proof (Remove_loop_spec BUCKET_ARRAY_SIZE 0 b key value) as H.
  destruct (Remove_loop _ _ _ _ _ _ _) as [b' []].
  - destruct H as (a & Ha & Hp & Hbefore & ->). exists a.
    split; [lia|]. split; [done|]. split; [intros j Hj; apply Hbefore; lia|].
    split; [|split; [done|split; [done|by apply BucketFacts.wf_RemoveAt]]].
    intros j. rewrite (BucketFacts.IsReadable_RemoveAt BUCKET_ARRAY_SIZE); [done|done|lia].
  - destruct H as [-> Hno]. split; [done|]. intros j Hj. apply Hno. lia.
Qed.

(** X4: [Remove] returns false and changes
    nothing when no readable slot holds the pair; else it clears the readable
    bit of the first slot that holds it and nothing else: the occupied bit
    and the payload of the slot stay. *)
Theorem Bucket_Remove_clears_first_match (b : Bucket) (key : KeyType) (value : ValueType) :
  wf b →
  match Remove cmp BUCKET_ARRAY_SIZE zero_entry b key value with
  | (b', true) =>
    ∃ a, (a < BUCKET_ARRAY_SIZE)%nat ∧ pair_in b key value a ∧
         (∀ j, (j < a)%nat → ¬ pair_in b key value j) ∧
         (∀ j, IsReadable b' j = IsReadable b j && negb (bool_decide (a = j))) ∧
         occupied_ b' = occupied_ b ∧ array_ b' = array_ b ∧ wf b'
  | (b', false) =>
    b' = b ∧ ∀ j, (j < BUCKET_ARRAY_SIZE)%nat → ¬ pair_in b key value j
  end.
Proof. apply Remove_first_match. Qed.

(** X5: for a comparator that finds a key
    equal to itself: after an [Insert] that returned true, [Remove] of the
    same pair returns true, and every lookup returns again what it returned
    before the two calls. *)
Theorem Bucket_Insert_Remove_round_trip (b b1 : Bucket) (key : KeyType) (value : ValueType) :
  wf b → cmp key key = 0 →
  Insert cmp BUCKET_ARRAY_SIZE zero_entry b key value = (b1, true) →
  ∃ b2, Remove cmp BUCKET_ARRAY_SIZE zero_entry b1 key value = (b2, true) ∧
        (∀ j, IsReadable b2 j = IsReadable b j) ∧
        ∀ key' result,
          GetValue cmp BUCKET_ARRAY_SIZE zero_entry b2 key' result =
          GetValue cmp BUCKET_ARRAY_SIZE zero_entry b key' result.
Proof.
  intros Hwf Hrefl E.
  pose proof (Insert_first_free_slot b key value Hwf) as H. rewrite E in H.
  destruct H as (a & Ha & Hra & _ & Hno & Hwf1 & Hr1 & Hk & Hv & Hother).
  pose proof (Remove_first_match b1 key value Hwf1) as H.
  destruct (Remove _ _ _ _ _ _) as [b2 []].
  - destruct H as (a' & Ha' & Hp & Hbefore & Hr2 & _ & Harr & _).
    assert (a' = a) as ->.
    { destruct (decide (a' = a)) as [|Hne]; [done|]. exfalso.
      destruct Hp as (Hr & Hc & Hval). destruct (Hother a' Hne) as [Hk' Hv'].
      apply (Hno a' Ha'). unfold pair_at. rewrite <- Hk', <- Hv'. split; [|done].
      rewrite Hr1, bool_decide_eq_false_2 in Hr by done. by rewrite orb_false_r in Hr. }
    assert (Hsame : ∀ j, IsReadable b2 j = IsReadable b j).
    { intros j. rewrite Hr2, Hr1. destruct (decide (a = j)) as [<-|Hne].
      - rewrite bool_decide_eq_true_2 by done. rewrite Hra. done.
      - rewrite bool_decide_eq_false_2 by done. by rewrite orb_false_r, andb_true_r. }
    exists b2. split; [done|]. split; [done|].
    assert (Hpay : ∀ j, j ≠ a → KeyAt zero_entry b2 j = KeyAt zero_entry b j ∧
                                 ValueAt zero_entry b2 j = ValueAt zero_entry b j).
    { intros j Hj. unfold KeyAt, ValueAt. rewrite Harr. by apply Hother. }
    intros key' result. rewrite !GetValue_values_of.
    assert (Hv2 : values_of cmp BUCKET_ARRAY_SIZE zero_entry b2 key' =
                  values_of cmp BUCKET_ARRAY_SIZE zero_entry b key'); [|by rewrite Hv2].
    unfold values_of.
    rewrite (filter_ext_elem
               (λ i, IsReadable b2 i = true ∧ cmp key' (KeyAt zero_entry b2 i) = 0)
               (λ i, IsReadable b i = true ∧ cmp key' (KeyAt zero_entry b i) = 0)).
    + apply map_ext_in. intros j [[Hr _] _]%list_elem_of_In%list_elem_of_filter.
      apply Hpay. intros ->. congruence.
    + intros j _. rewrite Hsame. split; intros [Hr Hc]; (split; [done|]);
        (destruct (Hpay j) as [Hkj _]; [intros ->; congruence|]); congruence.
  - exfalso. destruct H as [_ Hnone]. apply (Hnone a Ha). unfold pair_at.
    rewrite Hr1, Hk, Hv, bool_decide_eq_true_2 by done. by rewrite orb_true_r.
Qed.

(** *** The counts *)

Lemma byte_range (b : Bucket) (q : nat) :
  bytes_ok b → 0 ≤ byte_at (readable_ b) q < 256.
Proof.
  intros [_ Hr]. unfold byte_at. destruct (readable_ b !! q) as [c|] eqn:E; simpl; [|lia].
  by eapply (Forall_lookup_1 _ _ _ _ Hr).
Qed.

Lemma IsReadable_byte (b : Bucket) (q j : nat) :
  (j < 8)%nat →
  IsReadable b (8 * q + j) = Z.testbit (byte_at (readable_ b) q) (Z.of_nat j).
Proof.
  intros Hj. rewrite (BucketFacts.IsReadable_testbit).
  by destruct (slot_of_byte q j Hj) as [-> ->].
Qed.

Lemma bytes_all_are_spec (n i : nat) (bytes : list Z) (v : Z) :
  bytes_all_are n i bytes v = true ↔ ∀ q, (i ≤ q < i + n)%nat → byte_at bytes q = v.
Proof.
  revert i. induction n as [|n IH]; intros i; simpl.
  - split; [|done]. intros _ q Hq. lia.
  - destruct (Z.eqb_spec (byte_at bytes i) v) as [E|E].
    + rewrite IH. split.
      * intros H q Hq. destruct (decide (q = i)) as [->|]; [done|]. apply H. lia.
      * intros H q Hq. apply H. lia.
    + split; [done|]. intros H. exfalso. apply E, H. lia.
Qed.

(** The slots are the bits of the whole bytes and the low bits of the byte
    after them. *)
Lemma slots_by_bytes (P : nat → Prop) :
  (∀ i, (i < BUCKET_ARRAY_SIZE)%nat → P i) ↔
  (∀ q j, (q < quotient BUCKET_ARRAY_SIZE)%nat → (j < 8)%nat → P (8 * q + j)%nat) ∧
  (∀ j, (j < reminder BUCKET_ARRAY_SIZE)%nat → P (8 * quotient BUCKET_ARRAY_SIZE + j)%nat).
Proof.
  unfold quotient, reminder.
  pose proof (Nat.div_mod_eq BUCKET_ARRAY_SIZE 8) as HN.
  pose proof (Nat.mod_upper_bound BUCKET_ARRAY_SIZE 8 ltac:(lia)) as Hr.
  split.
  - intros H. split.
    + intros q j Hq Hj. apply H. lia.
    + intros j Hj. apply H. lia.
  - intros [Hq Hr'] i Hi.
    pose proof (Nat.div_mod_eq i 8) as Hi8.
    pose proof (Nat.mod_upper_bound i 8 ltac:(lia)) as Hi8'.
    rewrite Hi8. destruct (decide (i `div` 8 < BUCKET_ARRAY_SIZE `div` 8)%nat) as [Hlt|Hge].
    + by apply Hq.
    + assert (i `div` 8 = BUCKET_ARRAY_SIZE `div` 8)%nat as -> by lia. apply Hr'. lia.
Qed.

(** X6: [IsFull] is true exactly when every slot is
    readable, and [IsEmpty] exactly when none is; the bits of the last byte
    beyond the last slot do not count. *)
Theorem Bucket_IsFull_IsEmpty (b : Bucket) :
  bytes_ok b →
  (IsFull BUCKET_ARRAY_SIZE b = true ↔
   ∀ i, (i < BUCKET_ARRAY_SIZE)%nat → IsReadable b i = true) ∧
  (IsEmpty BUCKET_ARRAY_SIZE b = true ↔
   ∀ i, (i < BUCKET_ARRAY_SIZE)%nat → IsReadable b i = false).
Proof.
  intros Hok. unfold IsFull, IsEmpty.
  rewrite !andb_true_iff, !bytes_all_are_spec.
  rewrite <- (Z.shiftr_0_r (byte_at (readable_ b) (quotient BUCKET_ARRAY_SIZE))).
  change 0 with (Z.of_nat 0) at 1 3.
  rewrite !low_bits_are_spec by lia.
  rewrite (slots_by_bytes (λ i, IsReadable b i = true)).
  rewrite (slots_by_bytes (λ i, IsReadable b i = false)).
  split; (split; intros [Hq Hr]; split).
  - intros q j Hq' Hj. rewrite IsReadable_byte by done.
    apply (byte_all_set _ (byte_range b q Hok)); [apply Hq; lia|done].
  - intros j Hj. rewrite IsReadable_byte.
    + rewrite Hr by lia. done.
    + unfold reminder in Hj. pose proof (Nat.mod_upper_bound BUCKET_ARRAY_SIZE 8). lia.
  - intros q Hq'. apply (byte_all_set _ (byte_range b q Hok)).
    intros j Hj. rewrite <- IsReadable_byte by done. apply Hq; [lia|done].
  - intros j Hj. rewrite <- IsReadable_byte.
    + rewrite Hr by lia. done.
    + unfold reminder in Hj. pose proof (Nat.mod_upper_bound BUCKET_ARRAY_SIZE 8). lia.
  - intros q j Hq' Hj. rewrite IsReadable_byte by done.
    apply (byte_all_clear _ (byte_range b q Hok)); [apply Hq; lia|done].
  - intros j Hj. rewrite IsReadable_byte.
    + rewrite Hr by lia. done.
    + unfold reminder in Hj. pose proof (Nat.mod_upper_bound BUCKET_ARRAY_SIZE 8). lia.
  - intros q Hq'. apply (byte_all_clear _ (byte_range b q Hok)).
    intros j Hj. rewrite <- IsReadable_byte by done. apply Hq; [lia|done].
  - intros j Hj. rewrite <- IsReadable_byte.
    + rewrite Hr by lia. done.
    + unfold reminder in Hj. pose proof (Nat.mod_upper_bound BUCKET_ARRAY_SIZE 8). lia.
Qed.

Lemma count_byte (b : Bucket) (q n : nat) (ans : Z) :
  (n ≤ 8)%nat →
  count_low_bits n (byte_at (readable_ b) q) ans =
    ans + Z.of_nat (length (filter (λ i, IsReadable b i = true) (seq (8 * q) n))).
Proof.
  intros Hn. rewrite <- (Z.shiftr_0_r (byte_at (readable_ b) q)).
  change 0 with (Z.of_nat 0) at 1. rewrite count_low_bits_spec. do 2 f_equal.
  rewrite <- (Nat.add_0_r (8 * q)). rewrite length_filter_shift. f_equal.
  apply filter_ext_elem. intros j Hj%elem_of_seq. by rewrite IsReadable_byte by lia.
Qed.

Lemma count_bytes_spec (b : Bucket) (n q : nat) (ans : Z) :
  count_bytes n q (readable_ b) ans =
    ans + Z.of_nat (length (filter (λ i, IsReadable b i = true) (seq (8 * q) (8 * n)))).
Proof.
  revert q ans. induction n as [|n IH]; intros q ans; cbn [count_bytes].
  - rewrite Nat.mul_0_r. simpl. lia.
  - rewrite IH, count_byte by lia.
    replace (8 * S n)%nat with (8 + 8 * n)%nat by lia.
    rewrite seq_app, filter_app, length_app.
    replace (8 * q + 8)%nat with (8 * S q)%nat by lia. lia.
Qed.

Lemma GetArrayCopy_loop_spec (n i : nat) (b : Bucket) :
  GetArrayCopy_loop zero_entry n i b =
    map (λ i, (KeyAt zero_entry b i, ValueAt zero_entry b i))
        (filter (λ i, IsReadable b i = true) (seq i n)).
Proof.
  revert i. induction n as [|n IH]; intros i; simpl; [done|].
  rewrite filter_cons. destruct (IsReadable b i) eqn:E.
  - rewrite decide_True by done. simpl. rewrite IH. f_equal.
    unfold KeyAt, ValueAt. by destruct (default zero_entry (array_ b !! i)).
  - rewrite decide_False by congruence. apply IH.
Qed.

(** X7: [NumReadable] is the number of
    readable slots, and [GetArrayCopy] has that many entries: the pairs of the
    readable slots in the order of the slots. *)
Theorem Bucket_NumReadable_counts_copy (b : Bucket) :
  NumReadable BUCKET_ARRAY_SIZE b =
    Z.of_nat (length (readable_slots BUCKET_ARRAY_SIZE b)) ∧
  GetArrayCopy BUCKET_ARRAY_SIZE zero_entry b =
    map (λ i, (KeyAt zero_entry b i, ValueAt zero_entry b i))
        (readable_slots BUCKET_ARRAY_SIZE b) ∧
  Z.of_nat (length (GetArrayCopy BUCKET_ARRAY_SIZE zero_entry b)) =
    NumReadable BUCKET_ARRAY_SIZE b.
Proof.
  assert (H1 : NumReadable BUCKET_ARRAY_SIZE b =
               Z.of_nat (length (readable_slots BUCKET_ARRAY_SIZE b))).
  { unfold NumReadable, readable_slots, quotient, reminder.
    pose proof (Nat.mod_upper_bound BUCKET_ARRAY_SIZE 8 ltac:(lia)) as Hr.
    pose proof (Nat.div_mod_eq BUCKET_ARRAY_SIZE 8) as HN.
    set (q := (BUCKET_ARRAY_SIZE `div` 8)%nat) in *.
    set (r := (BUCKET_ARRAY_SIZE `mod` 8)%nat) in *. clearbody q r.
    rewrite count_byte, count_bytes_spec by lia. rewrite HN.
    rewrite seq_app, filter_app, length_app. simpl. lia. }
  assert (H2 : GetArrayCopy BUCKET_ARRAY_SIZE zero_entry b =
               map (λ i, (KeyAt zero_entry b i, ValueAt zero_entry b i))
                   (readable_slots BUCKET_ARRAY_SIZE b)).
  { unfold GetArrayCopy. apply GetArrayCopy_loop_spec. }
  split; [done|]. split; [done|]. by rewrite H2, length_map, H1.
Qed.

(** *** The shape of the page *)

Lemma to_uint8_range (z : Z) : 0 ≤ to_uint8 z < 256.
Proof. unfold to_uint8. apply Z.mod_pos_bound. lia. Qed.

Lemma bucket_ok_zero_bucket :
  bucket_ok BUCKET_ARRAY_SIZE (zero_bucket BUCKET_ARRAY_SIZE zero_entry).
Proof.
  split; [apply BucketFacts.wf_zero_bucket|].
  split; simpl; apply Forall_replicate; lia.
Qed.

Lemma bucket_ok_Insert (b : Bucket) (key : KeyType) (value : ValueType) :
  bucket_ok BUCKET_ARRAY_SIZE b →
  bucket_ok BUCKET_ARRAY_SIZE (Insert cmp BUCKET_ARRAY_SIZE zero_entry b key value).1.
Proof.
  intros [Hwf [Ho Hr]].
  destruct (BucketFacts.Insert_cases cmp BUCKET_ARRAY_SIZE zero_entry b key value)
    as [->|(a & Ha & ->)]; simpl; [done|].
  split.
  - apply BucketFacts.wf_SetReadable, BucketFacts.wf_SetOccupied.
    destruct Hwf as (? & ? & ?). repeat split; simpl; by rewrite ?length_insert.
  - split; simpl; apply Forall_insert; try done; apply to_uint8_range.
Qed.

Lemma bucket_ok_Remove (b : Bucket) (key : KeyType) (value : ValueType) :
  bucket_ok BUCKET_ARRAY_SIZE b →
  bucket_ok BUCKET_ARRAY_SIZE (Remove cmp BUCKET_ARRAY_SIZE zero_entry b key value).1.
Proof.
  intros [Hwf [Ho Hr]]. unfold Remove.
  destruct (BucketFacts.Remove_loop_cases cmp zero_entry BUCKET_ARRAY_SIZE 0 b key value)
    as [->|(a & Ha & _ & ->)]; simpl; [done|].
  split; [by apply BucketFacts.wf_RemoveAt|].
  split; simpl; [done|]. apply Forall_insert; [done|apply to_uint8_range].
Qed.

Lemma bucket_ok_Reset (b : Bucket) :
  bucket_ok BUCKET_ARRAY_SIZE b → bucket_ok BUCKET_ARRAY_SIZE (Reset zero_entry b).
Proof.
  intros [Hwf _]. split; [by apply BucketFacts.wf_Reset|].
  split; simpl; apply Forall_replicate; lia.
Qed.

(** X8: a fresh page is a bucket page of the right
    shape, and [Insert], [Remove] and [Reset] keep the shape: the sizes of
    the two bitmaps and of the array, and bytes in the bitmaps. *)
Theorem Bucket_calls_keep_shape (b : Bucket) (key : KeyType) (value : ValueType) :
  bucket_ok BUCKET_ARRAY_SIZE (zero_bucket BUCKET_ARRAY_SIZE zero_entry) ∧
  (bucket_ok BUCKET_ARRAY_SIZE b →
   bucket_ok BUCKET_ARRAY_SIZE (Insert cmp BUCKET_ARRAY_SIZE zero_entry b key value).1 ∧
   bucket_ok BUCKET_ARRAY_SIZE (Remove cmp BUCKET_ARRAY_SIZE zero_entry b key value).1 ∧
   bucket_ok BUCKET_ARRAY_SIZE (Reset zero_entry b)).
Proof.
  split; [apply bucket_ok_zero_bucket|]. intros Hok.
  split; [by apply bucket_ok_Insert|]. split; [by apply bucket_ok_Remove|].
  by apply bucket_ok_Reset.
Qed.

End Facts.

(** *** Examples on buckets of four slots *)

Lemma bucket_3_ok : bucket_ok 4 bucket_3.
Proof.
  change bucket_3 with
    (Insert IntComparator 4 (0, 0)
       (Insert IntComparator 4 (0, 0)
          (Insert IntComparator 4 (0, 0) (zero_bucket 4 (0, 0)) 1 10).1 2 20).1 1 30).1.
  do 3 apply bucket_ok_Insert. apply bucket_ok_zero_bucket.
Qed.

Lemma bucket_3_hole_ok : bucket_ok 4 bucket_3_hole.
Proof. apply (bucket_ok_Remove IntComparator 4 (0, 0)), bucket_3_ok. Qed.

Lemma bucket_4_ok : bucket_ok 4 bucket_4.
Proof. apply (bucket_ok_Insert IntComparator 4 (0, 0)), bucket_3_ok. Qed.

Lemma Bucket_Insert_takes_first_free_slot_witness :
  ∃ b' a, Insert IntComparator 4 (0, 0) bucket_3_hole 5 50 = (b', true) ∧
          IsReadable bucket_3_hole a = false ∧ KeyAt (0, 0) b' a = 5 ∧
          IsReadable b' 1 = true.
Proof.
  pose proof (Bucket_Insert_takes_first_free_slot IntComparator 4 (0, 0) bucket_3_hole 5 50
                (proj1 bucket_3_hole_ok)) as H.
  destruct (Insert IntComparator 4 (0, 0) bucket_3_hole 5 50) as [b' ok] eqn:E.
  assert (ok = true) as -> by (by vm_compute in E; injection E as _ <-).
  destruct H as (a & _ & Hra & _ & _ & _ & _ & Hk & _).
  exists b', a. split; [done|]. split; [done|]. split; [done|].
  vm_compute in E. injection E as <-. by vm_compute.
Defined.

Lemma Bucket_Insert_then_GetValue_witness :
  ∃ b', Insert IntComparator 4 (0, 0) bucket_3_hole 1 50 = (b', true) ∧
        50 ∈ values_of IntComparator 4 (0, 0) b' 1 ∧
        10 ∈ values_of IntComparator 4 (0, 0) b' 1.
Proof.
  destruct (Insert IntComparator 4 (0, 0) bucket_3_hole 1 50) as [b' ok] eqn:E.
  assert (ok = true) as -> by (by vm_compute in E; injection E as _ <-).
  pose proof (Bucket_Insert_then_GetValue IntComparator 4 (0, 0) bucket_3_hole b' 1 50
                (proj1 bucket_3_hole_ok) E) as H.
  exists b'. split; [done|]. split.
  - apply H. by right.
  - apply H. left. vm_compute. left.
Defined.

Lemma Bucket_Remove_clears_first_match_witness :
  ∃ a, pair_at IntComparator (0, 0) bucket_3 2 20 a ∧
       IsReadable bucket_3_hole a = false ∧ occupied_ bucket_3_hole = occupied_ bucket_3.
Proof.
  pose proof (Bucket_Remove_clears_first_match IntComparator 4 (0, 0) bucket_3 2 20
                (proj1 bucket_3_ok)) as H.
  change (Remove IntComparator 4 (0, 0) bucket_3 2 20)
    with (bucket_3_hole, (Remove IntComparator 4 (0, 0) bucket_3 2 20).2) in H.
  assert (E : (Remove IntComparator 4 (0, 0) bucket_3 2 20).2 = true) by by vm_compute.
  rewrite E in H. destruct H as (a & _ & Hp & _ & Hr & Ho & _).
  exists a. split; [done|]. split; [|done].
  rewrite Hr, bool_decide_eq_true_2 by done. by rewrite andb_false_r.
Defined.

Lemma Bucket_Insert_Remove_round_trip_witness :
  ∃ b1 b2, Insert IntComparator 4 (0, 0) bucket_3 9 90 = (b1, true) ∧
           Remove IntComparator 4 (0, 0) b1 9 90 = (b2, true) ∧
           GetValue IntComparator 4 (0, 0) b2 1 [] = ([10; 30], true).
Proof.
  destruct (Insert IntComparator 4 (0, 0) bucket_3 9 90) as [b1 ok] eqn:E.
  assert (ok = true) as -> by (by vm_compute in E; injection E as _ <-).
  destruct (Bucket_Insert_Remove_round_trip IntComparator 4 (0, 0) bucket_3 b1 9 90
              (proj1 bucket_3_ok) eq_refl E) as (b2 & E2 & _ & Hg).
  exists b1, b2. split; [done|]. split; [done|]. rewrite Hg. by vm_compute.
Defined.

Lemma Bucket_IsFull_IsEmpty_witness :
  IsFull 4 bucket_4 = true ∧ IsFull 4 bucket_3 = false ∧
  ∀ i, (i < 4)%nat → IsReadable bucket_4 i = true.
Proof.
  split; [by vm_compute|]. split; [by vm_compute|].
  apply (Bucket_IsFull_IsEmpty 4 bucket_4 (proj2 bucket_4_ok)). by vm_compute.
Defined.

Lemma Bucket_calls_keep_shape_witness :
  bucket_ok 4 (Insert IntComparator 4 (0, 0) bucket_3 4 40).1 ∧
  bucket_ok 4 (Reset (0, 0) bucket_3).
Proof.
  destruct (Bucket_calls_keep_shape IntComparator 4 (0, 0) bucket_3 4 40) as [_ H].
  destruct (H bucket_3_ok) as (Hi & _ & Hr). split; [exact Hi|exact Hr].
Defined.
End BucketViewFacts.

(** ** Extendible hash table *)

Module TableFacts.
Import DirectoryPage BufferPool HashTable BucketProps TableProps.

Section General.
Context {KeyType ValueType : Type}.
Context `{ValEq : EqDecision ValueType}.
Variable cmp : KeyType → KeyType → Z.
Variable BUCKET_ARRAY_SIZE : nat.
Variable zero_entry : KeyType * ValueType.
Variable hash_fn : KeyType → Z.

(** A loop [for (i = start; i >= diff; i -= diff)] with a positive stride
    ends by its own test within [n] rounds when [start < n * diff]: more
    rounds change nothing. *)
Lemma loop_down_rounds (n m : nat) (i diff : Z) body (dir_page : HashTableDirectoryPage) :
  0 < diff → i < Z.of_nat n * diff → (n ≤ m)%nat →
  loop_down m i diff body dir_page = loop_down n i diff body dir_page.
Proof.
  intros Hd. revert m i dir_page. induction n as [|n IH]; intros m i dir_page Hi Hm.
  - destruct m as [|m]; [done|]. simpl.
    destruct (i >=? diff) eqn:E; [|done]. apply Z.geb_le in E. lia.
  - destruct m as [|m]; [lia|]. simpl.
    destruct (i >=? diff) eqn:E; [|done]. apply IH; lia.
Qed.

Lemma loop_up_rounds (n m : nat) (i diff : Z) body (dir_page : HashTableDirectoryPage) :
  (∀ d j, Size (body d j) = Size d) →
  0 < diff → Size dir_page - i ≤ Z.of_nat n * diff → (n ≤ m)%nat →
  loop_up m i diff body dir_page = loop_up n i diff body dir_page.
Proof.
  intros Hs Hd. revert m i dir_page. induction n as [|n IH]; intros m i dir_page Hi Hm.
  - destruct m as [|m]; [done|]. simpl.
    destruct (i <? Size dir_page) eqn:E; [|done]. apply Z.ltb_lt in E. lia.
  - destruct m as [|m]; [lia|]. simpl.
    destruct (i <? Size dir_page) eqn:E; [|done]. apply IH; [rewrite Hs|]; lia.
Qed.

Lemma Size_propagate ref page_id d j : Size (propagate ref page_id d j) = Size d.
Proof. done. Qed.

Ltac case_bind :=
  match goal with
  | |- context [rbind ?x _] => destruct x eqn:?; cbn [rbind]; try done
  | |- context [match ?x with (_, _) => _ end] => destruct x eqn:?; cbn [rbind]
  | |- context [if ?x then _ else _] => destruct x eqn:?; cbn [rbind]; try done
  end.

(** [SplitInsert] calls its continuation at most once, as its last step. *)
Lemma SplitInsert_ext f g (ht : @ExtendibleHashTable KeyType ValueType) key value r :
  (∀ ht' r', f ht' key value = r' → r' ≠ OutOfFuel → g ht' key value = r') →
  SplitInsert cmp BUCKET_ARRAY_SIZE zero_entry hash_fn f ht key value = r →
  r ≠ OutOfFuel →
  SplitInsert cmp BUCKET_ARRAY_SIZE zero_entry hash_fn g ht key value = r.
Proof.
  intros Hfg. unfold SplitInsert.
  repeat case_bind.
  all: intros H Hr; by apply Hfg.
Qed.

(** The body of [Insert], with the recursive call named. *)
Lemma Insert_unfold (fuel : nat) (ht : @ExtendibleHashTable KeyType ValueType) key value :
  Insert cmp BUCKET_ARRAY_SIZE zero_entry hash_fn fuel ht key value =
  let* (ht, dir_page) := FetchDirectoryPage ht in
  let bucket_page_id := KeyToPageId hash_fn key dir_page in
  let* ht := FetchBucketPage ht bucket_page_id in
  let* bucket := FetchHashBucketPage BUCKET_ARRAY_SIZE zero_entry ht bucket_page_id in
  if negb (BucketPage.IsFull BUCKET_ARRAY_SIZE bucket) then
    let '(bucket, has_insert) :=
      BucketPage.Insert cmp BUCKET_ARRAY_SIZE zero_entry bucket key value in
    let ht := store ht bucket_page_id (BucketData bucket) in
    let* ht := unpin_assert ht bucket_page_id true in
    let* ht := unpin_assert ht (GetPageId dir_page) false in
    Ok (ht, has_insert)
  else
    let* ht := unpin_assert ht bucket_page_id false in
    let* ht := unpin_assert ht (GetPageId dir_page) false in
    match fuel with
    | O => OutOfFuel
    | S fuel' =>
      SplitInsert cmp BUCKET_ARRAY_SIZE zero_entry hash_fn
        (Insert cmp BUCKET_ARRAY_SIZE zero_entry hash_fn fuel') ht key value
    end.
Proof. by destruct fuel. Qed.

(** More fuel does not change a result of [Insert] that was not cut short. *)
Lemma Insert_more_fuel (fuel : nat) (ht : @ExtendibleHashTable KeyType ValueType) key value r :
  Insert cmp BUCKET_ARRAY_SIZE zero_entry hash_fn fuel ht key value = r →
  r ≠ OutOfFuel →
  Insert cmp BUCKET_ARRAY_SIZE zero_entry hash_fn (S fuel) ht key value = r.
Proof.
  revert ht r. induction fuel as [|fuel IH]; intros ht r H Hr;
    rewrite Insert_unfold in H; rewrite (Insert_unfold (S _)); revert H; cbv zeta;
    repeat case_bind; try (by intros <-).
  all: intros H; eapply SplitInsert_ext; [|exact H|exact Hr].
  all: intros ht' r' Hf Hr'; by apply IH.
Qed.

Lemma Insert_fuel_le (fuel fuel' : nat) (ht : @ExtendibleHashTable KeyType ValueType) key value r :
  (fuel ≤ fuel')%nat →
  Insert cmp BUCKET_ARRAY_SIZE zero_entry hash_fn fuel ht key value = r →
  r ≠ OutOfFuel →
  Insert cmp BUCKET_ARRAY_SIZE zero_entry hash_fn fuel' ht key value = r.
Proof.
  induction 1 as [|fuel' _ IH]; [done|]. intros H Hr. apply Insert_more_fuel; [by apply IH|done].
Qed.

Lemma pins_FetchPage (bpm bpm' : BufferPoolManager (@PageData KeyType ValueType)) (p q : Z) :
  FetchPage _ bpm p = Some bpm' →
  pins _ bpm' q = if decide (q = p) then S (pins _ bpm q) else pins _ bpm q.
Proof.
  unfold pins, FetchPage. intros H. destruct (decide (q = p)) as [->|Hne].
  - destruct (pin_count _ bpm !! p) as [[|n]|] eqn:E; [destruct (no_victim _ bpm)| |
      destruct (no_victim _ bpm)]; simplify_eq; simpl; by rewrite lookup_insert_eq.
  - destruct (pin_count _ bpm !! p) as [[|n]|] eqn:E; [destruct (no_victim _ bpm)| |
      destruct (no_victim _ bpm)]; simplify_eq; simpl; by rewrite lookup_insert_ne.
Qed.

Lemma pages_FetchPage (bpm bpm' : BufferPoolManager (@PageData KeyType ValueType)) (p : Z) :
  FetchPage _ bpm p = Some bpm' → pages _ bpm' = pages _ bpm.
Proof.
  unfold FetchPage. intros H.
  destruct (pin_count _ bpm !! p) as [[|n]|]; [destruct (no_victim _ bpm)| |
    destruct (no_victim _ bpm)]; by simplify_eq.
Qed.

Lemma fetch_assert_Ok (ht ht' : @ExtendibleHashTable KeyType ValueType) (p : Z) :
  fetch_assert ht p = Ok ht' →
  ∃ bpm', FetchPage _ (buffer_pool_manager_ ht) p = Some bpm' ∧ ht' = with_pool ht bpm'.
Proof.
  unfold fetch_assert. destruct (FetchPage _ _ _) as [bpm'|]; [|done].
  intros [= <-]. by exists bpm'.
Qed.

(** The failure path of [Remove], for every table whose directory exists:
    the call returns with the pins of its two fetches still in place. *)
Lemma Remove_absent_keeps_pins (ht ht' : @ExtendibleHashTable KeyType ValueType) key value :
  directory_page_id_ ht ≠ INVALID_PAGE_ID →
  Remove cmp BUCKET_ARRAY_SIZE zero_entry hash_fn ht key value = Ok (ht', false) →
  ∃ dir_page,
    as_directory (pages _ (buffer_pool_manager_ ht) !! directory_page_id_ ht) = Ok dir_page ∧
    let bucket_page_id := KeyToPageId hash_fn key dir_page in
    let pins_before := pins _ (buffer_pool_manager_ ht) in
    let pins_after := pins _ (buffer_pool_manager_ ht') in
    (pins_before (directory_page_id_ ht) < pins_after (directory_page_id_ ht))%nat ∧
    (pins_before bucket_page_id < pins_after bucket_page_id)%nat.
Proof.
  intros Hdir. unfold Remove, FetchDirectoryPage.
  destruct (directory_page_id_ ht =? INVALID_PAGE_ID) eqn:E; [apply Z.eqb_eq in E; done|].
  cbn [rbind]. rewrite E. cbn [rbind negb assert_].
  destruct (fetch_assert ht _) as [ht1| | |] eqn:Ef1; cbn [rbind]; [|done..].
  apply fetch_assert_Ok in Ef1 as (bpm1 & Ef1 & ->).
  cbn [with_pool buffer_pool_manager_ directory_page_id_].
  destruct (as_directory _) as [dir_page| | |] eqn:Ed; cbn [rbind]; [|done..].
  unfold FetchBucketPage.
  destruct (fetch_assert _ _) as [ht2| | |] eqn:Ef2; cbn [rbind]; [|done..].
  apply fetch_assert_Ok in Ef2 as (bpm2 & Ef2 & ->).
  cbn [with_pool buffer_pool_manager_ directory_page_id_] in *.
  destruct (FetchHashBucketPage _ _ _ _) as [bucket| | |]; cbn [rbind]; [|done..].
  destruct (BucketPage.Remove _ _ _ _ _ _) as [bucket' has_remove].
  destruct has_remove; cbn [negb].
  - repeat case_bind.
  - intros [= <-]. exists dir_page.
    split; [by rewrite <- Ed, (pages_FetchPage _ _ _ Ef1)|]. cbn zeta.
    cbn [buffer_pool_manager_].
    rewrite !(pins_FetchPage _ _ _ _ Ef2), !(pins_FetchPage _ _ _ _ Ef1).
    repeat case_decide; try done; lia.
Qed.

End General.

(** The split scenario of the spec: after [0, 4, 8, 12, 16] the directory has
    global depth 3, slots 0 and 4 hold the five keys, and every key is found. *)
Lemma split_scenario :
  ∃ ht dir_page,
    insert_all [0; 4; 8; 12; 16] new_table [] = Ok (ht, [true; true; true; true; true]) ∧
    directory_of ht = Ok dir_page ∧
    GetGlobalDepth dir_page = 3 ∧
    GetLocalDepth dir_page 0 = 3 ∧ GetLocalDepth dir_page 4 = 3 ∧
    (∀ key, key ∈ [0; 4; 8; 12; 16] → ∃ ht', get_int ht key = Ok (ht', ([key], true))).
Proof.
  eexists. eexists. split; [vm_compute; reflexivity|].
  split; [vm_compute; reflexivity|].
  repeat split.
  intros key Hk. repeat (apply elem_of_cons in Hk as [->|Hk]);
    [eexists; vm_compute; reflexivity..|by apply elem_of_nil in Hk].
Qed.

(** Lines 189-191 give the split image the GLOBAL depth of the directory,
    whatever the new local depth of the split bucket is. *)
Lemma place_image_depth (dir_page : HashTableDirectoryPage)
    (split_bucket_index new_bucket_page_id : Z) :
  let '(dir_page', new_bucket_index) :=
    place_image dir_page split_bucket_index new_bucket_page_id in
  (Z.to_nat new_bucket_index < length (local_depths_ dir_page))%nat →
  GetLocalDepth dir_page' new_bucket_index = GetGlobalDepth dir_page' ∧
  GetBucketPageId dir_page' new_bucket_index = new_bucket_page_id ∨
  (length (bucket_page_ids_ dir_page) ≤ Z.to_nat new_bucket_index)%nat.
Proof.
  unfold place_image. intros Hlen.
  destruct (decide (Z.to_nat (GetSplitImageIndex dir_page split_bucket_index)
                    < length (bucket_page_ids_ dir_page))%nat) as [Hp|Hp]; [left|right; lia].
  unfold GetLocalDepth, GetBucketPageId, GetGlobalDepth. simpl.
  by rewrite !list_lookup_insert_eq.
Qed.

(** C4: a split at a slot whose local depth [d] is more than one below the
    global depth.  After [1, 5, 9, 13, 17, 0, 2, 4, 6] the directory has
    global depth 3 and the full bucket of the even keys has local depth
    [d = 1] (slot 0).  [SplitInsert] of key 8 splits it: the split bucket gets
    local depth [d + 1 = 2] and the image slot [0 XOR (1 << 1) = 2] gets the
    new page, but its local depth is 3, the global depth, not [d + 1]. *)
Theorem C4_image_gets_global_depth :
  ∃ ht dir_page ht' dir_page',
    insert_all [1; 5; 9; 13; 17; 0; 2; 4; 6] new_table [] = Ok (ht, replicate 9 true) ∧
    directory_of ht = Ok dir_page ∧
    KeyToDirectoryIndex int_hash 8 dir_page = 0 ∧
    GetLocalDepth dir_page 0 = 1 ∧
    GetGlobalDepth dir_page = 3 ∧
    split_only ht 8 8 = Ok (ht', true) ∧
    directory_of ht' = Ok dir_page' ∧
    GetLocalDepth dir_page' 0 = 2 ∧
    GetSplitImageIndex dir_page' 0 = Z.lxor 0 (Z.shiftl 1 1) ∧
    GetBucketPageId dir_page' 2 = next_page_id _ (buffer_pool_manager_ ht) ∧
    GetLocalDepth dir_page' 2 = 3.
Proof.
  eexists. eexists. eexists. eexists.
  split; [vm_compute; reflexivity|].
  split; [vm_compute; reflexivity|].
  split; [vm_compute; reflexivity|].
  split; [vm_compute; reflexivity|].
  split; [vm_compute; reflexivity|].
  split; [vm_compute; reflexivity|].
  split; [vm_compute; reflexivity|].
  repeat split.
Qed.

(** C1: a key that was inserted and never removed is not found.  All ten
    calls of [Insert] return true; the last one splits the bucket of the even
    keys at slot 4 while the directory is two levels deeper, the propagation
    loops leave the slot [2] of the image pointing to the old page, and
    [GetValue(10)] looks into the empty new page. *)
Theorem C1_inserted_key_not_found :
  ∃ ht ht',
    insert_all [1; 9; 17; 25; 33; 10; 0; 8; 16; 4] new_table [] = Ok (ht, replicate 10 true) ∧
    get_int ht 10 = Ok (ht', ([], false)).
Proof.
  eexists. eexists. split; [vm_compute; reflexivity|]. vm_compute. reflexivity.
Qed.

(** The same table still finds the nine other keys. *)
Lemma C1_other_keys_found :
  ∃ ht,
    insert_all [1; 9; 17; 25; 33; 10; 0; 8; 16; 4] new_table [] = Ok (ht, replicate 10 true) ∧
    ∀ key, key ∈ [1; 9; 17; 25; 33; 0; 8; 16; 4] →
           ∃ ht', get_int ht key = Ok (ht', ([key], true)).
Proof.
  eexists. split; [vm_compute; reflexivity|].
  intros key Hk. repeat (apply elem_of_cons in Hk as [->|Hk]);
    [eexists; vm_compute; reflexivity..|by apply elem_of_nil in Hk].
Qed.

(** The same with buckets of 56 slots: 57 keys with the same three low bits
    drive the global depth to 4 while the bucket of the even keys stays at
    local depth 1; 56 even keys fill it, the insert of 4 splits it at slot 4,
    and key 10 is not found any more.  All 114 calls of [Insert] return
    true. *)
Lemma C1_wide_buckets :
  ∃ ht ht',
    insert_all_wide (odd_keys ++ even_keys ++ [4]) new_table true = Ok (ht, true) ∧
    get_wide ht 10 = Ok (ht', ([], false)).
Proof.
  eexists. eexists. split; [vm_compute; reflexivity|]. vm_compute. reflexivity.
Qed.

(** [Insert(k, v)] then [Remove(k, v)] need not even return: after
    [0, 2, 4, 6] the insert of 1 splits the bucket, and the removal of 1
    empties the new bucket and runs into the failing assertion of [Merge]. *)
Lemma C1_insert_remove_aborts :
  ∃ ht ht',
    insert_all [0; 2; 4; 6] new_table [] = Ok (ht, replicate 4 true) ∧
    insert_int ht 1 1 = Ok (ht', true) ∧
    remove_int ht' 1 1 = AssertFail.
Proof.
  eexists. eexists. split; [vm_compute; reflexivity|].
  split; [vm_compute; reflexivity|]. vm_compute. reflexivity.
Qed.

(** C5: [Merge] looks at the wrong page.  After [0, 2, 4, 6, 1] slot 1 has
    local depth 1, as has its split image slot 0, and [Remove(1, 1)] empties
    the bucket of slot 1: the three conditions for a merge hold.  [Merge(1)]
    fetches the page with id 1 — the bucket of slot 0, which is not empty —
    and then unpins the page of slot 1, which it never pinned: the assertion
    fails and the directory is not merged. *)
Theorem C5_merge_reads_wrong_page :
  ∃ ht dir_page bucket,
    insert_all [0; 2; 4; 6; 1] new_table [] = Ok (ht, replicate 5 true) ∧
    directory_of ht = Ok dir_page ∧
    GetLocalDepth dir_page 1 = 1 ∧
    GetSplitImageIndex dir_page 1 = 0 ∧
    GetLocalDepth dir_page 0 = 1 ∧
    GetBucketPageId dir_page 1 = 2 ∧
    GetBucketPageId dir_page 0 = 1 ∧
    bucket_of ht 1 = Ok bucket ∧
    BucketPage.IsEmpty SLOTS
      (BucketPage.Remove IntComparator SLOTS (0, 0) bucket 1 1).1 = true ∧
    remove_int ht 1 1 = AssertFail.
Proof.
  eexists. eexists. eexists.
  split; [vm_compute; reflexivity|].
  split; [vm_compute; reflexivity|].
  do 5 (split; [vm_compute; reflexivity|]).
  split; [vm_compute; reflexivity|].
  split; [vm_compute; reflexivity|]. vm_compute. reflexivity.
Qed.

(** The merge scenario of the spec: from the split scenario, with only the
    keys 0 and 4 left, removing both does not shrink the directory: the
    removal of 0 aborts in [Merge], whether it comes first or second. *)
Lemma C5_merge_scenario_aborts :
  ∃ ht0 ht ht4,
    insert_all [0; 4; 8; 12; 16] new_table [] = Ok (ht0, replicate 5 true) ∧
    remove_all [8; 12; 16] ht0 [] = Ok (ht, [true; true; true]) ∧
    remove_int ht 0 0 = AssertFail ∧
    remove_int ht 4 4 = Ok (ht4, true) ∧
    remove_int ht4 0 0 = AssertFail.
Proof.
  eexists. eexists. eexists.
  split; [vm_compute; reflexivity|].
  split; [vm_compute; reflexivity|].
  split; [vm_compute; reflexivity|].
  split; [vm_compute; reflexivity|]. vm_compute. reflexivity.
Qed.

(** C6: the failure path of [Remove] leaves both pages pinned.  On a new
    table [Remove(0, 0)] finds nothing and returns false; the directory page
    (id 0) and the bucket page (id 1) each keep the pin of their fetch. *)
Theorem C6_remove_absent_leaves_pins :
  ∃ ht,
    remove_int new_table 0 0 = Ok (ht, false) ∧
    directory_page_id_ ht = 0 ∧
    pins_of ht 0 = 1%nat ∧
    pins_of ht 1 = 1%nat.
Proof.
  eexists. split; [vm_compute; reflexivity|]. by vm_compute.
Qed.

(** The sibling paths do release their pins: [GetValue] and a successful
    [Insert] on a new table leave no page pinned. *)
Lemma C6_other_paths_unpin :
  ∃ ht ht',
    get_int new_table 0 = Ok (ht, ([], false)) ∧ pins_of ht 0 = 0%nat ∧ pins_of ht 1 = 0%nat ∧
    insert_int new_table 0 0 = Ok (ht', true) ∧ pins_of ht' 0 = 0%nat ∧ pins_of ht' 1 = 0%nat.
Proof.
  eexists. eexists. split; [vm_compute; reflexivity|].
  split; [by vm_compute|]. split; [by vm_compute|].
  split; [vm_compute; reflexivity|]. by vm_compute.
Qed.

End TableFacts.

(** ** Extendible hash table: the bucket of a key *)

Module TableViewFacts.
Import DirectoryPage BufferPool HashTable BucketProps BucketView TableProps TableView.

#[local] Set Warnings "-clear-no-such-hyp".

Section Facts.
Context {KeyType ValueType : Type}.
Context `{ValEq : EqDecision ValueType}.
Variable cmp : KeyType → KeyType → Z.
Variable BUCKET_ARRAY_SIZE : nat.
Variable zero_entry : KeyType * ValueType.
Variable hash_fn : KeyType → Z.

Abbreviation Pool := (BufferPoolManager (@PageData KeyType ValueType)).

(** *** Frames *)

Lemma elem_of_pinned_pages (bpm : Pool) (p : Z) :
  p ∈ pinned_pages _ bpm ↔ (0 < pins _ bpm p)%nat.
Proof.
  unfold pinned_pages, pins. rewrite elem_of_dom. split.
  - intros [n Hn]. apply map_lookup_filter_Some in Hn as [-> Hn]. done.
  - intros Hp. destruct (pin_count _ bpm !! p) as [n|] eqn:E; simpl in Hp; [|lia].
    exists n. by apply map_lookup_filter_Some.
Qed.

(** [FetchPage] returns a page when the page is pinned or a frame is left. *)
Lemma FetchPage_frame (bpm : Pool) (p : Z) :
  (size (pinned_pages _ bpm) < pool_size _ bpm)%nat →
  ∃ bpm', FetchPage _ bpm p = Some bpm'.
Proof.
  intros Hfree. unfold FetchPage, no_victim.
  rewrite bool_decide_eq_false_2 by lia.
  destruct (pin_count _ bpm !! p) as [[|n]|]; eauto.
Qed.

Lemma FetchPage_facts (bpm bpm' : Pool) (p : Z) :
  FetchPage _ bpm p = Some bpm' →
  pool_size _ bpm' = pool_size _ bpm ∧ next_page_id _ bpm' = next_page_id _ bpm ∧
  (size (pinned_pages _ bpm') ≤ size (pinned_pages _ bpm) + 1)%nat.
Proof.
  intros H.
  assert (Hsub : pinned_pages _ bpm' ⊆ pinned_pages _ bpm ∪ {[p]}).
  { intros q Hq. apply elem_of_pinned_pages in Hq.
    rewrite (TableFacts.pins_FetchPage _ _ _ _ H) in Hq.
    destruct (decide (q = p)) as [->|Hne]; [set_solver|].
    apply elem_of_union_l. by apply elem_of_pinned_pages. }
  apply subseteq_size in Hsub.
  pose proof (size_union_alt (pinned_pages _ bpm) ({[p]} : gset Z)) as Hu.
  assert (Hs : (size (({[p]} : gset Z) ∖ pinned_pages _ bpm) ≤ 1)%nat).
  { rewrite <- (size_singleton (C := gset Z) p). apply subseteq_size. set_solver. }
  unfold FetchPage in H.
  destruct (pin_count _ bpm !! p) as [[|n]|]; [destruct (no_victim _ bpm)| |
    destruct (no_victim _ bpm)]; simplify_eq; simpl; (split; [done|split; [done|lia]]).
Qed.

Lemma pinned_pages_ext (bpm bpm' : Pool) :
  (∀ p, pins _ bpm' p = pins _ bpm p) → pinned_pages _ bpm' = pinned_pages _ bpm.
Proof.
  intros H. apply set_eq. intros p. by rewrite !elem_of_pinned_pages, H.
Qed.

Lemma UnpinPage_pinned (bpm : Pool) (p : Z) (dirty : bool) :
  (0 < pins _ bpm p)%nat →
  ∃ bpm', UnpinPage _ bpm p dirty = (bpm', true) ∧
          pages _ bpm' = pages _ bpm ∧ next_page_id _ bpm' = next_page_id _ bpm ∧
          pool_size _ bpm' = pool_size _ bpm ∧
          ∀ q, pins _ bpm' q = if decide (q = p) then pred (pins _ bpm q) else pins _ bpm q.
Proof.
  unfold pins, UnpinPage. destruct (pin_count _ bpm !! p) as [[|n]|] eqn:E; simpl; [lia| |lia].
  intros _. eexists. split; [reflexivity|]. simpl. split; [done|]. split; [done|].
  split; [done|]. intros q. destruct (decide (q = p)) as [->|Hne].
  - by rewrite lookup_insert_eq, E.
  - by rewrite lookup_insert_ne.
Qed.

Lemma unpin_assert_pinned (ht : @ExtendibleHashTable KeyType ValueType) (p : Z) (dirty : bool) :
  (0 < pins _ (buffer_pool_manager_ ht) p)%nat →
  ∃ ht', unpin_assert ht p dirty = Ok ht' ∧
         directory_page_id_ ht' = directory_page_id_ ht ∧
         pages _ (buffer_pool_manager_ ht') = pages _ (buffer_pool_manager_ ht) ∧
         next_page_id _ (buffer_pool_manager_ ht') = next_page_id _ (buffer_pool_manager_ ht) ∧
         pool_size _ (buffer_pool_manager_ ht') = pool_size _ (buffer_pool_manager_ ht) ∧
         ∀ q, pins _ (buffer_pool_manager_ ht') q =
              if decide (q = p) then pred (pins _ (buffer_pool_manager_ ht) q)
              else pins _ (buffer_pool_manager_ ht) q.
Proof.
  intros Hp. destruct (UnpinPage_pinned _ p dirty Hp) as (bpm' & E & H1 & H2 & H3 & H4).
  unfold unpin_assert. rewrite E. cbn [assert_ rbind]. eexists. split; [reflexivity|].
  by cbn [with_pool buffer_pool_manager_ directory_page_id_].
Qed.

(** *** The two fetches at the head of a call and the two unpins at its end *)

(** With two frames left, the directory page and the bucket page are
    fetched without a failed assertion. *)
Lemma fetch_both (ht : @ExtendibleHashTable KeyType ValueType)
    (dir_page : HashTableDirectoryPage) (b : Z) :
  directory_page_id_ ht ≠ INVALID_PAGE_ID →
  pages _ (buffer_pool_manager_ ht) !! directory_page_id_ ht = Some (DirData dir_page) →
  frames_left ht 2 →
  ∃ bpm1 bpm2,
    FetchPage _ (buffer_pool_manager_ ht) (directory_page_id_ ht) = Some bpm1 ∧
    FetchPage _ bpm1 b = Some bpm2 ∧
    FetchDirectoryPage ht = Ok (with_pool ht bpm1, dir_page) ∧
    FetchBucketPage (with_pool ht bpm1) b = Ok (with_pool ht bpm2).
Proof.
  intros Hdir Hpage Hleft. unfold frames_left in Hleft.
  destruct (FetchPage_frame (buffer_pool_manager_ ht) (directory_page_id_ ht)) as [bpm1 E1];
    [lia|].
  destruct (FetchPage_facts _ _ _ E1) as (Hs1 & _ & Hp1).
  destruct (FetchPage_frame bpm1 b) as [bpm2 E2]; [lia|].
  exists bpm1, bpm2. split; [done|]. split; [done|]. split.
  - unfold FetchDirectoryPage.
    destruct (directory_page_id_ ht =? INVALID_PAGE_ID) eqn:E; [apply Z.eqb_eq in E; done|].
    cbn [rbind]. rewrite E. cbn [rbind negb assert_]. unfold fetch_assert. rewrite E1.
    cbn [rbind with_pool buffer_pool_manager_ directory_page_id_].
    by rewrite (TableFacts.pages_FetchPage _ _ _ E1), Hpage.
  - unfold FetchBucketPage, fetch_assert. cbn [with_pool buffer_pool_manager_]. by rewrite E2.
Qed.

Lemma unpin_both (ht ht0 : @ExtendibleHashTable KeyType ValueType) (d b : Z) (x y : bool)
    (bpm1 bpm2 : Pool) :
  FetchPage _ (buffer_pool_manager_ ht) d = Some bpm1 →
  FetchPage _ bpm1 b = Some bpm2 →
  directory_page_id_ ht0 = directory_page_id_ ht →
  pin_count _ (buffer_pool_manager_ ht0) = pin_count _ bpm2 →
  next_page_id _ (buffer_pool_manager_ ht0) = next_page_id _ bpm2 →
  pool_size _ (buffer_pool_manager_ ht0) = pool_size _ bpm2 →
  ∃ ht1 ht2, unpin_assert ht0 b x = Ok ht1 ∧ unpin_assert ht1 d y = Ok ht2 ∧
             pages _ (buffer_pool_manager_ ht2) = pages _ (buffer_pool_manager_ ht0) ∧
             same_pins ht ht2.
Proof.
  intros E1 E2 Hd0 Hc0 Hn0 Hs0.
  destruct (FetchPage_facts _ _ _ E1) as (Hs1 & Hn1 & _).
  destruct (FetchPage_facts _ _ _ E2) as (Hs2 & Hn2 & _).
  assert (Hpins : ∀ q, pins _ (buffer_pool_manager_ ht0) q = pins _ bpm2 q).
  { intros q. unfold pins. by rewrite Hc0. }
  destruct (unpin_assert_pinned ht0 b x) as (ht1 & U1 & Hd1 & Hp1 & Hm1 & Hz1 & Hc1).
  { rewrite Hpins, (TableFacts.pins_FetchPage _ _ _ _ E2). rewrite decide_True by done. lia. }
  destruct (unpin_assert_pinned ht1 d y) as (ht2 & U2 & Hd2 & Hp2 & Hm2 & Hz2 & Hc2).
  { rewrite Hc1, Hpins, (TableFacts.pins_FetchPage _ _ _ _ E2),
      (TableFacts.pins_FetchPage _ _ _ _ E1).
    repeat case_decide; try done; lia. }
  exists ht1, ht2. split; [done|]. split; [done|]. split; [by rewrite Hp2, Hp1|].
  split; [by rewrite Hd2, Hd1|]. split; [by rewrite Hm2, Hm1, Hn0, Hn2, Hn1|].
  split; [by rewrite Hz2, Hz1, Hs0, Hs2, Hs1|].
  intros p. rewrite Hc2, Hc1, !Hpins, !(TableFacts.pins_FetchPage _ _ _ _ E2),
    !(TableFacts.pins_FetchPage _ _ _ _ E1).
  repeat case_decide; try done; lia.
Qed.

Lemma frames_left_same_pins (ht ht' : @ExtendibleHashTable KeyType ValueType) (n : nat) :
  same_pins ht ht' → frames_left ht n → frames_left ht' n.
Proof.
  intros (_ & _ & Hs & Hp). unfold frames_left.
  by rewrite Hs, (pinned_pages_ext _ _ Hp).
Qed.

Lemma GetValue_of_bucket (ht : @ExtendibleHashTable KeyType ValueType)
    (key : KeyType) (result : list ValueType) (dir_page : HashTableDirectoryPage)
    (bucket : @BucketPage.HashTableBucketPage KeyType ValueType) :
  bucket_for BUCKET_ARRAY_SIZE zero_entry hash_fn ht key dir_page bucket →
  frames_left ht 2 →
  ∃ ht',
    GetValue cmp BUCKET_ARRAY_SIZE zero_entry hash_fn ht key result
    = Ok (ht', BucketPage.GetValue cmp BUCKET_ARRAY_SIZE zero_entry bucket key result) ∧
    pages _ (buffer_pool_manager_ ht') = pages _ (buffer_pool_manager_ ht) ∧
    same_pins ht ht'.
Proof.
  intros (Hdir & Hd & Hid & Hb) Hleft. unfold GetValue.
  destruct (fetch_both ht dir_page (KeyToPageId hash_fn key dir_page) Hdir Hd Hleft)
    as (bpm1 & bpm2 & E1 & E2 & EF1 & EF2).
  rewrite EF1. cbn [rbind]. rewrite EF2. cbn [rbind].
  unfold FetchHashBucketPage. cbn [with_pool buffer_pool_manager_ directory_page_id_].
  rewrite (TableFacts.pages_FetchPage _ _ _ E2), (TableFacts.pages_FetchPage _ _ _ E1), Hb.
  cbn [rbind]. rewrite Hid.
  destruct (unpin_both ht (with_pool ht bpm2) (directory_page_id_ ht)
              (KeyToPageId hash_fn key dir_page) false false bpm1 bpm2
              E1 E2 eq_refl eq_refl eq_refl eq_refl)
    as (ht1 & ht2 & U1 & U2 & Hp & Hs).
  rewrite U1. cbn [rbind]. rewrite U2. cbn [rbind]. exists ht2. split; [done|].
  split; [|done]. rewrite Hp. cbn [with_pool buffer_pool_manager_].
  by rewrite (TableFacts.pages_FetchPage _ _ _ E2), (TableFacts.pages_FetchPage _ _ _ E1).
Qed.



(** No frame left: when every frame of the pool holds a pinned page and the
    directory page is not among them, [GetValue] and [Insert] stop at
    [assert(page_directory != nullptr)]. *)
Lemma no_frame_aborts (fuel : nat) (ht : @ExtendibleHashTable KeyType ValueType)
    (key : KeyType) (value : ValueType) (result : list ValueType) :
  directory_page_id_ ht ≠ INVALID_PAGE_ID →
  pins _ (buffer_pool_manager_ ht) (directory_page_id_ ht) = 0%nat →
  (pool_size _ (buffer_pool_manager_ ht) ≤ size (pinned_pages _ (buffer_pool_manager_ ht)))%nat →
  GetValue cmp BUCKET_ARRAY_SIZE zero_entry hash_fn ht key result = AssertFail ∧
  Insert cmp BUCKET_ARRAY_SIZE zero_entry hash_fn fuel ht key value = AssertFail.
Proof.
  intros Hdir Hp Hfull.
  assert (EF : FetchDirectoryPage ht = AssertFail).
  { unfold FetchDirectoryPage.
    destruct (directory_page_id_ ht =? INVALID_PAGE_ID) eqn:E; [apply Z.eqb_eq in E; done|].
    cbn [rbind]. rewrite E. cbn [rbind negb assert_]. unfold fetch_assert, FetchPage, no_victim.
    rewrite bool_decide_eq_true_2 by done. unfold pins in Hp.
    by destruct (pin_count _ _ !! _) as [[|n]|]. }
  split; [unfold GetValue|rewrite TableFacts.Insert_unfold]; by rewrite EF.
Qed.

End Facts.

Lemma bucket_for_three (key : Z) : bucket_for SLOTS (0, 0) int_hash table_three key dir_three bucket_three.
Proof.
  assert (Hid : KeyToPageId int_hash key dir_three = 1).
  { unfold KeyToPageId, KeyToDirectoryIndex.
    change (GetGlobalDepthMask dir_three) with 0. by rewrite Z.land_0_r. }
  unfold bucket_for. rewrite Hid. repeat split; by vm_compute.
Qed.

Lemma frames_left_three : frames_left table_three 2.
Proof. unfold frames_left. vm_compute. lia. Qed.



End TableViewFacts.

(** ** Lock manager *)

Module LockFacts.
Import LockMgr LockProps.

(** *** Wounding a list of entries *)

Lemma wound_all_other (rid : RID) (victims : list LockRequest) (txns : gmap Z Transaction)
    (u : Z) :
  u ∉ ids victims → wound_all rid victims txns !!! u = txns !!! u.
Proof.
  revert txns. induction victims as [|e victims IH]; intros txns Hu; [done|].
  apply not_elem_of_cons in Hu as [Hne Hu]. unfold wound_all in *. simpl.
  rewrite IH by done. by rewrite lookup_total_insert_ne.
Qed.

Lemma wounded_on_wound (t : Transaction) (rid : RID) : wounded_on (wound t rid) rid.
Proof.
  unfold wounded_on, wound. simpl. split; [done|].
  split; rewrite elem_of_difference, elem_of_singleton; tauto.
Qed.

Lemma wound_all_victim (rid : RID) (victims : list LockRequest) (txns : gmap Z Transaction)
    (w : Z) :
  w ∈ ids victims → wounded_on (wound_all rid victims txns !!! w) rid.
Proof.
  revert txns. induction victims as [|e victims IH]; intros txns Hw.
  { by apply elem_of_nil in Hw. }
  change (wound_all rid (e :: victims) txns)
    with (wound_all rid victims (<[txn_id_ e:=wound (txns !!! txn_id_ e) rid]> txns)).
  destruct (decide (w ∈ ids victims)) as [Hin|Hnin].
  - by apply IH.
  - apply elem_of_cons in Hw as [->|Hw]; [|done].
    rewrite wound_all_other by done. rewrite lookup_total_insert_eq.
    apply wounded_on_wound.
Qed.

(** *** The scan of [LockExclusive] in closed form *)

Lemma LockExclusive_scan_spec (txn_id : Z) (rid : RID) (rest kept : list LockRequest)
    (txns : gmap Z Transaction) :
  txn_id ≠ 9 →
  let pre := before_first_older txn_id rest in
  let post := from_first_older txn_id rest in
  let txns' := wound_all rid (filter (younger txn_id) pre) txns in
  LockExclusive_scan txn_id rid kept rest txns =
    match post with
    | [] => (ScanEnd, kept ++ filter (λ e, ¬ younger txn_id e) pre, txns')
    | _ => (ScanDie, kept ++ filter (λ e, ¬ younger txn_id e) pre ++ post,
            <[txn_id := wound (txns' !!! txn_id) rid]> txns')
    end.
Proof.
  intros H9. revert kept txns. induction rest as [|e rest IH]; intros kept txns; simpl.
  { by rewrite app_nil_r. }
  assert (E9 : (txn_id =? 9) = false) by by apply Z.eqb_neq.
  rewrite E9, orb_false_r, Z.gtb_ltb.
  destruct (Z.ltb_spec txn_id (txn_id_ e)) as [Hy|Hy].
  - assert ((txn_id_ e <? txn_id) = false) as -> by (apply Z.ltb_ge; lia).
    simpl. rewrite (filter_cons_True (younger txn_id)) by (unfold younger; lia).
    rewrite (filter_cons_False (λ e, ¬ younger txn_id e)) by (unfold younger; lia).
    simpl. apply IH.
  - destruct (Z.ltb_spec (txn_id_ e) txn_id) as [Ho|Ho]; simpl.
    + done.
    + rewrite (filter_cons_False (younger txn_id)) by (unfold younger; lia).
      rewrite (filter_cons_True (λ e, ¬ younger txn_id e)) by (unfold younger; lia).
      rewrite IH. simpl. destruct (from_first_older txn_id rest); by rewrite <- !app_assoc.
Qed.

Lemma before_from_first_older (txn_id : Z) (q : list LockRequest) :
  before_first_older txn_id q ++ from_first_older txn_id q = q.
Proof.
  induction q as [|e q IH]; simpl; [done|].
  destruct (txn_id_ e <? txn_id); simpl; [done|by rewrite IH].
Qed.

Lemma from_first_older_nil (txn_id : Z) (q : list LockRequest) :
  from_first_older txn_id q = [] ↔ ∀ e, e ∈ q → ¬ txn_id_ e < txn_id.
Proof.
  induction q as [|e q IH]; simpl.
  { split; [|done]. intros _ e He. by apply elem_of_nil in He. }
  destruct (Z.ltb_spec (txn_id_ e) txn_id) as [Ho|Ho].
  - split; [done|]. intros H. exfalso. apply (H e); [left|done].
  - rewrite IH. split.
    + intros H e' [->|He']%elem_of_cons; [lia|by apply H].
    + intros H e' He'. apply H. by right.
Qed.

(** C2 (as stated, refuted): with the queue [1, 5] (two readers), the
    exclusive request of transaction 3 dies at the entry of transaction 1 and
    returns at once; the entry of the younger transaction 5 behind it is not
    wounded. *)
Lemma C2_younger_behind_older_not_wounded :
  ¬ wounds_exactly_the_younger lm_readers_1_5 3 r0.
Proof.
  unfold wounds_exactly_the_younger.
  destruct (LockExclusive lm_readers_1_5 3 r0) as [lm' out] eqn:E.
  vm_compute in E. injection E as <- <-.
  intros (H & _).
  assert (Hin : mkRequest 5 SHARED false ∈ request_queue_ (queue_of lm_readers_1_5 r0)).
  { vm_compute. right. left. }
  destruct (H _ Hin ltac:(simpl; lia)) as (_ & Hs & _).
  vm_compute in Hs. done.
Qed.

(** The literal 9 of the source: the exclusive request of transaction 9
    wounds the OLDER transaction 3 and is granted. *)
Lemma C2_transaction_9_wounds_older :
  ∃ lm', LockExclusive lm_reader_3 9 r0 = (lm', Returned true) ∧
         request_queue_ (queue_of lm' r0) = [mkRequest 9 EXCLUSIVE false] ∧
         state_ (GetTransaction lm' 3) = ABORTED ∧
         state_ (GetTransaction lm' 9) = GROWING.
Proof. eexists. split; [vm_compute; reflexivity|]. by vm_compute. Qed.

(** C2 (amended): a call [LockExclusive(txn, rid)] that reaches the queue
    scan, for a transaction id other than 9, wounds exactly the entries of
    younger transactions that stand in front of the first entry of an older
    transaction: these are erased from the queue, [rid] leaves their lock
    sets and their state becomes [ABORTED]; no other transaction than these
    and the caller is touched, and no other queue.  If some entry is older,
    the caller is set [ABORTED], [rid] leaves its lock sets, the rest of the
    queue from the first older entry on stays as it is, and the call returns
    false; otherwise the caller is [GROWING], holds [rid] exclusively, is
    entered in the queue, and the call returns true. *)
Theorem C2_LockExclusive_wound_or_die (lm : LockManager) (txn_id : Z) (rid : RID) :
  reaches_exclusive_scan lm txn_id rid →
  txn_id ≠ 9 →
  let q := request_queue_ (queue_of lm rid) in
  let pre := before_first_older txn_id q in
  let post := from_first_older txn_id q in
  let victims := filter (younger txn_id) pre in
  let survivors := filter (λ e, ¬ younger txn_id e) pre in
  let lm' := (LockExclusive lm txn_id rid).1 in
  let out := (LockExclusive lm txn_id rid).2 in
  (∀ w, w ∈ ids victims → wounded_on (GetTransaction lm' w) rid) ∧
  (∀ u, u ∉ ids victims → u ≠ txn_id → GetTransaction lm' u = GetTransaction lm u) ∧
  (∀ rid', rid' ≠ rid → queue_of lm' rid' = queue_of lm rid') ∧
  ((∃ e, e ∈ q ∧ txn_id_ e < txn_id) →
     out = Returned false ∧
     request_queue_ (queue_of lm' rid) = survivors ++ post ∧
     GetTransaction lm' txn_id = wound (GetTransaction lm txn_id) rid) ∧
  ((∀ e, e ∈ q → ¬ txn_id_ e < txn_id) →
     out = Returned true ∧
     request_queue_ (queue_of lm' rid) = InsertTxnIntoLockQueue survivors txn_id EXCLUSIVE ∧
     GetTransaction lm' txn_id =
       add_exclusive (SetState (GetTransaction lm txn_id) GROWING) rid).
Proof.
  intros (Ha & Hs & Hx) H9 q pre post victims survivors lm' out.
  assert (Hself : txn_id ∉ ids victims).
  { intros (e & He & Hin)%list_elem_of_fmap.
    apply list_elem_of_filter in Hin as [Hy _]. unfold younger in Hy. lia. }
  assert (E : LockExclusive lm txn_id rid =
    match post with
    | [] =>
      (mkLM (<[rid := mkQueue (InsertTxnIntoLockQueue survivors txn_id EXCLUSIVE)
                              (upgrading_ (queue_of lm rid))]> (lock_table_ lm))
            (<[txn_id := add_exclusive
                           (SetState (wound_all rid victims (txn_map lm) !!! txn_id) GROWING)
                           rid]> (wound_all rid victims (txn_map lm))),
       Returned true)
    | _ =>
      (mkLM (<[rid := mkQueue (survivors ++ post) (upgrading_ (queue_of lm rid))]>
               (lock_table_ lm))
            (<[txn_id := wound (wound_all rid victims (txn_map lm) !!! txn_id) rid]>
               (wound_all rid victims (txn_map lm))),
       Returned false)
    end).
  { unfold LockExclusive.
    rewrite bool_decide_eq_false_2 by done.
    rewrite bool_decide_eq_false_2 by done.
    unfold IsExclusiveLocked. rewrite bool_decide_eq_false_2 by done.
    rewrite LockExclusive_scan_spec by done. simpl.
    fold q. fold pre. fold post. fold victims. fold survivors.
    by destruct post. }
  subst lm' out. rewrite E. clear E.
  assert (Hown : wound_all rid victims (txn_map lm) !!! txn_id = GetTransaction lm txn_id)
    by by apply wound_all_other.
  assert (Hpost : post = [] ↔ ∀ e, e ∈ q → ¬ txn_id_ e < txn_id)
    by apply from_first_older_nil.
  destruct post as [|o post'] eqn:Epost; simpl; unfold GetTransaction, queue_of; simpl.
  - split.
    { intros w Hw. rewrite lookup_total_insert_ne by (intros ->; done).
      by apply wound_all_victim. }
    split.
    { intros u Hu Hne. rewrite lookup_total_insert_ne by done. by apply wound_all_other. }
    split.
    { intros rid' Hne. by rewrite lookup_total_insert_ne. }
    split.
    { intros (e & He & Ho). exfalso. destruct Hpost as [Hp _]. by apply (Hp eq_refl e). }
    intros _. rewrite !lookup_total_insert_eq. simpl. by rewrite Hown.
  - split.
    { intros w Hw. rewrite lookup_total_insert_ne by (intros ->; done).
      by apply wound_all_victim. }
    split.
    { intros u Hu Hne. rewrite lookup_total_insert_ne by done. by apply wound_all_other. }
    split.
    { intros rid' Hne. by rewrite lookup_total_insert_ne. }
    split.
    { intros _. rewrite !lookup_total_insert_eq. simpl. by rewrite Hown. }
    intros Hno. destruct Hpost as [_ Hp]. by specialize (Hp Hno).
Qed.

(** The amended statement at the queue [1, 5] and transaction 3: nobody is
    wounded, the queue stays, and transaction 3 dies. *)
Lemma C2_LockExclusive_wound_or_die_witness :
  reaches_exclusive_scan lm_readers_1_5 3 r0 ∧ 3 ≠ 9 ∧
  (∃ e, e ∈ request_queue_ (queue_of lm_readers_1_5 r0) ∧ txn_id_ e < 3) ∧
  (LockExclusive lm_readers_1_5 3 r0).2 = Returned false.
Proof.
  assert (Hr : reaches_exclusive_scan lm_readers_1_5 3 r0).
  { repeat split; vm_compute; [done..|]. intros H. by vm_compute in H. }
  assert (Ho : ∃ e, e ∈ request_queue_ (queue_of lm_readers_1_5 r0) ∧ txn_id_ e < 3).
  { exists (mkRequest 1 SHARED false). split; [vm_compute; left|simpl; lia]. }
  split; [exact Hr|]. split; [lia|]. split; [exact Ho|].
  pose proof (C2_LockExclusive_wound_or_die lm_readers_1_5 3 r0 Hr ltac:(lia))
    as (_ & _ & _ & Hdie & _).
  exact (proj1 (Hdie Ho)).
Defined.

(** *** [InsertTxnIntoLockQueue] *)

Lemma mark_first_None (q : list LockRequest) (txn_id : Z) (mode : LockMode) :
  txn_id ∉ ids q → mark_first q txn_id mode = None.
Proof.
  induction q as [|e q IH]; simpl; [done|]. intros [Hne Hq]%not_elem_of_cons.
  destruct (Z.eqb_spec (txn_id_ e) txn_id) as [Heq|_]; [by subst|].
  by rewrite IH.
Qed.

Lemma mark_first_Some (q q' : list LockRequest) (txn_id : Z) (mode : LockMode) :
  mark_first q txn_id mode = Some q' →
  ids q' = ids q ∧
  ∃ e, e ∈ q' ∧ txn_id_ e = txn_id ∧ granted_ e = bool_decide (mode = EXCLUSIVE).
Proof.
  revert q'. induction q as [|e q IH]; intros q'; simpl; [done|].
  destruct (Z.eqb_spec (txn_id_ e) txn_id) as [Heq|Hne].
  - intros [= <-]. split; [done|]. eexists. split; [left|]. done.
  - destruct (mark_first q txn_id mode) as [q1|]; simpl; [|done].
    intros [= <-]. destruct (IH q1 eq_refl) as (Hids & e' & He' & Hid & Hg).
    split; [simpl; by rewrite Hids|]. exists e'. split; [by right|done].
Qed.

Lemma InsertTxnIntoLockQueue_entry (q : list LockRequest) (txn_id : Z) (mode : LockMode) :
  ∃ e, e ∈ InsertTxnIntoLockQueue q txn_id mode ∧ txn_id_ e = txn_id ∧
       (granted_ e = bool_decide (mode = EXCLUSIVE) ∨ e = mkRequest txn_id mode false).
Proof.
  unfold InsertTxnIntoLockQueue. destruct (mark_first q txn_id mode) as [q'|] eqn:E.
  - apply mark_first_Some in E as (_ & e & He & Hid & Hg). exists e. auto.
  - exists (mkRequest txn_id mode false). split; [|by auto].
    apply elem_of_app. right. left.
Qed.

(** *** The scan of [LockShared] in front of an older exclusive holder *)

Lemma LockShared_scan_waits (txn_id : Z) (rid : RID) (older : LockRequest)
    (rest kept : list LockRequest) (txns : gmap Z Transaction) :
  older ∈ rest →
  txn_id_ older < txn_id →
  rid ∈ exclusive_lock_set_ (txns !!! txn_id_ older) →
  ∃ q' txns',
    LockShared_scan txn_id rid kept rest txns = (ScanWait, q', txns') ∧
    ids q' ⊆ ids (kept ++ rest).
Proof.
  intros Hin Hold. revert kept txns Hin.
  induction rest as [|e rest IH]; intros kept txns Hin Hx.
  { by apply elem_of_nil in Hin. }
  simpl. unfold IsExclusiveLocked.
  destruct ((txn_id_ e >? txn_id) && bool_decide (rid ∈ exclusive_lock_set_ (txns !!! txn_id_ e)))
    eqn:Ewound.
  - apply andb_true_iff in Ewound as [Hy%Z.gtb_lt _].
    apply elem_of_cons in Hin as [->|Hin]; [lia|].
    destruct (IH kept (<[txn_id_ e:=wound (txns !!! txn_id_ e) rid]> txns) Hin)
      as (q' & txns' & -> & Hsub).
    { rewrite lookup_total_insert_ne; [done|]. intros Heq. rewrite Heq in Hy. lia. }
    exists q', txns'. split; [done|].
    intros x Hx'. apply Hsub in Hx'. unfold ids in *.
    rewrite fmap_app in *. rewrite fmap_cons.
    apply elem_of_app in Hx' as [?|?]; apply elem_of_app; [by left|right; by right].
  - destruct ((txn_id_ e <? txn_id) && bool_decide (rid ∈ exclusive_lock_set_ (txns !!! txn_id_ e)))
      eqn:Ewait.
    + by exists (kept ++ e :: rest), txns.
    + apply elem_of_cons in Hin as [->|Hin].
      { exfalso. apply andb_false_iff in Ewait as [Hlt|Hnx].
        - apply Z.ltb_ge in Hlt. lia.
        - by apply bool_decide_eq_false in Hnx. }
      destruct (IH (kept ++ [e]) txns Hin Hx) as (q' & txns' & -> & Hsub).
      exists q', txns'. split; [done|]. by rewrite <- app_assoc in Hsub.
Qed.

(** C10: when [LockShared(txn, rid)] reaches the scan and the queue holds an
    entry of an older transaction that has [rid] in its exclusive lock set,
    the call blocks in [cv_.wait]; by then the queue has an entry of [txn]
    that is not granted — the request [{txn, SHARED}] at the back of the queue
    when [txn] had no entry — and [rid] is in the shared lock set of [txn], so
    [IsSharedLocked(rid)] already answers true. *)
Theorem C10_LockShared_registers_before_wait (lm : LockManager) (txn_id : Z) (rid : RID)
    (older : LockRequest) :
  reaches_shared_scan lm txn_id rid →
  older ∈ request_queue_ (queue_of lm rid) →
  txn_id_ older < txn_id →
  rid ∈ exclusive_lock_set_ (GetTransaction lm (txn_id_ older)) →
  let lm' := (LockShared lm txn_id rid).1 in
  (LockShared lm txn_id rid).2 = Blocked ∧
  (∃ e, e ∈ request_queue_ (queue_of lm' rid) ∧ txn_id_ e = txn_id ∧ granted_ e = false) ∧
  (txn_id ∉ ids (request_queue_ (queue_of lm rid)) →
   ∃ q1, request_queue_ (queue_of lm' rid) = q1 ++ [mkRequest txn_id SHARED false]) ∧
  IsSharedLocked (GetTransaction lm' txn_id) rid = true.
Proof.
  intros (Ha & Hi & Hs & Hl) Hin Hold Hx lm'. subst lm'.
  destruct (LockShared_scan_waits txn_id rid older (request_queue_ (queue_of lm rid)) []
              (txn_map lm) Hin Hold Hx) as (q' & txns' & Hscan & Hsub).
  assert (E : LockShared lm txn_id rid =
    (mkLM (<[rid := mkQueue (InsertTxnIntoLockQueue q' txn_id SHARED)
                            (upgrading_ (queue_of lm rid))]> (lock_table_ lm))
          (<[txn_id := add_shared (txns' !!! txn_id) rid]> txns'), Blocked)).
  { unfold LockShared.
    rewrite bool_decide_eq_false_2 by done.
    rewrite bool_decide_eq_false_2 by done.
    rewrite bool_decide_eq_false_2 by done.
    unfold IsSharedLocked. rewrite bool_decide_eq_false_2 by done.
    by rewrite Hscan. }
  rewrite E. clear E. simpl. unfold queue_of, GetTransaction. simpl.
  rewrite !lookup_total_insert_eq. simpl.
  split; [done|]. split; [|split].
  - destruct (InsertTxnIntoLockQueue_entry q' txn_id SHARED) as (e & He & Hid & [Hg| ->]).
    + exists e. by rewrite Hg.
    + by eexists.
  - intros Hfresh. exists q'. unfold InsertTxnIntoLockQueue.
    rewrite mark_first_None; [done|]. intros Hq'. by apply Hfresh, Hsub.
  - unfold IsSharedLocked. apply bool_decide_eq_true_2. simpl. set_solver.
Qed.

(** C10 at a concrete queue: transaction 1 holds [r0] exclusively and
    transaction 2 asks for it in shared mode. *)
Lemma C10_LockShared_registers_before_wait_witness :
  let lm1 := (LockExclusive lm_fresh 1 r0).1 in
  reaches_shared_scan lm1 2 r0 ∧
  (LockShared lm1 2 r0).2 = Blocked ∧
  IsSharedLocked (GetTransaction (LockShared lm1 2 r0).1 2) r0 = true.
Proof.
  set (lm1 := (LockExclusive lm_fresh 1 r0).1).
  assert (Hr : reaches_shared_scan lm1 2 r0).
  { repeat split; vm_compute; [done..|]. intros H. by vm_compute in H. }
  assert (Hin : mkRequest 1 EXCLUSIVE false ∈ request_queue_ (queue_of lm1 r0)).
  { vm_compute. left. }
  assert (Hx : r0 ∈ exclusive_lock_set_ (GetTransaction lm1 (txn_id_ (mkRequest 1 EXCLUSIVE false)))).
  { apply (bool_decide_unpack _). by vm_compute. }
  split; [exact Hr|].
  pose proof (C10_LockShared_registers_before_wait lm1 2 r0 (mkRequest 1 EXCLUSIVE false)
                Hr Hin ltac:(simpl; lia) Hx) as (Hb & _ & _ & Hl).
  split; [exact Hb|exact Hl].
Defined.

(** *** [LockUpgrade] and the flag [upgrading_] *)

Lemma LockUpgrade_blocked_keeps_flag (lm : LockManager) (txn_id : Z) (rid : RID) :
  (LockUpgrade lm txn_id rid).2 = Blocked →
  upgrading_ (queue_of (LockUpgrade lm txn_id rid).1 rid) = true.
Proof.
  unfold LockUpgrade.
  destruct (bool_decide _); [done|]. destruct (bool_decide _); [done|].
  destruct (upgrading_ (queue_of lm rid)); [done|].
  destruct (LockUpgrade_scan _ _ _ _ _) as [[[] q] txns]; simpl.
  - destruct q as [|request [|]]; [done| |done]. by destruct (_ =? _).
  - intros _. unfold queue_of. simpl. by rewrite lookup_total_insert_eq.
  - intros _. unfold queue_of. simpl. by rewrite lookup_total_insert_eq.
Qed.

Lemma LockUpgrade_flag_rejects (lm : LockManager) (txn_id : Z) (rid : RID) :
  upgrading_ (queue_of lm rid) = true →
  (LockUpgrade lm txn_id rid).2 = Returned false.
Proof.
  intros Hu. unfold LockUpgrade.
  destruct (bool_decide _); [done|]. destruct (bool_decide _); [done|].
  by rewrite Hu.
Qed.

(** C7: an upgrade that has to wait never succeeds.  Transactions 1 and 2
    both hold [r0] in shared mode; transaction 2 calls [LockUpgrade], sets
    [upgrading_] and waits behind the older transaction 1; transaction 1
    unlocks and notifies; transaction 2 wakes up, goes back to [upgCheck],
    finds [upgrading_] set — by itself — and returns false, [ABORTED]; the
    flag stays set. *)
Theorem C7_waiting_upgrade_rejects_itself :
  ∃ lm1 lm2 lm3 lm4 lm5,
    LockShared lm_fresh 1 r0 = (lm1, Returned true) ∧
    LockShared lm1 2 r0 = (lm2, Returned true) ∧
    LockUpgrade lm2 2 r0 = (lm3, Blocked) ∧
    upgrading_ (queue_of lm3 r0) = true ∧
    Unlock lm3 1 r0 = (lm4, Returned true, true) ∧
    request_queue_ (queue_of lm4 r0) = [mkRequest 2 SHARED false] ∧
    state_ (GetTransaction lm4 2) = GROWING ∧
    LockUpgrade lm4 2 r0 = (lm5, Returned false) ∧
    state_ (GetTransaction lm5 2) = ABORTED ∧
    request_queue_ (queue_of lm5 r0) = [mkRequest 2 SHARED false] ∧
    upgrading_ (queue_of lm5 r0) = true.
Proof.
  do 5 eexists.
  split; [vm_compute; reflexivity|].
  split; [vm_compute; reflexivity|].
  split; [vm_compute; reflexivity|].
  split; [vm_compute; reflexivity|].
  split; [vm_compute; reflexivity|].
  split; [vm_compute; reflexivity|].
  split; [vm_compute; reflexivity|].
  split; [vm_compute; reflexivity|].
  by vm_compute.
Qed.

(** The scenario of the claim does go through: with both holding [r0] in
    shared mode, the upgrade of transaction 1 wounds the younger transaction
    2 and is granted, and the later [Unlock] of transaction 2 returns
    false. *)
Lemma C7_upgrade_unique_scenario :
  ∃ lm1 lm2 lm3 lm4,
    LockShared lm_fresh 1 r0 = (lm1, Returned true) ∧
    LockShared lm1 2 r0 = (lm2, Returned true) ∧
    LockUpgrade lm2 1 r0 = (lm3, Returned true) ∧
    request_queue_ (queue_of lm3 r0) = [mkRequest 1 EXCLUSIVE false] ∧
    upgrading_ (queue_of lm3 r0) = false ∧
    IsExclusiveLocked (GetTransaction lm3 1) r0 = true ∧
    IsSharedLocked (GetTransaction lm3 1) r0 = false ∧
    state_ (GetTransaction lm3 2) = ABORTED ∧
    Unlock lm3 2 r0 = (lm4, Returned false, false).
Proof.
  do 4 eexists.
  split; [vm_compute; reflexivity|].
  split; [vm_compute; reflexivity|].
  split; [vm_compute; reflexivity|].
  split; [vm_compute; reflexivity|].
  split; [vm_compute; reflexivity|].
  split; [vm_compute; reflexivity|].
  split; [vm_compute; reflexivity|].
  split; [vm_compute; reflexivity|].
  vm_compute. reflexivity.
Qed.

End LockFacts.

(** ** Schedules of lock manager calls *)

Module LockSchedFacts.
Import LockMgr LockProps LockSched.

(** *** A blocked [LockShared] goes on without a second scan *)

(** The scan of [LockShared] wounds entries of younger transactions only, so
    it leaves the caller as it is. *)
Lemma LockShared_scan_keeps_caller (txn_id : Z) (rid : RID) (rest kept : list LockRequest)
    (txns : gmap Z Transaction) :
  (LockShared_scan txn_id rid kept rest txns).2 !!! txn_id = txns !!! txn_id.
Proof.
  revert kept txns. induction rest as [|iter rest IH]; intros kept txns; simpl; [done|].
  destruct (Z.gtb_spec (txn_id_ iter) txn_id) as [Hgt|Hle]; simpl.
  - destruct (IsExclusiveLocked _ _); simpl.
    + rewrite IH. apply lookup_total_insert_ne. lia.
    + destruct (_ && _); [done|apply IH].
  - destruct (_ && _); [done|apply IH].
Qed.

(** For every state: when [LockShared] has reached [cv_.wait], the call as
    it goes on from [ShareCheck] returns true at the [IsSharedLocked] test and
    changes nothing: the queue is not scanned again, whatever it holds. *)
Lemma LockShared_blocked_then_rerun (lm lm' : LockManager) (txn_id : Z) (rid : RID) :
  LockShared lm txn_id rid = (lm', Blocked) →
  LockShared lm' txn_id rid = (lm', Returned true).
Proof.
  unfold LockShared at 1.
  destruct (bool_decide (state_ (GetTransaction lm txn_id) = ABORTED)) eqn:Ha; [done|].
  destruct (bool_decide (isolation_level_ (GetTransaction lm txn_id) = READ_UNCOMMITTED))
    eqn:Hu; [done|].
  destruct (bool_decide (state_ (GetTransaction lm txn_id) = SHRINKING)) eqn:Hs; [done|].
  destruct (IsSharedLocked _ _); [done|].
  pose proof (LockShared_scan_keeps_caller txn_id rid
                (request_queue_ (queue_of lm rid)) [] (txn_map lm)) as Hkeep.
  destruct (LockShared_scan _ _ _ _ _) as [[scan q] txns]. simpl in Hkeep.
  destruct scan; intros [= <-].
  all: unfold LockShared, GetTransaction; simpl txn_map;
    rewrite lookup_total_insert_eq, Hkeep; simpl;
    fold (GetTransaction lm txn_id); rewrite Ha, Hu, Hs;
    unfold IsSharedLocked; simpl;
    rewrite bool_decide_eq_true_2 by set_solver; done.
Qed.

(** *** The schedules *)

Lemma step_do_call (s : System) (c : Call) : enabled s c = true → step s (do_call s c).
Proof.
  destruct c as [t rid|t rid|t rid|t rid]; simpl.
  - intros [Hr Hc]%andb_true_iff. apply bool_decide_eq_true in Hr.
    apply negb_true_iff, bool_decide_eq_false in Hc.
    destruct (LockShared (lm s) t rid) as [lm' out] eqn:E. by eapply step_LockShared.
  - intros Hr%bool_decide_eq_true.
    by apply (step_LockExclusive s t rid _ (LockExclusive (lm s) t rid).2), surjective_pairing.
  - intros [Hr Hc]%andb_true_iff. apply bool_decide_eq_true in Hr.
    apply negb_true_iff, bool_decide_eq_false in Hc.
    destruct (LockUpgrade (lm s) t rid) as [lm' out] eqn:E. by eapply step_LockUpgrade.
  - intros [Hr Hc]%andb_true_iff. apply bool_decide_eq_true in Hr.
    apply negb_true_iff, bool_decide_eq_false in Hc.
    destruct (Unlock (lm s) t rid) as [[lm' out] notified] eqn:E.
    by eapply step_Unlock.
Qed.

(** A list of calls that passes [schedule_ok] is a path of the step
    relation. *)
Lemma reachable_run (s0 s : System) (calls : list Call) :
  reachable s0 s → schedule_ok s calls = true → reachable s0 (run s calls).
Proof.
  revert s. induction calls as [|c calls IH]; intros s Hs; simpl; [done|].
  intros [Hc Hok]%andb_true_iff. apply IH; [|done].
  eapply reachable_step; [exact Hs|]. by apply step_do_call.
Qed.

Lemma reachable_writer_and_reader : reachable sys_fresh sys_writer_and_reader.
Proof.
  unfold sys_writer_and_reader. apply reachable_run; [apply reachable_refl|by vm_compute].
Qed.

(** C3 (code bug): transaction 1 takes [r0] in exclusive mode and keeps it;
    transaction 2 calls [LockShared] on [r0], finds the older exclusive holder
    and waits; when its [cv_.wait] returns, the call goes on from
    [ShareCheck] and returns true at the [IsSharedLocked] test, because the
    rid was entered in the shared lock set before the wait.  In the state
    reached no thread waits, the queue of [r0] holds the EXCLUSIVE entry of
    transaction 1 and the SHARED entry of transaction 2, both calls have
    returned true and both transactions are [GROWING]: transaction 1 holds
    [r0] in exclusive mode while transaction 2 holds it in shared mode. *)
Theorem C3_shared_granted_beside_exclusive :
  initial sys_fresh ∧
  LockExclusive (lm sys_fresh) 1 r0 = (lm sys_writer, Returned true) ∧
  LockShared (lm sys_writer) 2 r0 = (lm sys_writer_and_waiter, Blocked) ∧
  LockShared (lm sys_writer_and_waiter) 2 r0 = (lm sys_writer_and_reader, Returned true) ∧
  reachable sys_fresh sys_writer_and_reader ∧
  waiting sys_writer_and_reader = ∅ ∧
  request_queue_ (queue_of (lm sys_writer_and_reader) r0)
    = [mkRequest 1 EXCLUSIVE false; mkRequest 2 SHARED false] ∧
  state_ (GetTransaction (lm sys_writer_and_reader) 1) = GROWING ∧
  state_ (GetTransaction (lm sys_writer_and_reader) 2) = GROWING ∧
  holds sys_writer_and_reader 1 r0 EXCLUSIVE ∧
  holds sys_writer_and_reader 2 r0 SHARED ∧
  ¬ locks_compatible sys_writer_and_reader r0.
Proof.
  assert (H1 : holds sys_writer_and_reader 1 r0 EXCLUSIVE) by (split; by vm_compute).
  assert (H2 : holds sys_writer_and_reader 2 r0 SHARED) by (split; by vm_compute).
  split; [done|]. split; [by vm_compute|]. split; [by vm_compute|].
  split; [by vm_compute|]. split; [apply reachable_writer_and_reader|].
  split; [done|]. split; [by vm_compute|]. split; [by vm_compute|].
  split; [by vm_compute|]. split; [done|]. split; [done|].
  intros [_ Hex]. by specialize (Hex 1 2 SHARED H1 H2).
Qed.

(** The two readings of the claim fail together in that state: the granted
    entries are the two entries of the queue, one of them EXCLUSIVE. *)
Lemma C3_granted_entries_not_compatible :
  filter (granted_in sys_writer_and_reader r0)
         (request_queue_ (queue_of (lm sys_writer_and_reader) r0))
    = [mkRequest 1 EXCLUSIVE false; mkRequest 2 SHARED false] ∧
  ¬ compatible [mkRequest 1 EXCLUSIVE false; mkRequest 2 SHARED false].
Proof.
  split; [by vm_compute|].
  intros [Hall|(e & [=] & _)]. by specialize (Hall (mkRequest 1 EXCLUSIVE false) ltac:(left)).
Qed.

Lemma reachable_unlocked_once_reader_3 : reachable sys_fresh sys_unlocked_once_reader_3.
Proof.
  unfold sys_unlocked_once_reader_3.
  apply reachable_run; [apply reachable_refl|by vm_compute].
Qed.

(** The same defect in a schedule where the wake-up follows a [notify_all].
    [LockExclusive] of a transaction that holds the rid in shared mode grants
    the lock on the entry it finds, whose mode stays SHARED; the one [Unlock]
    of the transaction then gives back the shared lock, erases the entry and
    notifies, and the rid stays in the exclusive lock set.  The waiting
    [LockShared] of transaction 3 returns true: transaction 1 holds [r0] in
    exclusive mode, by [IsExclusiveLocked], while transaction 3 holds it in
    shared mode. *)
Lemma C3_unlock_once_keeps_exclusive :
  LockShared (lm sys_fresh) 1 r0 = (lm sys_shared_1, Returned true) ∧
  LockExclusive (lm sys_shared_1) 1 r0 = (lm sys_both_modes_1, Returned true) ∧
  request_queue_ (queue_of (lm sys_both_modes_1) r0) = [mkRequest 1 SHARED true] ∧
  LockShared (lm sys_both_modes_1) 3 r0 = (lm sys_both_modes_1_waiter_3, Blocked) ∧
  Unlock (lm sys_both_modes_1_waiter_3) 1 r0 = (lm sys_unlocked_once, Returned true, true) ∧
  LockShared (lm sys_unlocked_once) 3 r0 = (lm sys_unlocked_once_reader_3, Returned true) ∧
  reachable sys_fresh sys_unlocked_once_reader_3 ∧
  holds sys_unlocked_once_reader_3 1 r0 EXCLUSIVE ∧
  holds sys_unlocked_once_reader_3 3 r0 SHARED ∧
  ¬ locks_compatible sys_unlocked_once_reader_3 r0.
Proof.
  assert (H1 : holds sys_unlocked_once_reader_3 1 r0 EXCLUSIVE) by (split; by vm_compute).
  assert (H3 : holds sys_unlocked_once_reader_3 3 r0 SHARED) by (split; by vm_compute).
  split; [by vm_compute|]. split; [by vm_compute|]. split; [by vm_compute|].
  split; [by vm_compute|]. split; [by vm_compute|]. split; [by vm_compute|].
  split; [apply reachable_unlocked_once_reader_3|]. split; [done|]. split; [done|].
  intros [_ Hex]. by specialize (Hex 1 3 SHARED H1 H3).
Qed.

End LockSchedFacts.

(** ** Executors *)

Module ExecFacts.
Import LockMgr Executors ExecProps.

(** *** The lock calls of an aborted transaction *)

Lemma LockShared_aborted (lm : LockManager) (txn : Z) (rid : RID) :
  state_ (GetTransaction lm txn) = ABORTED → LockShared lm txn rid = (lm, Returned false).
Proof. intros H. unfold LockShared. by rewrite bool_decide_eq_true_2. Qed.

Lemma LockExclusive_aborted (lm : LockManager) (txn : Z) (rid : RID) :
  state_ (GetTransaction lm txn) = ABORTED → LockExclusive lm txn rid = (lm, Returned false).
Proof. intros H. unfold LockExclusive. by rewrite bool_decide_eq_true_2. Qed.

Lemma LockUpgrade_aborted (lm : LockManager) (txn : Z) (rid : RID) :
  state_ (GetTransaction lm txn) = ABORTED → LockUpgrade lm txn rid = (lm, Returned false).
Proof. intros H. unfold LockUpgrade. by rewrite bool_decide_eq_true_2. Qed.

Lemma with_lock_mgr_same (st : ExecState) : with_lock_mgr st (lock_mgr st) = st.
Proof. by destruct st. Qed.

(** The lock step of the writing executors does nothing for an aborted
    transaction, and the executor carries on. *)
Lemma lock_for_write_aborted (st : ExecState) (txn : Z) (rid : RID) :
  state_ (txn_of st txn) = ABORTED → lock_for_write st txn rid = Done st.
Proof.
  intros H. unfold lock_for_write, txn_of in *.
  destruct (has_lock_mgr st); [|done].
  destruct (IsSharedLocked _ _).
  - rewrite LockUpgrade_aborted by done. simpl. by rewrite with_lock_mgr_same.
  - destruct (negb _); [|done].
    rewrite LockExclusive_aborted by done. simpl. by rewrite with_lock_mgr_same.
Qed.

(** The release at the end of a row does not touch the log. *)
Lemma unlock_if_read_committed_log (st st' : ExecState) (txn : Z) (rid : RID) :
  unlock_if_read_committed st txn rid = Done st' →
  log st' = log st ∧ table_heap st' = table_heap st ∧
  index_write_set st' = index_write_set st.
Proof.
  unfold unlock_if_read_committed. destruct (_ && _); [|by intros [= <-]].
  destruct (Unlock _ _ _) as [[lm' []] n]; simpl; [|done..].
  by intros [= <-].
Qed.

Lemma log_Delete_index (cur_tuple : Tuple) (cur_rid : RID) (indexes : list IndexInfo)
    (st : ExecState) (e : Event) :
  e ∈ log st → e ∈ log (foldl (Delete_index cur_tuple cur_rid) st indexes).
Proof.
  revert st. induction indexes as [|i indexes IH]; intros st He; [done|].
  simpl. apply IH. simpl. apply elem_of_app. by left.
Qed.

Lemma log_Update_index (old_tuple new_tuple : Tuple) (rid : RID) (indexes : list IndexInfo)
    (st : ExecState) (e : Event) :
  e ∈ log st → e ∈ log (foldl (Update_index old_tuple new_tuple rid) st indexes).
Proof.
  revert st. induction indexes as [|i indexes IH]; intros st He; [done|].
  simpl. apply IH. simpl. apply elem_of_app. left. apply elem_of_app. by left.
Qed.

Lemma log_Insert_index (cur_tuple : Tuple) (cur_rid : RID) (indexes : list IndexInfo)
    (st : ExecState) (e : Event) :
  e ∈ log st → e ∈ log (foldl (Insert_index cur_tuple cur_rid) st indexes).
Proof.
  revert st. induction indexes as [|i indexes IH]; intros st He; [done|].
  simpl. apply IH. simpl. apply elem_of_app. by left.
Qed.

(** For every state: the heap write of a row is in the log when the round of
    an aborted transaction is over. *)
Lemma Delete_row_aborted_writes (indexes : list IndexInfo) (txn : Z) (row : Tuple) (rid : RID)
    (st st' : ExecState) :
  state_ (txn_of st txn) = ABORTED →
  Delete_row indexes txn row rid st = Done st' →
  EvMarkDelete rid ∈ log st'.
Proof.
  intros Ha. unfold Delete_row. rewrite lock_for_write_aborted by done. simpl.
  intros H. apply unlock_if_read_committed_log in H as (-> & _).
  apply log_Delete_index. simpl. apply elem_of_app. right. apply list_elem_of_here.
Qed.

Lemma Update_row_aborted_writes (update_attrs : gmap nat UpdateInfo) (col_count : nat)
    (indexes : list IndexInfo) (txn : Z) (row : Tuple) (rid : RID) (st st' : ExecState) :
  state_ (txn_of st txn) = ABORTED →
  Update_row update_attrs col_count indexes txn row rid st = Done st' →
  EvUpdateTuple (GenerateUpdatedTuple update_attrs col_count row) rid ∈ log st'.
Proof.
  intros Ha. unfold Update_row. rewrite lock_for_write_aborted by done. simpl.
  intros H. apply unlock_if_read_committed_log in H as (-> & _).
  apply log_Update_index. simpl. apply elem_of_app. right. apply list_elem_of_here.
Qed.

Lemma Insert_aborted_writes (indexes : list IndexInfo) (txn : Z) (row : Tuple)
    (st st' : ExecState) :
  state_ (txn_of st txn) = ABORTED →
  InsertIntoTableWithIndex indexes txn row st = Done st' →
  ∃ rid, EvInsertTuple row rid ∈ log st'.
Proof.
  intros Ha. unfold InsertIntoTableWithIndex.
  destruct (InsertTuple _ _) as [[heap cur_rid]|]; [|done].
  rewrite lock_for_write_aborted by done. simpl.
  intros H. apply unlock_if_read_committed_log in H as (-> & _).
  exists cur_rid. apply log_Insert_index. simpl. apply elem_of_app. right.
  apply list_elem_of_here.
Qed.

(** C8 (as stated, refuted): transaction 7 is [ABORTED], so the exclusive
    lock on [r1] is refused; [Delete] still marks the tuple deleted and
    deletes its index entry, and [SeqScan] still hands the row on. *)
Lemma C8_refused_lock_is_ignored :
  (LockExclusive (lock_mgr st_wounded_7) 7 r1).2 = Returned false ∧
  (LockShared (lock_mgr st_wounded_7) 7 r1).2 = Returned false ∧
  ¬ refusal_stops_write (Delete_row one_index 7 [10; 20] r1) st_wounded_7 ∧
  ¬ refusal_stops_scan (SeqScan_Next scan_all 7 [(r1, [10; 20])]) st_wounded_7.
Proof.
  split; [by vm_compute|]. split; [by vm_compute|]. split.
  - intros H.
    specialize (H (mkExec lm_wounded_7 true (mkHeap [(r1, [10; 20])] 1%nat 2)
                     [EvMarkDelete r1; EvDeleteEntry 0 [10] r1]
                     [mkIndexWriteRecord r1 DELETE [10; 20] [] 0])).
    assert (Hd : [EvMarkDelete r1; EvDeleteEntry 0 [10] r1] = ([] : list Event)); [|done].
    apply H. vm_compute. reflexivity.
  - intros H.
    assert (Hd : Some ([10; 20], r1) = (None : option (Tuple * RID))); [|done].
    eapply H. vm_compute. reflexivity.
Qed.

(** C8 (amended): no executor looks at the result of its lock call.  For a
    transaction that is [ABORTED], every lock call is refused and leaves the
    lock manager as it is, and the executor carries on: [SeqScan::Next]
    evaluates the output columns and hands the row on when it passes the
    predicate of the plan; [Delete], [Update] and
    [Insert] apply the heap write, the index changes and the write-set
    records of the row; the only thing left after that is the release under
    READ_COMMITTED. *)
Theorem C8_executors_ignore_refusal (st : ExecState) (txn : Z) (rid : RID) (row : Tuple)
    (plan : SeqScanPlanNode) (iter : list (RID * Tuple)) (indexes : list IndexInfo)
    (update_attrs : gmap nat UpdateInfo) (col_count : nat) :
  has_lock_mgr st = true →
  state_ (txn_of st txn) = ABORTED →
  match predicate plan with
  | None => True
  | Some predict => predict (map (λ expr, expr row) (output_exprs plan)) = true
  end →
  ((LockShared (lock_mgr st) txn rid).2 = Returned false ∧
   (LockExclusive (lock_mgr st) txn rid).2 = Returned false ∧
   (LockUpgrade (lock_mgr st) txn rid).2 = Returned false) ∧
  SeqScan_Next plan txn ((rid, row) :: iter) st =
    (do* st' := unlock_if_read_committed st txn rid in
     Done (st', iter, Some (map (λ expr, expr row) (output_exprs plan), rid))) ∧
  Delete_row indexes txn row rid st =
    unlock_if_read_committed
      (foldl (Delete_index row rid) (emit st (EvMarkDelete rid)) indexes) txn rid ∧
  Update_row update_attrs col_count indexes txn row rid st =
    (let new_tuple := GenerateUpdatedTuple update_attrs col_count row in
     unlock_if_read_committed
       (foldl (Update_index row new_tuple rid) (emit st (EvUpdateTuple new_tuple rid)) indexes)
       txn rid) ∧
  InsertIntoTableWithIndex indexes txn row st =
    match InsertTuple (table_heap st) row with
    | None => Thrown
    | Some (heap, cur_rid) =>
      unlock_if_read_committed
        (foldl (Insert_index row cur_rid)
               (mkExec (lock_mgr st) (has_lock_mgr st) heap
                       (log st ++ [EvInsertTuple row cur_rid]) (index_write_set st))
               indexes)
        txn cur_rid
    end.
Proof.
  intros Hlm Ha Hp. unfold txn_of in Ha. split; [|split; [|split; [|split]]].
  - rewrite LockShared_aborted, LockExclusive_aborted, LockUpgrade_aborted by done. done.
  - simpl. unfold txn_of. rewrite Hlm. simpl.
    assert (Hout : ∀ st' : ExecState,
              match predicate plan with
              | None => Done (st', iter, Some (map (λ expr, expr row) (output_exprs plan), rid))
              | Some predict =>
                if predict (map (λ expr, expr row) (output_exprs plan))
                then Done (st', iter, Some (map (λ expr, expr row) (output_exprs plan), rid))
                else SeqScan_Next plan txn iter st'
              end = Done (st', iter, Some (map (λ expr, expr row) (output_exprs plan), rid))).
    { intros st'. destruct (predicate plan) as [predict|]; [by rewrite Hp|done]. }
    destruct (negb _ && negb _ && negb _).
    + rewrite LockShared_aborted by done. simpl. rewrite with_lock_mgr_same.
      destruct (unlock_if_read_committed st txn rid); simpl; [apply Hout|done..].
    + simpl. destruct (unlock_if_read_committed st txn rid); simpl; [apply Hout|done..].
  - unfold Delete_row. by rewrite lock_for_write_aborted.
  - unfold Update_row. by rewrite lock_for_write_aborted.
  - unfold InsertIntoTableWithIndex. destruct (InsertTuple _ _) as [[heap cur_rid]|]; [|done].
    by rewrite lock_for_write_aborted.
Qed.

(** The amended statement for the wounded transaction 7: the delete of the
    row at [r1] goes through. *)
Lemma C8_executors_ignore_refusal_witness :
  has_lock_mgr st_wounded_7 = true ∧
  state_ (txn_of st_wounded_7 7) = ABORTED ∧
  ∃ st', Delete_row one_index 7 [10; 20] r1 st_wounded_7 = Done st' ∧
         log st' = [EvMarkDelete r1; EvDeleteEntry 0 [10] r1].
Proof.
  assert (H1 : has_lock_mgr st_wounded_7 = true) by done.
  assert (H2 : state_ (txn_of st_wounded_7 7) = ABORTED) by (by vm_compute).
  assert (H3 : match predicate scan_all with
               | None => True
               | Some predict =>
                 predict (map (λ expr, expr [10; 20]) (output_exprs scan_all)) = true
               end) by done.
  split; [exact H1|]. split; [exact H2|].
  pose proof (C8_executors_ignore_refusal st_wounded_7 7 r1 [10; 20] scan_all []
                one_index add_5 2%nat H1 H2 H3) as (_ & _ & Hd & _).
  rewrite Hd. eexists. split; vm_compute; reflexivity.
Defined.

End ExecFacts.

(** ** Lock manager: the two phases of a transaction *)

Module LockPhasesFacts.
Import LockMgr LockProps LockPhases.

#[local] Set Warnings "-clear-no-such-hyp".

Lemma GetTransaction_set_txn (lm : LockManager) (t : Z) (x : Transaction) :
  GetTransaction (set_txn lm t x) t = x.
Proof. unfold GetTransaction, set_txn. simpl. apply lookup_total_insert_eq. Qed.

Lemma Unlock_state (lm : LockManager) (t : Z) (rid : RID) :
  state_ (GetTransaction lm t) = GROWING →
  ends_growing (GetTransaction lm t) rid →
  state_ (GetTransaction (Unlock lm t rid).1.1 t) = SHRINKING.
Proof.
  intros Hg Hends. unfold Unlock.
  rewrite (bool_decide_eq_true_2 _ Hg).
  set (txn := if IsExclusiveLocked _ _ then _ else _).
  assert (Hs : state_ txn = SHRINKING).
  { subst txn. unfold IsExclusiveLocked, IsSharedLocked.
    destruct Hends as [He|[Hsh Hrr]].
    - by rewrite (bool_decide_eq_true_2 _ He).
    - destruct (bool_decide (rid ∈ exclusive_lock_set_ _)); [done|].
      by rewrite (bool_decide_eq_true_2 _ Hsh), (bool_decide_eq_true_2 _ Hrr). }
  clearbody txn.
  destruct (erase_first _ _) as [[mode q]|]; [|simpl; by rewrite GetTransaction_set_txn].
  destruct (bool_decide (mode = _)); [|simpl; by rewrite GetTransaction_set_txn].
  destruct (if IsSharedLocked _ _ then SHARED else EXCLUSIVE); simpl;
    unfold GetTransaction; simpl; by rewrite lookup_total_insert_eq.
Qed.

Lemma lock_call_shrinking (c : LockCall) (lm : LockManager) (t : Z) (rid : RID) :
  state_ (GetTransaction lm t) = SHRINKING →
  (lock_call c lm t rid).2 = Returned false ∧
  state_ (GetTransaction (lock_call c lm t rid).1 t) = ABORTED ∧
  lock_table_ (lock_call c lm t rid).1 = lock_table_ lm ∧
  (∀ u, u ≠ t → GetTransaction (lock_call c lm t rid).1 u = GetTransaction lm u).
Proof.
  intros Hs.
  assert (Hna : bool_decide (state_ (GetTransaction lm t) = ABORTED) = false).
  { apply bool_decide_eq_false_2. by rewrite Hs. }
  assert (Hsh : bool_decide (state_ (GetTransaction lm t) = SHRINKING) = true).
  { by apply bool_decide_eq_true_2. }
  assert (Hother : ∀ x u, u ≠ t → GetTransaction (set_txn lm t x) u = GetTransaction lm u).
  { intros x u Hu. unfold GetTransaction, set_txn. simpl. by rewrite lookup_total_insert_ne. }
  destruct c; simpl.
  - unfold LockShared. rewrite Hna.
    destruct (bool_decide (isolation_level_ _ = READ_UNCOMMITTED)); [|rewrite Hsh]; simpl;
      rewrite GetTransaction_set_txn; auto.
  - unfold LockExclusive. rewrite Hna, Hsh. simpl. rewrite GetTransaction_set_txn; auto.
  - unfold LockUpgrade. rewrite Hna, Hsh. simpl. rewrite GetTransaction_set_txn; auto.
Qed.

(** X11: two-phase locking: once a growing
    transaction has called [Unlock] on a rid it holds in exclusive mode, or
    in shared mode under [REPEATABLE_READ], it is [SHRINKING]; each later
    [LockShared], [LockExclusive] or [LockUpgrade] of the transaction, on
    any rid, returns false, sets it [ABORTED] and touches neither the lock
    table nor another transaction. *)
Theorem Unlock_ends_the_growing_phase (lm : LockManager) (t : Z) (rid rid' : RID)
    (c : LockCall) :
  state_ (GetTransaction lm t) = GROWING →
  ends_growing (GetTransaction lm t) rid →
  let lm1 := (Unlock lm t rid).1.1 in
  let lm2 := (lock_call c lm1 t rid').1 in
  state_ (GetTransaction lm1 t) = SHRINKING ∧
  (lock_call c lm1 t rid').2 = Returned false ∧
  state_ (GetTransaction lm2 t) = ABORTED ∧
  lock_table_ lm2 = lock_table_ lm1 ∧
  (∀ u, u ≠ t → GetTransaction lm2 u = GetTransaction lm1 u).
Proof.
  intros Hg Hends lm1 lm2.
  pose proof (Unlock_state lm t rid Hg Hends) as Hs.
  split; [done|]. by apply lock_call_shrinking.
Qed.

Lemma Unlock_ends_the_growing_phase_witness :
  (Unlock lm_writer_1 1 r0).1.2 = Returned true ∧
  (LockShared (Unlock lm_writer_1 1 r0).1.1 1 (0, 1)).2 = Returned false ∧
  state_ (GetTransaction (LockShared (Unlock lm_writer_1 1 r0).1.1 1 (0, 1)).1 1) = ABORTED.
Proof.
  split; [by vm_compute|].
  assert (Hg : state_ (GetTransaction lm_writer_1 1) = GROWING) by by vm_compute.
  assert (He : ends_growing (GetTransaction lm_writer_1 1) r0).
  { left. by vm_compute. }
  destruct (Unlock_ends_the_growing_phase lm_writer_1 1 r0 (0, 1) CallLockShared Hg He)
    as (_ & H1 & H2 & _).
  split; [exact H1|exact H2].
Defined.

(** *** [LockShared] and [Unlock] as a round trip *)

Lemma LockShared_scan_free (t : Z) (rid : RID) (rest kept : list LockRequest)
    (txns : gmap Z Transaction) :
  (∀ e, e ∈ rest → rid ∉ exclusive_lock_set_ (txns !!! txn_id_ e)) →
  LockShared_scan t rid kept rest txns = (ScanEnd, kept ++ rest, txns).
Proof.
  revert kept. induction rest as [|e rest IH]; intros kept Hfree; simpl.
  { by rewrite app_nil_r. }
  unfold IsExclusiveLocked.
  assert (He : rid ∉ exclusive_lock_set_ (txns !!! txn_id_ e)) by (apply Hfree; left).
  rewrite (bool_decide_eq_false_2 _ He), !andb_false_r.
  rewrite IH, <- app_assoc; [done|]. intros e' He'. apply Hfree. by right.
Qed.

Lemma erase_first_snoc (q : list LockRequest) (t : Z) (mode : LockMode) (g : bool) :
  t ∉ ids q → erase_first (q ++ [mkRequest t mode g]) t = Some (mode, q).
Proof.
  induction q as [|e q IH]; simpl.
  { intros _. by rewrite Z.eqb_refl. }
  intros [Hne Hq]%not_elem_of_cons.
  destruct (Z.eqb_spec (txn_id_ e) t) as [Heq|_]; [by subst|]. by rewrite IH.
Qed.

(** X12: on a rid that no transaction of the
    queue holds in exclusive mode, [LockShared] of a transaction without an
    entry returns true and appends its request; the [Unlock] that follows
    returns true, gives the queue and the lock sets of the transaction back
    as they were, and notifies the waiters exactly when the queue is not
    empty.  The transaction is then [SHRINKING] under [REPEATABLE_READ] and
    still [GROWING] under [READ_COMMITTED]. *)
Theorem LockShared_Unlock_round_trip (lm : LockManager) (t : Z) (rid : RID) :
  let txn := GetTransaction lm t in
  let q := request_queue_ (queue_of lm rid) in
  reaches_shared_scan lm t rid →
  rid ∉ exclusive_lock_set_ txn →
  t ∉ ids q →
  (∀ e, e ∈ q → rid ∉ exclusive_lock_set_ (GetTransaction lm (txn_id_ e))) →
  ∃ lm1 lm2,
    LockShared lm t rid = (lm1, Returned true) ∧
    request_queue_ (queue_of lm1 rid) = q ++ [mkRequest t SHARED false] ∧
    rid ∈ shared_lock_set_ (GetTransaction lm1 t) ∧
    Unlock lm1 t rid = (lm2, Returned true, negb (bool_decide (q = []))) ∧
    queue_of lm2 rid = queue_of lm rid ∧
    shared_lock_set_ (GetTransaction lm2 t) = shared_lock_set_ txn ∧
    exclusive_lock_set_ (GetTransaction lm2 t) = exclusive_lock_set_ txn ∧
    state_ (GetTransaction lm2 t) =
      (if bool_decide (isolation_level_ txn = REPEATABLE_READ) then SHRINKING else GROWING) ∧
    (∀ u, u ≠ t → GetTransaction lm2 u = GetTransaction lm u).
Proof.
  intros txn q (Hna & Hru & Hns & Hnsh) Hnex Hfresh Hfree.
  unfold LockShared. fold txn.
  rewrite (bool_decide_eq_false_2 _ Hna), (bool_decide_eq_false_2 _ Hru),
    (bool_decide_eq_false_2 _ Hns).
  unfold IsSharedLocked at 1. rewrite (bool_decide_eq_false_2 _ Hnsh).
  fold q. rewrite (LockShared_scan_free t rid q [] (txn_map lm)) by exact Hfree.
  simpl app. unfold InsertTxnIntoLockQueue. rewrite (LockFacts.mark_first_None q t SHARED Hfresh).
  eexists _, _. split; [reflexivity|].
  set (txn1 := add_shared (SetState (txn_map lm !!! t) GROWING) rid).
  set (lm1 := mkLM _ _).
  assert (Hq1 : queue_of lm1 rid = mkQueue (q ++ [mkRequest t SHARED false])
                                          (upgrading_ (queue_of lm rid))).
  { unfold queue_of, lm1. simpl. apply lookup_total_insert_eq. }
  assert (Ht1 : GetTransaction lm1 t = txn1).
  { unfold GetTransaction, lm1. simpl. apply lookup_total_insert_eq. }
  split; [by rewrite Hq1|]. rewrite Ht1.
  assert (Hin : rid ∈ shared_lock_set_ txn1) by (subst txn1; simpl; set_solver).
  split; [done|].
  unfold Unlock. rewrite Hq1, Ht1. simpl request_queue_. simpl upgrading_.
  unfold IsSharedLocked. rewrite (bool_decide_eq_true_2 _ Hin).
  unfold IsExclusiveLocked.
  assert (Hnex1 : rid ∉ exclusive_lock_set_ txn1) by (subst txn1; simpl; done).
  rewrite (bool_decide_eq_false_2 _ Hnex1).
  rewrite (bool_decide_eq_true_2 (state_ txn1 = GROWING)) by done.
  rewrite (erase_first_snoc q t SHARED false Hfresh).
  rewrite (bool_decide_eq_true_2 (SHARED = SHARED)) by done. simpl andb.
  split; [reflexivity|].
  split.
  { unfold queue_of. simpl. rewrite lookup_total_insert_eq.
    fold (queue_of lm rid). subst q. by destruct (queue_of lm rid). }
  unfold GetTransaction. simpl txn_map. rewrite !lookup_total_insert_eq.
  fold (GetTransaction lm t). fold txn.
  split; [destruct (bool_decide _); simpl; set_solver|].
  split; [by destruct (bool_decide _)|].
  split; [by destruct (bool_decide _)|].
  intros u Hu. by rewrite !lookup_total_insert_ne.
Qed.

Lemma LockShared_Unlock_round_trip_witness :
  ∃ lm1 lm2,
    LockShared lm_read_committed_2 2 r0 = (lm1, Returned true) ∧
    Unlock lm1 2 r0 = (lm2, Returned true, true) ∧
    queue_of lm2 r0 = queue_of lm_read_committed_2 r0 ∧
    state_ (GetTransaction lm2 2) = GROWING.
Proof.
  assert (H1 : reaches_shared_scan lm_read_committed_2 2 r0).
  { repeat split; by vm_compute. }
  assert (H2 : r0 ∉ exclusive_lock_set_ (GetTransaction lm_read_committed_2 2)).
  { by vm_compute. }
  assert (H3 : 2 ∉ ids (request_queue_ (queue_of lm_read_committed_2 r0))).
  { change (2 ∉ [5]). by intros ?%list_elem_of_singleton. }
  assert (H4 : ∀ e, e ∈ request_queue_ (queue_of lm_read_committed_2 r0) →
                    r0 ∉ exclusive_lock_set_ (GetTransaction lm_read_committed_2 (txn_id_ e))).
  { intros e He. change (e ∈ [mkRequest 5 SHARED false]) in He.
    apply list_elem_of_singleton in He as ->. by vm_compute. }
  destruct (LockShared_Unlock_round_trip lm_read_committed_2 2 r0 H1 H2 H3 H4)
    as (lm1 & lm2 & E1 & _ & _ & E2 & E3 & _ & _ & E4 & _).
  exists lm1, lm2. split; [exact E1|]. split; [exact E2|]. split; [exact E3|exact E4].
Defined.

End LockPhasesFacts.

(** ** Executors: the rows of a writing statement *)

Module WriteRoundsFacts.
Import LockMgr Executors ExecProps WriteRounds.

#[local] Set Warnings "-clear-no-such-hyp".

(** [LockExclusive] and then [Unlock] on a rid nobody has asked for. *)
Lemma exclusive_cycle (lm : LockManager) (t : Z) (rid : RID) :
  let txn := GetTransaction lm t in
  state_ txn = GROWING →
  rid ∉ shared_lock_set_ txn → rid ∉ exclusive_lock_set_ txn →
  request_queue_ (queue_of lm rid) = [] →
  ∃ lmA lmB,
    LockExclusive lm t rid = (lmA, Returned true) ∧
    isolation_level_ (GetTransaction lmA t) = isolation_level_ txn ∧
    Unlock lmA t rid = (lmB, Returned true, true) ∧
    state_ (GetTransaction lmB t) = SHRINKING ∧
    isolation_level_ (GetTransaction lmB t) = isolation_level_ txn ∧
    shared_lock_set_ (GetTransaction lmB t) = shared_lock_set_ txn ∧
    exclusive_lock_set_ (GetTransaction lmB t) = exclusive_lock_set_ txn ∧
    (∀ r, request_queue_ (queue_of lm r) = [] → request_queue_ (queue_of lmB r) = []).
Proof.
  intros txn Hg Hsh Hex Hq. unfold LockExclusive. fold txn.
  rewrite (bool_decide_eq_false_2 (state_ txn = ABORTED)) by by rewrite Hg.
  rewrite (bool_decide_eq_false_2 (state_ txn = SHRINKING)) by by rewrite Hg.
  unfold IsExclusiveLocked at 1. rewrite (bool_decide_eq_false_2 _ Hex).
  rewrite Hq. simpl LockExclusive_scan. cbv iota beta.
  change (InsertTxnIntoLockQueue [] t EXCLUSIVE) with [mkRequest t EXCLUSIVE false].
  eexists _, _. split; [reflexivity|].
  set (txnA := add_exclusive (SetState (txn_map lm !!! t) GROWING) rid).
  set (lmA := mkLM _ _).
  assert (HqA : queue_of lmA rid = mkQueue [mkRequest t EXCLUSIVE false]
                                          (upgrading_ (queue_of lm rid))).
  { unfold queue_of, lmA. simpl. apply lookup_total_insert_eq. }
  assert (HtA : GetTransaction lmA t = txnA).
  { unfold GetTransaction, lmA. simpl. apply lookup_total_insert_eq. }
  rewrite HtA. split; [done|].
  unfold Unlock. rewrite HqA, HtA. simpl request_queue_. simpl upgrading_.
  assert (HshA : rid ∉ shared_lock_set_ txnA) by done.
  assert (HexA : rid ∈ exclusive_lock_set_ txnA) by (subst txnA; simpl; set_solver).
  unfold IsSharedLocked, IsExclusiveLocked.
  rewrite (bool_decide_eq_false_2 _ HshA), (bool_decide_eq_true_2 _ HexA).
  rewrite (bool_decide_eq_true_2 (state_ txnA = GROWING)) by done.
  simpl erase_first. rewrite Z.eqb_refl.
  rewrite (bool_decide_eq_true_2 (EXCLUSIVE = EXCLUSIVE)) by done.
  split; [reflexivity|].
  unfold GetTransaction. simpl txn_map. rewrite !lookup_total_insert_eq.
  split; [done|]. split; [done|]. split; [done|].
  split; [simpl; fold (GetTransaction lm t); fold txn; set_solver|].
  intros r Hr. unfold queue_of. simpl.
  destruct (decide (r = rid)) as [->|Hne].
  - by rewrite lookup_total_insert_eq.
  - by rewrite !lookup_total_insert_ne.
Qed.

Lemma erase_first_nil (t : Z) : erase_first [] t = None.
Proof. done. Qed.

(** The same two calls when the transaction is [SHRINKING]. *)
Lemma exclusive_refused (lm : LockManager) (t : Z) (rid : RID) :
  let txn := GetTransaction lm t in
  state_ txn = SHRINKING →
  request_queue_ (queue_of lm rid) = [] →
  ∃ lmA lmB,
    LockExclusive lm t rid = (lmA, Returned false) ∧
    isolation_level_ (GetTransaction lmA t) = isolation_level_ txn ∧
    Unlock lmA t rid = (lmB, Returned false, false) ∧
    state_ (GetTransaction lmB t) = ABORTED.
Proof.
  intros txn Hs Hq. unfold LockExclusive. fold txn.
  rewrite (bool_decide_eq_false_2 (state_ txn = ABORTED)) by by rewrite Hs.
  rewrite (bool_decide_eq_true_2 (state_ txn = SHRINKING)) by done.
  eexists _, _. split; [reflexivity|].
  assert (HtA : GetTransaction (set_txn lm t (SetState txn ABORTED)) t = SetState txn ABORTED).
  { unfold GetTransaction, set_txn. simpl. apply lookup_total_insert_eq. }
  rewrite HtA. split; [done|].
  unfold Unlock. rewrite HtA.
  change (queue_of (set_txn lm t (SetState txn ABORTED)) rid) with (queue_of lm rid).
  rewrite Hq, erase_first_nil.
  rewrite (bool_decide_eq_false_2 (state_ (SetState txn ABORTED) = GROWING)) by done.
  split; [reflexivity|].
  unfold GetTransaction, set_txn. simpl. by rewrite lookup_total_insert_eq.
Qed.

Lemma Delete_index_keeps (cur_tuple : Tuple) (cur_rid : RID) (indexes : list IndexInfo)
    (st : ExecState) :
  lock_mgr (foldl (Delete_index cur_tuple cur_rid) st indexes) = lock_mgr st ∧
  has_lock_mgr (foldl (Delete_index cur_tuple cur_rid) st indexes) = has_lock_mgr st.
Proof.
  revert st. induction indexes as [|i indexes IH]; intros st; [done|].
  simpl. by destruct (IH (Delete_index cur_tuple cur_rid st i)) as [-> ->].
Qed.

(** One round of [Delete] in terms of the two lock manager calls it makes
    for a rid the transaction holds no lock on. *)
Lemma Delete_row_calls (indexes : list IndexInfo) (txn : Z) (row : Tuple) (rid : RID)
    (st : ExecState) (lmA lmB : LockManager) (a b n : bool) :
  has_lock_mgr st = true →
  rid ∉ shared_lock_set_ (txn_of st txn) → rid ∉ exclusive_lock_set_ (txn_of st txn) →
  LockExclusive (lock_mgr st) txn rid = (lmA, Returned a) →
  isolation_level_ (GetTransaction lmA txn) = READ_COMMITTED →
  Unlock lmA txn rid = (lmB, Returned b, n) →
  ∃ st', Delete_row indexes txn row rid st = Done st' ∧ lock_mgr st' = lmB ∧
         has_lock_mgr st' = true ∧ EvMarkDelete rid ∈ log st' ∧
         (∀ e, e ∈ log st → e ∈ log st').
Proof.
  intros Hlm Hsh Hex EA Hiso EB. unfold Delete_row, lock_for_write.
  rewrite Hlm. unfold IsSharedLocked, IsExclusiveLocked.
  rewrite (bool_decide_eq_false_2 _ Hsh), (bool_decide_eq_false_2 _ Hex). simpl negb.
  cbv iota. rewrite EA. simpl call_dropping_result. simpl ebind.
  set (st' := foldl _ _ _).
  assert (H1 : lock_mgr st' = lmA ∧ has_lock_mgr st' = true).
  { subst st'. destruct (Delete_index_keeps row rid indexes
      (emit (with_lock_mgr st lmA) (EvMarkDelete rid))) as [-> ->]. by simpl. }
  destruct H1 as [HA Hh].
  assert (Hlog : EvMarkDelete rid ∈ log st' ∧ ∀ e, e ∈ log st → e ∈ log st').
  { subst st'. split.
    - apply ExecFacts.log_Delete_index. simpl. apply elem_of_app. right. left.
    - intros e He. apply ExecFacts.log_Delete_index. simpl. apply elem_of_app. by left. }
  clearbody st'. unfold unlock_if_read_committed, txn_of. rewrite HA, Hiso, Hh.
  rewrite bool_decide_eq_true_2 by done. simpl andb. cbv iota. rewrite EB. simpl.
  eexists. split; [reflexivity|]. simpl. by destruct Hlog.
Qed.



End WriteRoundsFacts.

(** ** LRU replacer *)

Module LRUFacts.
Import LRU.

#[local] Set Warnings "-clear-no-such-hyp".

Lemma erase_node_filter (l : list Z) (f : Z) :
  NoDup l → erase_node l f = filter (λ x, x ≠ f) l.
Proof.
  induction l as [|x l IH]; [done|]. intros [Hx Hl]%NoDup_cons. simpl.
  destruct (decide (x = f)) as [->|Hne].
  - rewrite bool_decide_eq_true_2 by done.
    rewrite filter_cons_False by (intros H; by apply H).
    clear IH Hl. induction l as [|y l IH]; [done|].
    rewrite filter_cons_True.
    + f_equal. apply IH. intros H. apply Hx. by right.
    + intros ->. apply Hx. left.
  - rewrite bool_decide_eq_false_2 by done. rewrite filter_cons_True by done.
    f_equal. by apply IH.
Qed.

Lemma erase_node_not_in (l : list Z) (f : Z) : f ∉ l → erase_node l f = l.
Proof.
  induction l as [|x l IH]; [done|]. intros Hf. simpl.
  rewrite bool_decide_eq_false_2 by (intros ->; apply Hf; left).
  f_equal. apply IH. intros H. apply Hf. by right.
Qed.

Lemma last_removelast (l : list Z) (back : Z) :
  last l = Some back → l = removelast l ++ [back].
Proof.
  intros [l' ->]%last_Some. by rewrite removelast_last.
Qed.

Lemma Victim_guard (frame_id : Z) :
  is_frame_id frame_id → (INT32_MIN >? frame_id) || (frame_id >? INT32_MAX) = false.
Proof. unfold is_frame_id. intros H. apply orb_false_iff. lia. Qed.

Lemma replacer_ok_Victim (r : LRUReplacer) (frame_id : Z) :
  replacer_ok r → replacer_ok (Victim r frame_id).1.
Proof.
  intros (Hnd & Hmap & Hlen). unfold Victim.
  destruct (last (list_ r)) as [back|] eqn:E; [|done].
  destruct (_ || _); [done|]. unfold replacer_ok. simpl.
  apply last_removelast in E. rewrite E in Hnd, Hmap, Hlen.
  apply NoDup_app in Hnd as (Hnd & Hback & _).
  split; [done|]. split.
  - intros f. rewrite elem_of_difference, elem_of_singleton, Hmap, elem_of_app, list_elem_of_singleton.
    split; [tauto|]. intros Hf. split; [by left|]. intros ->. apply (Hback back Hf). left.
  - rewrite length_app in Hlen. simpl in Hlen. lia.
Qed.

Lemma replacer_ok_Pin (r : LRUReplacer) (frame_id : Z) :
  replacer_ok r → replacer_ok (Pin r frame_id).
Proof.
  intros (Hnd & Hmap & Hlen). unfold Pin. case_bool_decide; [done|].
  unfold replacer_ok. simpl.
  rewrite erase_node_filter by done. split; [by apply NoDup_filter|]. split.
  - intros f. rewrite elem_of_difference, elem_of_singleton, Hmap, list_elem_of_filter. tauto.
  - pose proof (length_filter (λ x, x ≠ frame_id) (list_ r)). lia.
Qed.

Lemma replacer_ok_Unpin (r : LRUReplacer) (frame_id : Z) :
  replacer_ok r → replacer_ok (Unpin r frame_id).
Proof.
  intros (Hnd & Hmap & Hlen). unfold Unpin. case_bool_decide as Hin; [done|].
  destruct (_ <=? _)%nat eqn:E; [done|]. apply Nat.leb_gt in E.
  unfold replacer_ok. simpl.
  split; [apply NoDup_cons; split; [by rewrite <- Hmap|done]|]. split.
  - intros f. rewrite elem_of_union, elem_of_singleton, Hmap, elem_of_cons. tauto.
  - simpl. lia.
Qed.

Lemma max_size_call (r : LRUReplacer) (c : Call) : max_size_ (call r c) = max_size_ r.
Proof.
  destruct c as [z|f|f]; simpl.
  - unfold Victim. destruct (last _); [|done]. by destruct (_ || _).
  - unfold Pin. by case_bool_decide.
  - unfold Unpin. case_bool_decide; [done|]. by destruct (_ <=? _)%nat.
Qed.

Lemma replacer_ok_calls (num_pages : nat) (calls : list Call) :
  replacer_ok (foldl call (LRUReplacer_new num_pages) calls) ∧
  max_size_ (foldl call (LRUReplacer_new num_pages) calls) = num_pages.
Proof.
  induction calls as [|c calls IH] using rev_ind.
  - split; [|done]. split; [apply NoDup_nil_2|]. split; [|simpl; lia].
    intros f. simpl. rewrite elem_of_nil. set_solver.
  - rewrite foldl_app. simpl. destruct IH as [IH1 IH2]. split.
    + destruct c; simpl; [by apply replacer_ok_Victim|by apply replacer_ok_Pin|
                          by apply replacer_ok_Unpin].
    + by rewrite max_size_call.
Qed.

Lemma lru_1234_ok : replacer_ok lru_1234.
Proof.
  apply (replacer_ok_calls 4 [CallUnpin 1; CallUnpin 2; CallUnpin 3; CallUnpin 4]).
Qed.

(** X14: whatever calls are made on a replacer built for [num_pages] frames,
    no frame is listed twice, the map and the list hold the same frames, and
    the replacer holds at most [num_pages] frames. *)
Theorem LRU_calls_keep_replacer_ok (num_pages : nat) (calls : list Call) :
  let r := foldl call (LRUReplacer_new num_pages) calls in
  replacer_ok r ∧ max_size_ r = num_pages ∧ (Size r ≤ num_pages)%nat.
Proof.
  cbv zeta. destruct (replacer_ok_calls num_pages calls) as [Hok Hmax].
  split; [done|]. split; [done|].
  destruct Hok as (_ & _ & Hlen). unfold Size. by rewrite Hmax in Hlen.
Qed.

(** X15: [Victim] fails exactly when the replacer is empty; else it hands out
    the frame at the back of the list, which is then in the replacer no more,
    while the other frames keep their order. *)
Theorem LRU_Victim_takes_the_back (r : LRUReplacer) (frame_id : Z) :
  replacer_ok r → is_frame_id frame_id →
  match Victim r frame_id with
  | (r', None) => Size r = 0%nat ∧ r' = r
  | (r', Some f) =>
    list_ r = list_ r' ++ [f] ∧ (f ∉ list_ r') ∧ (f ∉ map_ r') ∧ Size r = S (Size r')
  end.
Proof.
  intros Hok Hz. pose proof (replacer_ok_Victim r frame_id Hok) as Hok'.
  destruct Hok as (Hnd & Hmap & Hlen). unfold Victim in *. unfold Size.
  destruct (last (list_ r)) as [back|] eqn:E.
  - rewrite Victim_guard in * by done. simpl in *.
    apply last_removelast in E. split; [done|].
    rewrite E in Hnd. apply NoDup_app in Hnd as (_ & Hback & _).
    assert (Hnot : back ∉ removelast (list_ r)).
    { intros H. apply (Hback back H). left. }
    split; [done|]. split; [set_solver|].
    rewrite E at 1. rewrite length_app. simpl. lia.
  - apply last_None in E. by rewrite E.
Qed.

Lemma LRU_Victim_takes_the_back_witness :
  Victim lru_1234 0 = (foldl Unpin (LRUReplacer_new 4) [2; 3; 4], Some 1) ∧
  list_ lru_1234 = [4; 3; 2] ++ [1].
Proof.
  pose proof lru_1234_ok as Hok.
  assert (Hz : is_frame_id 0) by (unfold is_frame_id, INT32_MIN, INT32_MAX; lia).
  pose proof (LRU_Victim_takes_the_back lru_1234 0 Hok Hz) as H.
  assert (E : Victim lru_1234 0 = (foldl Unpin (LRUReplacer_new 4) [2; 3; 4], Some 1))
    by (by vm_compute).
  rewrite E in H. destruct H as (Hl & _). split; [exact E|exact Hl].
Defined.

Lemma foldl_Unpin_new (num_pages : nat) (fs : list Z) :
  NoDup fs → (length fs ≤ num_pages)%nat →
  foldl Unpin (LRUReplacer_new num_pages) fs = mkLRU (reverse fs) (list_to_set fs) num_pages.
Proof.
  induction fs as [|f fs IH] using rev_ind; [done|].
  intros [Hnd [Hf _]]%NoDup_app. rewrite length_app. simpl. intros Hlen.
  rewrite foldl_app. simpl. rewrite IH by (done || lia). unfold Unpin. simpl.
  rewrite bool_decide_eq_false_2.
  2:{ rewrite elem_of_list_to_set. intros H. apply (Hf f H). left. }
  rewrite length_reverse.
  destruct (_ <=? _)%nat eqn:E; [apply Nat.leb_le in E; lia|].
  rewrite reverse_app. simpl. f_equal. rewrite list_to_set_app_L. simpl. set_solver.
Qed.

Lemma victims_reverse (fs : list Z) (M : gset Z) (num_pages : nat) (frame_id : Z) :
  is_frame_id frame_id → NoDup fs → (∀ f, f ∈ fs → f ∉ M) →
  victims (length fs) (mkLRU (reverse fs) (M ∪ list_to_set fs) num_pages) frame_id =
    (fs, mkLRU [] M num_pages).
Proof.
  intros Hz. induction fs as [|f fs IH]; intros Hnd HM.
  - simpl. f_equal. f_equal. set_solver.
  - apply NoDup_cons in Hnd as [Hf Hnd]. simpl. unfold Victim. simpl.
    rewrite reverse_cons, last_snoc, Victim_guard by done.
    rewrite removelast_last.
    replace ((M ∪ ({[f]} ∪ list_to_set fs)) ∖ {[f]}) with (M ∪ list_to_set fs : gset Z).
    + rewrite IH; [done|done|]. intros x Hx. apply HM. by right.
    + apply set_eq. intros x.
      rewrite elem_of_difference, !elem_of_union, elem_of_singleton, elem_of_list_to_set.
      split; [|tauto]. intros [H|H]; (split; [tauto|]); intros ->; [|done].
      by apply (HM f); [left|].
Qed.

(** X16: frames come out in the order in which they went in.  After [Unpin]
    of distinct frames [fs], no more than the replacer is built for, as many
    calls of [Victim] hand out [fs] in that very order and leave the
    replacer empty. *)
Theorem LRU_victims_in_unpin_order (num_pages : nat) (fs : list Z) (frame_id : Z) :
  NoDup fs → (length fs ≤ num_pages)%nat → is_frame_id frame_id →
  victims (length fs) (foldl Unpin (LRUReplacer_new num_pages) fs) frame_id =
    (fs, LRUReplacer_new num_pages).
Proof.
  intros Hnd Hlen Hz. rewrite foldl_Unpin_new by done.
  pose proof (victims_reverse fs ∅ num_pages frame_id Hz Hnd) as H.
  rewrite union_empty_l_L in H. apply H. intros f _. apply not_elem_of_empty.
Qed.

Lemma LRU_victims_in_unpin_order_witness :
  victims 4 (foldl Unpin (LRUReplacer_new 4) [1; 2; 3; 4]) 0 = ([1; 2; 3; 4], LRUReplacer_new 4).
Proof.
  apply (LRU_victims_in_unpin_order 4 [1; 2; 3; 4] 0).
  - repeat (apply NoDup_cons; split; [set_solver|]). apply NoDup_nil_2.
  - simpl. lia.
  - unfold is_frame_id, INT32_MIN, INT32_MAX. lia.
Defined.

(** X17: [Pin] takes the frame out and leaves the others in their order; a
    pinned frame is not handed out by [Victim]. *)
Theorem LRU_Pin_takes_frame_out (r : LRUReplacer) (f frame_id : Z) :
  replacer_ok r →
  list_ (Pin r f) = filter (λ x, x ≠ f) (list_ r) ∧
  (f ∉ map_ (Pin r f)) ∧
  (Victim (Pin r f) frame_id).2 ≠ Some f.
Proof.
  intros Hok. pose proof (replacer_ok_Pin r f Hok) as Hok'.
  destruct Hok as (Hnd & Hmap & Hlen).
  assert (Hl : list_ (Pin r f) = filter (λ x, x ≠ f) (list_ r)).
  { unfold Pin. case_bool_decide as Hin; simpl.
    - rewrite <- erase_node_filter by done. rewrite Hmap in Hin.
      by rewrite erase_node_not_in.
    - by apply erase_node_filter. }
  assert (Hf : f ∉ list_ (Pin r f)).
  { rewrite Hl, list_elem_of_filter. tauto. }
  split; [done|]. split; [by rewrite (proj1 (proj2 Hok'))|].
  unfold Victim. destruct (last (list_ (Pin r f))) as [back|] eqn:E; [|done].
  destruct (_ || _); [done|]. simpl. intros [= ->].
  apply Hf. apply last_Some in E as [l' ->]. apply elem_of_app. right. left.
Qed.

Lemma LRU_Pin_takes_frame_out_witness :
  list_ (Pin lru_1234 2) = [4; 3; 1] ∧ (Victim (Pin (Pin (Pin lru_1234 2) 3) 4) 0).2 = Some 1.
Proof.
  pose proof lru_1234_ok as Hok.
  destruct (LRU_Pin_takes_frame_out lru_1234 2 0 Hok) as (Hl & _).
  split; [rewrite Hl; by vm_compute|by vm_compute].
Defined.

(** X18: [Unpin] of a frame that is in the replacer changes nothing, so the
    frame keeps its place in the order; [Unpin] on a replacer that holds
    [max_size_] frames changes nothing either; and a second [Unpin] of the
    same frame never changes what the first one left. *)
Theorem LRU_Unpin_again_changes_nothing (r : LRUReplacer) (f : Z) :
  replacer_ok r →
  (f ∈ list_ r → Unpin r f = r) ∧
  (Size r = max_size_ r → Unpin r f = r) ∧
  Unpin (Unpin r f) f = Unpin r f.
Proof.
  intros (Hnd & Hmap & Hlen). split; [|split].
  - intros Hf. unfold Unpin. by rewrite bool_decide_eq_true_2 by by apply Hmap.
  - unfold Size. intros Hs. unfold Unpin. case_bool_decide; [done|].
    destruct (_ <=? _)%nat eqn:E; [done|]. apply Nat.leb_gt in E. lia.
  - unfold Unpin. destruct (bool_decide (f ∈ map_ r)) eqn:Hin.
    + by rewrite Hin.
    + destruct (_ <=? _)%nat eqn:E.
      * by rewrite Hin, E.
      * simpl. rewrite bool_decide_eq_true_2; [done|].
        apply elem_of_union. right. by apply elem_of_singleton.
Qed.

Lemma LRU_Unpin_again_changes_nothing_witness :
  Unpin lru_1234 1 = lru_1234 ∧ Unpin lru_1234 5 = lru_1234.
Proof.
  pose proof lru_1234_ok as Hok.
  destruct (LRU_Unpin_again_changes_nothing lru_1234 1 Hok) as (H1 & _).
  destruct (LRU_Unpin_again_changes_nothing lru_1234 5 Hok) as (_ & H2 & _).
  split; [apply H1; vm_compute; set_solver|by apply H2].
Defined.

(** X19: [Unpin] then [Pin] of a frame that was not in the replacer gives the
    replacer back as it was. *)
Theorem LRU_Unpin_Pin_round_trip (r : LRUReplacer) (f : Z) :
  replacer_ok r → f ∉ list_ r → Pin (Unpin r f) f = r.
Proof.
  intros (Hnd & Hmap & Hlen) Hf.
  assert (Hm : f ∉ map_ r) by by rewrite Hmap.
  unfold Unpin. rewrite bool_decide_eq_false_2 by done.
  destruct (_ <=? _)%nat.
  - unfold Pin. by rewrite bool_decide_eq_true_2.
  - unfold Pin. simpl. rewrite bool_decide_eq_false_2 by set_solver.
    rewrite bool_decide_eq_true_2 by done.
    destruct r as [l M n]. simpl in *. f_equal. set_solver.
Qed.

Lemma LRU_Unpin_Pin_round_trip_witness :
  Pin (Unpin (LRUReplacer_new 4) 7) 7 = LRUReplacer_new 4.
Proof.
  apply LRU_Unpin_Pin_round_trip.
  - apply (replacer_ok_calls 4 []).
  - simpl. apply not_elem_of_nil.
Defined.

End LRUFacts.

(** ** Parallel buffer pool *)

Module ParallelPoolFacts.
Import ParallelPool.

Lemma turn_next (n start k : nat) :
  (0 < n)%nat → (((start + k) mod n + 1) mod n = (start + S k) mod n)%nat.
Proof.
  intros Hn. rewrite Nat.Div0.add_mod_idemp_l. f_equal. lia.
Qed.

Lemma turn_back (n start k : nat) :
  (start < n)%nat → (k < n)%nat → ((start + S k) mod n = start ↔ S k = n)%nat.
Proof.
  intros Hs Hk. split.
  - intros E. pose proof (Nat.div_mod_eq (start + S k) n) as H. rewrite E in H.
    assert ((start + S k) `div` n = 1)%nat; [|nia].
    assert ((start + S k) `div` n < 2)%nat by (apply Nat.Div0.div_lt_upper_bound; lia).
    destruct ((start + S k) `div` n)%nat as [|[|q]]; [lia|done|lia].
  - intros ->. replace (start + n)%nat with (start + 1 * n)%nat by lia.
    rewrite Nat.Div0.mod_add. by apply Nat.mod_small.
Qed.

Lemma turn_inj (n start k k' : nat) :
  (k < n)%nat → (k' < n)%nat → ((start + k) mod n = (start + k') mod n)%nat → k = k'.
Proof.
  intros Hk Hk' E.
  pose proof (Nat.div_mod_eq (start + k) n) as H.
  pose proof (Nat.div_mod_eq (start + k') n) as H'. rewrite <- E in H'.
  assert ((start + k) `div` n = (start + k') `div` n)%nat; [|nia].
  destruct (Nat.lt_trichotomy ((start + k) `div` n) ((start + k') `div` n)) as [Hlt|[Heq|Hlt]];
    [nia|done|nia].
Qed.

Section Facts.
Context {I Page : Type} `{BPM : BufferPoolManager I Page}.

Abbreviation Manager := (@ParallelBufferPoolManager I).

Lemma pool_at_Some (m : Manager) (i : nat) :
  (i < length (buffer_pools_ m))%nat → ∃ bpmi, buffer_pools_ m !! i = Some bpmi.
Proof. intros Hi. by apply lookup_lt_is_Some_2. Qed.

Lemma instance_of_lt (m : Manager) (page_id : Z) :
  pools_ok m → (instance_of m page_id < length (buffer_pools_ m))%nat.
Proof.
  intros (Hlen & Hn & _). unfold instance_of. rewrite Hlen.
  pose proof (Z.mod_pos_bound (page_id mod 2 ^ 64) (Z.of_nat (num_instances_ m)) ltac:(lia)).
  lia.
Qed.

(** X20: [FetchPgImp], [UnpinPgImp],
    [FlushPgImp] and [DeletePgImp] pass the call to the instance with index
    [page_id % num_instances_], give back what it returns, and leave every
    other instance as it is; that index exists for every page id, the invalid
    one and negative ones included. *)
Theorem PBPM_calls_go_to_one_instance (m : Manager) (page_id : Z) (is_dirty : bool) :
  pools_ok m →
  ∃ bpmi, buffer_pools_ m !! instance_of m page_id = Some bpmi ∧
    let put bpmi' := with_pools m (<[instance_of m page_id := bpmi']> (buffer_pools_ m)) in
    FetchPgImp m page_id =
      Ok (put (bpm_FetchPage bpmi page_id).1, (bpm_FetchPage bpmi page_id).2) ∧
    UnpinPgImp m page_id is_dirty =
      Ok (put (bpm_UnpinPage bpmi page_id is_dirty).1, (bpm_UnpinPage bpmi page_id is_dirty).2) ∧
    FlushPgImp m page_id =
      Ok (put (bpm_FlushPage bpmi page_id).1, (bpm_FlushPage bpmi page_id).2) ∧
    DeletePgImp m page_id =
      Ok (put (bpm_DeletePage bpmi page_id).1, (bpm_DeletePage bpmi page_id).2) ∧
    ∀ i bpmi', i ≠ instance_of m page_id →
               buffer_pools_ (put bpmi') !! i = buffer_pools_ m !! i.
Proof.
  intros Hok. destruct (pool_at_Some m _ (instance_of_lt m page_id Hok)) as [bpmi E].
  exists bpmi. split; [done|]. cbv zeta.
  unfold FetchPgImp, UnpinPgImp, FlushPgImp, DeletePgImp, pool_at. rewrite E. simpl.
  split; [by destruct (bpm_FetchPage bpmi page_id)|].
  split; [by destruct (bpm_UnpinPage bpmi page_id is_dirty)|].
  split; [by destruct (bpm_FlushPage bpmi page_id)|].
  split; [by destruct (bpm_DeletePage bpmi page_id)|].
  intros i bpmi' Hi. by rewrite list_lookup_insert_ne.
Qed.

(** The loop of [NewPgImp] after [k] instances of the turn have had no
    page. *)
Lemma NewPg_loop_probe (m : Manager) (start k fuel : nat) :
  length (buffer_pools_ m) = num_instances_ m →
  (start < num_instances_ m)%nat → (k + fuel = num_instances_ m)%nat → (0 < fuel)%nat →
  NewPg_loop fuel m ((start + k) mod num_instances_ m)%nat start =
    Ok (with_pools m
          (probe (map (λ k, ((start + k) mod num_instances_ m)%nat) (seq k fuel))
                 (buffer_pools_ m)).1,
        (probe (map (λ k, ((start + k) mod num_instances_ m)%nat) (seq k fuel))
               (buffer_pools_ m)).2).
Proof.
  revert m k. induction fuel as [|fuel IH]; intros m k Hlen Hs Hk Hf; [lia|].
  simpl. unfold pool_at.
  destruct (pool_at_Some m ((start + k) mod num_instances_ m)%nat) as [bpmi E].
  { rewrite Hlen. apply Nat.mod_upper_bound. lia. }
  rewrite E. simpl. destruct (bpm_NewPage bpmi) as [bpmi' [page|]]; [done|].
  simpl. rewrite turn_next by lia.
  destruct (Nat.eqb_spec ((start + S k) mod num_instances_ m) start) as [Eb|Eb].
  - apply turn_back in Eb; [|lia..]. assert (fuel = 0)%nat as -> by lia. done.
  - assert (fuel ≠ 0)%nat.
    { intros ->. apply Eb. apply turn_back; lia. }
    pose proof (IH (with_pools m (<[((start + k) mod num_instances_ m)%nat := bpmi']>
                                    (buffer_pools_ m))) (S k)) as H1.
    simpl in H1. rewrite H1; [done|by rewrite length_insert|done|lia|lia].
Qed.

Lemma NewPgImp_as_probe (m : Manager) :
  pools_ok m →
  let start := Z.to_nat (start_index_ m mod Z.of_nat (num_instances_ m)) in
  let '(pools, page) := probe (turn m start) (buffer_pools_ m) in
  NewPgImp m =
    Ok (mkPBPM pools (num_instances_ m) (pool_size_ m) ((start_index_ m + 1) mod 2 ^ 64), page).
Proof.
  intros (Hlen & Hn & Hs). cbv zeta. unfold NewPgImp, turn. cbv zeta. cbn [num_instances_].
  set (start := Z.to_nat (start_index_ m mod Z.of_nat (num_instances_ m))).
  assert (Hstart : (start < num_instances_ m)%nat).
  { subst start.
    pose proof (Z.mod_pos_bound (start_index_ m) (Z.of_nat (num_instances_ m)) ltac:(lia)). lia. }
  pose proof (NewPg_loop_probe
                (mkPBPM (buffer_pools_ m) (num_instances_ m) (pool_size_ m)
                        ((start_index_ m + 1) mod 2 ^ 64))
                start 0 (num_instances_ m) Hlen Hstart ltac:(simpl; lia) Hn) as H.
  simpl in H. rewrite Nat.add_0_r, (Nat.mod_small start) in H by done.
  rewrite H. by destruct (probe _ _).
Qed.

(** X21: [NewPgImp] asks the instances for a page in
    a turn that begins at [start_index_ % num_instances_] and takes the first
    page it gets; no instance is asked twice, the loop ends within
    [num_instances_] rounds, and [start_index_] goes up by one whether a page
    was found or not. *)
Theorem NewPgImp_probes_one_turn (m : Manager) :
  pools_ok m →
  let start := Z.to_nat (start_index_ m mod Z.of_nat (num_instances_ m)) in
  let '(pools, page) := probe (turn m start) (buffer_pools_ m) in
  NewPgImp m =
    Ok (mkPBPM pools (num_instances_ m) (pool_size_ m) ((start_index_ m + 1) mod 2 ^ 64), page).
Proof. apply NewPgImp_as_probe. Qed.

(** A probe over instances that are all different asks each of them in the
    state it had at the start. *)
Lemma probe_None (order : list nat) (pools : list I) :
  NoDup order → (∀ i, i ∈ order → (i < length pools)%nat) →
  ((probe order pools).2 = None ↔
   ∀ i bpmi, i ∈ order → pools !! i = Some bpmi → (bpm_NewPage bpmi).2 = None).
Proof.
  revert pools. induction order as [|i order IH]; intros pools Hnd Hlt.
  - split; [|done]. intros _ i bpmi Hi. by apply elem_of_nil in Hi.
  - apply NoDup_cons in Hnd as [Hi Hnd]. simpl.
    destruct (lookup_lt_is_Some_2 pools i) as [bpmi E]; [apply Hlt; left|].
    rewrite E. destruct (bpm_NewPage bpmi) as [bpmi' [page|]] eqn:En; simpl.
    + split; [done|]. intros H. specialize (H i bpmi ltac:(left) E). by rewrite En in H.
    + rewrite IH; [|done|].
      2:{ intros j Hj. rewrite length_insert. apply Hlt. by right. }
      split.
      * intros H j b Hj Eb. apply elem_of_cons in Hj as [->|Hj].
        -- rewrite E in Eb. injection Eb as <-. by rewrite En.
        -- apply (H j b Hj). rewrite list_lookup_insert_ne; [done|]. by intros ->.
      * intros H j b Hj Eb. rewrite list_lookup_insert_ne in Eb by by intros ->.
        apply (H j b); [by right|done].
Qed.

Lemma turn_NoDup (m : Manager) (start : nat) : NoDup (turn m start).
Proof.
  unfold turn. apply NoDup_fmap_2_strong; [|apply NoDup_seq].
  intros k k' Hk Hk' E. apply elem_of_seq in Hk, Hk'. eapply turn_inj; [| |exact E]; lia.
Qed.

Lemma turn_all (m : Manager) (start i : nat) :
  (start < num_instances_ m)%nat → (i ∈ turn m start ↔ (i < num_instances_ m)%nat).
Proof.
  intros Hs. unfold turn. rewrite list_elem_of_fmap. split.
  - intros (k & -> & Hk). apply Nat.mod_upper_bound. lia.
  - intros Hi. destruct (decide (start ≤ i)%nat).
    + exists (i - start)%nat. split; [|apply elem_of_seq; lia].
      replace (start + (i - start))%nat with i by lia. by rewrite Nat.mod_small.
    + exists (i + num_instances_ m - start)%nat. split; [|apply elem_of_seq; lia].
      replace (start + (i + num_instances_ m - start))%nat
        with (i + 1 * num_instances_ m)%nat by lia.
      rewrite Nat.Div0.mod_add. by rewrite Nat.mod_small.
Qed.

(** X22: [NewPgImp] returns the null pointer
    exactly when [NewPage] fails on every instance, and it always returns. *)
Theorem NewPgImp_null_iff_all_fail (m : Manager) :
  pools_ok m →
  ∃ m' page, NewPgImp m = Ok (m', page) ∧
    (page = None ↔ ∀ bpmi, bpmi ∈ buffer_pools_ m → (bpm_NewPage bpmi).2 = None).
Proof.
  intros Hok. pose proof (NewPgImp_as_probe m Hok) as H. cbv zeta in H.
  destruct Hok as (Hlen & Hn & Hs).
  set (start := Z.to_nat (start_index_ m mod Z.of_nat (num_instances_ m))) in *.
  assert (Hstart : (start < num_instances_ m)%nat).
  { subst start.
    pose proof (Z.mod_pos_bound (start_index_ m) (Z.of_nat (num_instances_ m)) ltac:(lia)). lia. }
  pose proof (probe_None (turn m start) (buffer_pools_ m) (turn_NoDup m start)) as Hp.
  destruct (probe (turn m start) (buffer_pools_ m)) as [pools page].
  eexists. exists page. split; [exact H|]. simpl in Hp. rewrite Hp.
  - split.
    + intros Ha bpmi [i Hi]%list_elem_of_lookup. apply (Ha i); [|done].
      apply turn_all; [done|]. rewrite <- Hlen. by eapply lookup_lt_Some.
    + intros Ha i bpmi _ Hi. apply Ha. by eapply list_elem_of_lookup_2.
  - intros i Hi. rewrite Hlen. by apply turn_all in Hi.
Qed.

End Facts.

Lemma three_pools_ok : pools_ok three_pools.
Proof. unfold pools_ok. simpl. lia. Qed.

Lemma PBPM_calls_go_to_one_instance_witness :
  instance_of three_pools (-1) = 0%nat ∧
  DeletePgImp three_pools (-1) = Ok (three_pools, true).
Proof.
  destruct (PBPM_calls_go_to_one_instance three_pools (-1) false three_pools_ok)
    as (bpmi & E & _ & _ & _ & Hd & _).
  split; [by vm_compute|]. rewrite Hd.
  assert (bpmi = mkStub 0 3 0 0) as -> by (vm_compute in E; congruence).
  by vm_compute.
Defined.

Lemma NewPgImp_probes_one_turn_witness :
  NewPgImp three_pools =
    Ok (mkPBPM [mkStub 0 3 0 0; mkStub 1 3 4 1; mkStub 2 3 2 2] 3 2 1, Some (tt, 1)).
Proof.
  pose proof (NewPgImp_probes_one_turn three_pools three_pools_ok) as H.
  cbv zeta in H. rewrite H. by vm_compute.
Defined.

Lemma NewPgImp_null_iff_all_fail_witness :
  ∃ m' page, NewPgImp three_pools = Ok (m', page) ∧ page ≠ None.
Proof.
  destruct (NewPgImp_null_iff_all_fail three_pools three_pools_ok) as (m' & page & E & Hn).
  exists m', page. split; [exact E|]. intros Hp.
  pose proof (proj1 Hn Hp (mkStub 1 3 1 2)) as Hf. simpl in Hf. discriminate Hf. right. left.
Defined.

End ParallelPoolFacts.

(** ** Row matrix *)

Module PrimerFacts.
Import Primer.

(** A loop that keeps [P] from round to round ends with [P]. *)
Lemma for_each_seq {S : Type} (P : nat → S → Prop) (body : nat → S → Outcome S)
    (start n : nat) (s : S) :
  P start s →
  (∀ k s, (start ≤ k < start + n)%nat → P k s → ∃ s', body k s = Returns s' ∧ P (Datatypes.S k) s') →
  ∃ s', for_each (seq start n) body s = Returns s' ∧ P (start + n)%nat s'.
Proof.
  revert start s. induction n as [|n IH]; intros start s HP Hstep.
  - exists s. split; [done|]. by rewrite Nat.add_0_r.
  - simpl. destruct (Hstep start s ltac:(lia) HP) as (s1 & -> & HP1). simpl.
    destruct (IH (Datatypes.S start) s1 HP1) as (s' & E & HP').
    + intros k s2 Hk. apply Hstep. lia.
    + exists s'. split; [done|]. by replace (start + Datatypes.S n)%nat with (Datatypes.S start + n)%nat by lia.
Qed.

Section Facts.
Context {T : Type}.
Variable zero : T.
Variable add : T → T → T.
Variable mul : T → T → T.

Lemma cell_nat (m : @RowMatrix T) (C i j : nat) :
  cols_ m = Z.of_nat C → cell m (Z.of_nat i) (Z.of_nat j) = (C * i + j)%nat.
Proof. intros H. unfold cell. rewrite H. lia. Qed.

Lemma cell_lt (m : @RowMatrix T) (i j : Z) :
  matrix_ok m → in_range m i j → (cell m i j < length (linear_ m))%nat.
Proof.
  intros (Hr & Hc & Hlen) [Hi Hj]. unfold cell. apply Nat2Z.inj_lt.
  rewrite Z2Nat.id by nia. rewrite Hlen.
  assert (cols_ m * (i + 1) ≤ cols_ m * rows_ m) by (apply Z.mul_le_mono_nonneg_l; lia).
  lia.
Qed.

Lemma cell_inj (m : @RowMatrix T) (i j i' j' : Z) :
  in_range m i j → in_range m i' j' → cell m i' j' = cell m i j → i' = i ∧ j' = j.
Proof.
  intros [Hi Hj] [Hi' Hj']. unfold cell. intros E.
  apply Z2Nat.inj in E; [|nia..].
  destruct (Z.lt_trichotomy i' i) as [Hlt|[->|Hlt]].
  - assert (cols_ m * (i' + 1) ≤ cols_ m * i) by (apply Z.mul_le_mono_nonneg_l; lia). lia.
  - split; [done|lia].
  - assert (cols_ m * (i + 1) ≤ cols_ m * i') by (apply Z.mul_le_mono_nonneg_l; lia). lia.
Qed.

Lemma filled_store (R C : nat) (g : nat → nat → T) (i j : nat) (m : @RowMatrix T) :
  (i < R)%nat → (j < C)%nat → filled R C g i j m →
  filled R C g i (S j) (store m (Z.of_nat i) (Z.of_nat j) (g i j)).
Proof.
  intros Hi Hj (Hr & Hc & Hlen & Hg). unfold store.
  split; [done|]. split; [done|]. simpl. rewrite (cell_nat m C) by done.
  split; [by rewrite length_insert|].
  intros i' j' Hj' Hlt.
  destruct (decide (i' = i ∧ j' = j)) as [[-> ->]|Hne].
  - apply list_lookup_insert_eq. nia.
  - rewrite list_lookup_insert_ne by nia. apply Hg; [done|lia].
Qed.

(** Both loops, for a body that stores [g i j] at [(i, j)]. *)
Lemma fill_loops (R C : nat) (g : nat → nat → T)
    (body : nat → nat → @RowMatrix T → Outcome (@RowMatrix T)) (m : @RowMatrix T) :
  rows_ m = Z.of_nat R → cols_ m = Z.of_nat C → length (linear_ m) = (R * C)%nat →
  (∀ i j m', (i < R)%nat → (j < C)%nat → filled R C g i j m' →
             body i j m' = Returns (store m' (Z.of_nat i) (Z.of_nat j) (g i j))) →
  ∃ m', for_each (seq 0 R) (λ i, for_each (seq 0 C) (body i)) m = Returns m' ∧
        filled R C g R 0 m'.
Proof.
  intros Hr Hc Hlen Hbody.
  apply (for_each_seq (λ i m, filled R C g i 0 m)).
  - split; [done|]. split; [done|]. split; [done|]. intros i' j' _ H. lia.
  - intros i m1 Hi H1.
    destruct (for_each_seq (λ j m, filled R C g i j m) (body i) 0 C m1 H1) as (m2 & E & H2).
    + intros j m2 Hj H2. eexists. split; [apply Hbody; [lia|lia|done]|].
      apply filled_store; [lia|lia|done].
    + exists m2. split; [done|]. destruct H2 as (? & ? & ? & Hg).
      split; [done|]. split; [done|]. split; [done|].
      intros i' j' Hj' Hlt. apply Hg; [done|]. simpl. lia.
Qed.

Lemma filled_lookup (R C : nat) (g : nat → nat → T) (m : @RowMatrix T) (i j : nat) :
  filled R C g R 0 m → (i < R)%nat → (j < C)%nat →
  GetElement zero m (Z.of_nat i) (Z.of_nat j) = Returns (g i j).
Proof.
  intros (Hr & Hc & Hlen & Hg) Hi Hj. unfold GetElement. rewrite Hr, Hc.
  replace ((Z.of_nat i <? 0) || (Z.of_nat i >=? Z.of_nat R)) with false
    by (symmetry; apply orb_false_iff; lia).
  replace ((Z.of_nat j <? 0) || (Z.of_nat j >=? Z.of_nat C)) with false
    by (symmetry; apply orb_false_iff; lia).
  rewrite (cell_nat m C) by done. rewrite Hg; [done|done|lia].
Qed.

Lemma GetElement_in_range (m : @RowMatrix T) (i j : Z) :
  in_range m i j → GetElement zero m i j = Returns (at_ zero m i j).
Proof.
  intros [Hi Hj]. unfold GetElement.
  replace ((i <? 0) || (i >=? rows_ m)) with false by (symmetry; apply orb_false_iff; lia).
  by replace ((j <? 0) || (j >=? cols_ m)) with false by (symmetry; apply orb_false_iff; lia).
Qed.

Lemma SetElement_in_range (m : @RowMatrix T) (i j : Z) (val : T) :
  in_range m i j → SetElement m i j val = Returns (store m i j val).
Proof.
  intros [Hi Hj]. unfold SetElement.
  replace ((i <? 0) || (i >=? rows_ m)) with false by (symmetry; apply orb_false_iff; lia).
  by replace ((j <? 0) || (j >=? cols_ m)) with false by (symmetry; apply orb_false_iff; lia).
Qed.

(** [GetElement] and [SetElement] throw
    OUT_OF_RANGE exactly when the row index is outside [0, rows) or the column
    index is outside [0, cols). *)
Lemma RowMatrix_index_check (m : @RowMatrix T) (i j : Z) (val : T) :
  (GetElement zero m i j = OUT_OF_RANGE ↔ ¬ in_range m i j) ∧
  (SetElement m i j val = OUT_OF_RANGE ↔ ¬ in_range m i j).
Proof.
  unfold GetElement, SetElement, in_range.
  destruct ((i <? 0) || (i >=? rows_ m)) eqn:Ei.
  - apply orb_true_iff in Ei. split; (split; [lia|done]).
  - apply orb_false_iff in Ei. destruct ((j <? 0) || (j >=? cols_ m)) eqn:Ej.
    + apply orb_true_iff in Ej. split; (split; [lia|done]).
    + apply orb_false_iff in Ej. split; (split; [done|lia]).
Qed.

(** X23: for indexes in range, [SetElement] returns
    and [GetElement] then reads the value written at [(i, j)] and what was
    there before at every other place; the counts of rows and columns stay. *)
Theorem RowMatrix_set_then_get (m : @RowMatrix T) (i j : Z) (val : T) :
  matrix_ok m → in_range m i j →
  ∃ m', SetElement m i j val = Returns m' ∧
        matrix_ok m' ∧ rows_ m' = rows_ m ∧ cols_ m' = cols_ m ∧
        GetElement zero m' i j = Returns val ∧
        ∀ i' j', in_range m i' j' → (i', j') ≠ (i, j) →
                 GetElement zero m' i' j' = GetElement zero m i' j'.
Proof.
  intros (Hr & Hc & Hlen) Hin. exists (store m i j val).
  split; [by apply SetElement_in_range|].
  assert (Hok : matrix_ok (store m i j val)).
  { split; [done|]. split; [done|]. simpl. by rewrite length_insert. }
  split; [done|]. split; [done|]. split; [done|].
  destruct Hin as [Hi Hj]. split.
  - rewrite GetElement_in_range by done. unfold at_, store, cell. simpl.
    rewrite list_lookup_insert_eq; [done|]. by apply cell_lt.
  - intros i' j' [Hi' Hj'] Hne. rewrite !GetElement_in_range by done.
    unfold at_, store, cell. simpl. rewrite list_lookup_insert_ne; [done|].
    intros E. apply Hne. symmetry in E.
    by destruct (cell_inj m i j i' j') as [-> ->].
Qed.

Lemma to_int_small (z : Z) : 0 ≤ z < 2 ^ 31 → to_int z = z.
Proof. intros H. unfold to_int. rewrite Z.mod_small; lia. Qed.

Lemma RowMatrix_new_filled (rows cols : Z) (uninit : nat → T) (g : nat → nat → T) :
  0 ≤ rows → 0 ≤ cols →
  filled (Z.to_nat rows) (Z.to_nat cols) g 0 0 (RowMatrix_new rows cols uninit).
Proof.
  intros Hr Hc. unfold RowMatrix_new. split; [simpl; lia|]. split; [simpl; lia|]. simpl.
  split; [rewrite length_map, length_seq; lia|]. intros i' j' _ H. lia.
Qed.

Lemma filled_ok (R C : nat) (g : nat → nat → T) (i j : nat) (m : @RowMatrix T) :
  filled R C g i j m → matrix_ok m.
Proof. intros (Hr & Hc & Hlen & _). unfold matrix_ok. rewrite Hr, Hc, Hlen. lia. Qed.

(** X24: [FillFrom] throws OUT_OF_RANGE unless the source
    has [rows * cols] elements, and else leaves the matrix holding the source
    row by row: element [(i, j)] is [source[i * cols + j]]. *)
Theorem FillFrom_row_major (m : @RowMatrix T) (source : list T) :
  matrix_ok m → rows_ m * cols_ m < 2 ^ 31 → Z.of_nat (length source) < 2 ^ 31 →
  FillFrom zero m source =
    if Z.of_nat (length source) =? rows_ m * cols_ m
    then Returns (mkMatrix (rows_ m) (cols_ m) source)
    else OUT_OF_RANGE.
Proof.
  intros (Hr & Hc & Hlen) Hsmall Hsrc. unfold FillFrom, GetRowCount, GetColumnCount.
  rewrite to_int_small by lia.
  destruct (Z.eqb_spec (Z.of_nat (length source)) (rows_ m * cols_ m)) as [E|E]; [|done].
  simpl. set (R := Z.to_nat (rows_ m)). set (C := Z.to_nat (cols_ m)).
  set (g := λ i j : nat, default zero (source !! (i * C + j)%nat)).
  destruct (fill_loops R C g
              (λ i j m', Returns (store m' (Z.of_nat i) (Z.of_nat j)
                 (default zero (source !! Z.to_nat (Z.of_nat i * cols_ m' + Z.of_nat j))))) m)
    as (m' & Eloop & Hr' & Hc' & Hlen' & Hg).
  - subst R. lia.
  - subst C. lia.
  - subst R C. lia.
  - intros i j m1 Hi Hj (_ & Hc1 & _). do 2 f_equal. subst g. simpl. rewrite Hc1.
    do 2 f_equal. lia.
  - unfold upto. fold R C. transitivity (Returns m'); [exact Eloop|]. f_equal.
    destruct m' as [r' c' l']. simpl in *. f_equal; [subst R; lia|subst C; lia|].
    apply list_eq_same_length with (R * C)%nat; [subst R C; nia|done|].
    intros p x y Hp Hx Hy.
    assert (HC : (0 < C)%nat) by (destruct C; [lia|lia]).
    clear Hlen E Hsmall Hsrc Eloop.
    pose proof (Nat.div_mod_eq p C) as Hdm.
    pose proof (Nat.mod_upper_bound p C ltac:(lia)) as Hmod.
    assert (Hdiv : (p `div` C < R)%nat) by (apply Nat.Div0.div_lt_upper_bound; lia).
    rewrite Hdm in Hx. rewrite Hg in Hx; [|done|by left]. subst g. simpl in Hx.
    replace (p `div` C * C + p `mod` C)%nat with p in Hx by lia.
    rewrite Hy in Hx. simpl in Hx. congruence.
Qed.

Lemma Add_cells (matrixA matrixB : @RowMatrix T) (uninit : nat → T) :
  matrix_ok matrixA → matrix_ok matrixB →
  if decide (rows_ matrixA = rows_ matrixB ∧ cols_ matrixA = cols_ matrixB) then
    ∃ ans, Add zero add matrixA matrixB uninit = Returns (Some ans) ∧
           matrix_ok ans ∧ rows_ ans = rows_ matrixA ∧ cols_ ans = cols_ matrixA ∧
           ∀ i j, in_range matrixA i j →
                  GetElement zero ans i j =
                    Returns (add (at_ zero matrixA i j) (at_ zero matrixB i j))
  else Add zero add matrixA matrixB uninit = Returns None.
Proof using zero add.
  clear mul. intros HA HB. unfold Add, GetRowCount, GetColumnCount.
  destruct (decide _) as [[Er Ec]|Hne].
  - rewrite <- Er, <- Ec, !Z.eqb_refl. simpl.
    destruct HA as (Hr & Hc & Hlen).
    set (R := Z.to_nat (rows_ matrixA)). set (C := Z.to_nat (cols_ matrixA)).
    set (g := λ i j : nat, add (at_ zero matrixA (Z.of_nat i) (Z.of_nat j))
                               (at_ zero matrixB (Z.of_nat i) (Z.of_nat j))).
    pose proof (RowMatrix_new_filled (rows_ matrixA) (cols_ matrixA) uninit g Hr Hc)
      as (Hr0 & Hc0 & Hlen0 & _).
    edestruct (fill_loops R C g) as (m' & Eloop & Hfilled);
      [exact Hr0|exact Hc0|exact Hlen0| |].
    2:{ unfold upto. fold R C. rewrite Eloop. simpl. exists m'. split; [done|].
        split; [by eapply filled_ok|]. destruct Hfilled as (Hr' & Hc' & Hlen' & Hg).
        split; [subst R; lia|]. split; [subst C; lia|].
        intros i j [Hi Hj].
        rewrite <- (Z2Nat.id i), <- (Z2Nat.id j) by lia.
        rewrite (filled_lookup R C g m'); [done|done|subst R; lia|subst C; lia]. }
    intros i j m1 Hi Hj (Hr1 & Hc1 & _). simpl.
    rewrite !GetElement_in_range by (unfold in_range; subst R C; lia). simpl.
    rewrite SetElement_in_range by (unfold in_range; subst R C; lia). done.
  - destruct (Z.eqb_spec (rows_ matrixA) (rows_ matrixB)); [|done].
    destruct (Z.eqb_spec (cols_ matrixA) (cols_ matrixB)); [|done]. tauto.
Qed.

(** X25: [Add] returns the null pointer exactly when the
    counts of rows or of columns differ; else it returns, without an
    exception, the matrix of the same counts whose element [(i, j)] is
    [A(i, j) + B(i, j)], whatever the fresh array held. *)
Theorem Add_elementwise (matrixA matrixB : @RowMatrix T) (uninit : nat → T) :
  matrix_ok matrixA → matrix_ok matrixB →
  if decide (rows_ matrixA = rows_ matrixB ∧ cols_ matrixA = cols_ matrixB) then
    ∃ ans, Add zero add matrixA matrixB uninit = Returns (Some ans) ∧
           matrix_ok ans ∧ rows_ ans = rows_ matrixA ∧ cols_ ans = cols_ matrixA ∧
           ∀ i j, in_range matrixA i j →
                  GetElement zero ans i j =
                    Returns (add (at_ zero matrixA i j) (at_ zero matrixB i j))
  else Add zero add matrixA matrixB uninit = Returns None.
Proof. apply Add_cells. Qed.

Lemma Multiply_cell_dot (matrixA matrixB : @RowMatrix T) (i j : Z) :
  cols_ matrixA = rows_ matrixB →
  0 ≤ i < rows_ matrixA → 0 ≤ j < cols_ matrixB →
  Multiply_cell zero add mul matrixA matrixB i j =
    Returns (dot zero add mul (at_ zero matrixA) (at_ zero matrixB) (cols_ matrixA) i j).
Proof.
  intros E Hi Hj. unfold Multiply_cell, dot, GetColumnCount, upto.
  set (f := λ (ele : T) (k : nat),
              add ele (mul (at_ zero matrixA i (Z.of_nat k)) (at_ zero matrixB (Z.of_nat k) j))).
  destruct (for_each_seq (λ k ele, ele = foldl f zero (seq 0 k))
              (λ k ele, try* a := GetElement zero matrixA i (Z.of_nat k) in
                        try* b := GetElement zero matrixB (Z.of_nat k) j in
                        Returns (add ele (mul a b)))
              0 (Z.to_nat (cols_ matrixA)) zero) as (ele & Eloop & Hele); [reflexivity| |].
  - intros k ele Hk ->.
    rewrite !GetElement_in_range by (unfold in_range; lia). cbn [obind].
    eexists. split; [done|]. by rewrite seq_S, foldl_app.
  - transitivity (Returns ele); [exact Eloop|]. by rewrite Hele.
Qed.

Lemma Multiply_cells (matrixA matrixB : @RowMatrix T) (uninit : nat → T) :
  matrix_ok matrixA → matrix_ok matrixB →
  if decide (cols_ matrixA = rows_ matrixB) then
    ∃ ans, Multiply zero add mul matrixA matrixB uninit = Returns (Some ans) ∧
           matrix_ok ans ∧ rows_ ans = rows_ matrixA ∧ cols_ ans = cols_ matrixB ∧
           ∀ i j, 0 ≤ i < rows_ matrixA → 0 ≤ j < cols_ matrixB →
                  GetElement zero ans i j =
                    Returns (dot zero add mul (at_ zero matrixA) (at_ zero matrixB)
                                 (cols_ matrixA) i j)
  else Multiply zero add mul matrixA matrixB uninit = Returns None.
Proof.
  intros HA HB. unfold Multiply, GetRowCount, GetColumnCount.
  destruct (decide _) as [E|Hne].
  - rewrite (proj2 (Z.eqb_eq _ _) E). simpl.
    destruct HA as (Hr & _). destruct HB as (_ & Hc & _).
    set (R := Z.to_nat (rows_ matrixA)). set (C := Z.to_nat (cols_ matrixB)).
    set (g := λ i j : nat, dot zero add mul (at_ zero matrixA) (at_ zero matrixB)
                               (cols_ matrixA) (Z.of_nat i) (Z.of_nat j)).
    pose proof (RowMatrix_new_filled (rows_ matrixA) (cols_ matrixB) uninit g Hr Hc)
      as (Hr0 & Hc0 & Hlen0 & _).
    edestruct (fill_loops R C g) as (m' & Eloop & Hfilled);
      [exact Hr0|exact Hc0|exact Hlen0| |].
    2:{ unfold upto. fold R C. rewrite Eloop. simpl. exists m'. split; [done|].
        split; [by eapply filled_ok|]. destruct Hfilled as (Hr' & Hc' & Hlen' & Hg).
        split; [subst R; lia|]. split; [subst C; lia|].
        intros i j Hi Hj.
        rewrite <- (Z2Nat.id i), <- (Z2Nat.id j) by lia.
        rewrite (filled_lookup R C g m'); [done|done|subst R; lia|subst C; lia]. }
    intros i j m1 Hi Hj (Hr1 & Hc1 & _). simpl.
    rewrite Multiply_cell_dot by (done || subst R C; lia). simpl.
    rewrite SetElement_in_range by (unfold in_range; subst R C; lia). done.
  - by destruct (Z.eqb_spec (cols_ matrixA) (rows_ matrixB)).
Qed.

(** X26: when the size [rows(A) * cols(B)] of the
    result is a value of [int], [Multiply] returns the null pointer exactly
    when [A] has not as many columns as [B] has rows; else it returns, without
    an exception, the matrix with the rows of [A] and the columns of [B]
    whose element [(i, j)] is the sum of [A(i, k) * B(k, j)] over [k], added
    up from zero in the order of [k]. *)
Theorem Multiply_is_row_by_column (matrixA matrixB : @RowMatrix T) (uninit : nat → T) :
  matrix_ok matrixA → matrix_ok matrixB →
  rows_ matrixA * cols_ matrixB < 2 ^ 31 →
  if decide (cols_ matrixA = rows_ matrixB) then
    ∃ ans, Multiply zero add mul matrixA matrixB uninit = Returns (Some ans) ∧
           matrix_ok ans ∧ rows_ ans = rows_ matrixA ∧ cols_ ans = cols_ matrixB ∧
           ∀ i j, 0 ≤ i < rows_ matrixA → 0 ≤ j < cols_ matrixB →
                  GetElement zero ans i j =
                    Returns (dot zero add mul (at_ zero matrixA) (at_ zero matrixB)
                                 (cols_ matrixA) i j)
  else Multiply zero add mul matrixA matrixB uninit = Returns None.
Proof. intros HA HB _. by apply Multiply_cells. Qed.

(** X27: [GEMM] returns the null pointer exactly when
    the counts do not fit; else it never goes through the null pointer and
    returns the matrix whose element [(i, j)] is the element of the product
    [A * B] plus [C(i, j)]. *)
Theorem GEMM_is_product_plus (matrixA matrixB matrixC : @RowMatrix T)
    (uninit uninit' : nat → T) :
  matrix_ok matrixA → matrix_ok matrixB → matrix_ok matrixC →
  if decide (cols_ matrixA = rows_ matrixB ∧
             rows_ matrixC = rows_ matrixA ∧ cols_ matrixC = cols_ matrixB) then
    ∃ ans, GEMM zero add mul matrixA matrixB matrixC uninit uninit' = Returns (Some ans) ∧
           matrix_ok ans ∧ rows_ ans = rows_ matrixA ∧ cols_ ans = cols_ matrixB ∧
           ∀ i j, 0 ≤ i < rows_ matrixA → 0 ≤ j < cols_ matrixB →
                  GetElement zero ans i j =
                    Returns (add (dot zero add mul (at_ zero matrixA) (at_ zero matrixB)
                                      (cols_ matrixA) i j)
                                 (at_ zero matrixC i j))
  else GEMM zero add mul matrixA matrixB matrixC uninit uninit' = Returns None.
Proof.
  intros HA HB HC. unfold GEMM, GetRowCount, GetColumnCount.
  destruct (decide _) as [(E1 & E2 & E3)|Hne].
  - rewrite (proj2 (Z.eqb_eq _ _) E1), (proj2 (Z.eqb_eq _ _) E2), (proj2 (Z.eqb_eq _ _) E3).
    simpl.
    pose proof (Multiply_cells matrixA matrixB uninit HA HB) as HM.
    destruct (decide _) as [_|]; [|done].
    destruct HM as (product & -> & Hok & Hr & Hc & Hp). simpl.
    pose proof (Add_cells product matrixC uninit' Hok HC) as HS.
    destruct (decide _) as [_|Hn]; [|exfalso; apply Hn; split; congruence].
    destruct HS as (ans & -> & Hok' & Hr' & Hc' & Hs).
    exists ans. split; [done|]. split; [done|]. split; [congruence|]. split; [congruence|].
    intros i j Hi Hj. rewrite Hs by (unfold in_range; lia).
    do 2 f_equal. specialize (Hp i j Hi Hj).
    rewrite GetElement_in_range in Hp by (unfold in_range; lia). congruence.
  - destruct (Z.eqb_spec (cols_ matrixA) (rows_ matrixB)); [|done].
    destruct (Z.eqb_spec (rows_ matrixC) (rows_ matrixA)); [|done].
    destruct (Z.eqb_spec (cols_ matrixC) (cols_ matrixB)); [|done]. tauto.
Qed.

End Facts.

Lemma m_1234_ok : matrix_ok m_1234.
Proof. unfold matrix_ok. simpl. lia. Qed.

Lemma m_5678_ok : matrix_ok m_5678.
Proof. unfold matrix_ok. simpl. lia. Qed.

Lemma RowMatrix_set_then_get_witness :
  ∃ m', SetElement m_1234 0 1 9 = Returns m' ∧ GetElement 0 m' 0 1 = Returns 9 ∧
        GetElement 0 m' 1 0 = Returns 3.
Proof.
  destruct (RowMatrix_set_then_get 0 m_1234 0 1 9 m_1234_ok) as (m' & E & _ & _ & _ & Hg & Ho).
  { unfold in_range. simpl. lia. }
  exists m'. split; [exact E|]. split; [exact Hg|].
  rewrite Ho; [reflexivity|unfold in_range; simpl; lia|congruence].
Defined.

Lemma FillFrom_row_major_witness :
  FillFrom 0 m_1234 [5; 6; 7; 8] = Returns m_5678 ∧
  FillFrom 0 m_1234 [5; 6; 7] = OUT_OF_RANGE.
Proof.
  split.
  - rewrite (FillFrom_row_major 0 m_1234 [5; 6; 7; 8] m_1234_ok); [reflexivity|simpl; lia..].
  - rewrite (FillFrom_row_major 0 m_1234 [5; 6; 7] m_1234_ok); [reflexivity|simpl; lia..].
Defined.

Lemma Add_elementwise_witness :
  ∃ ans, Add 0 Z.add m_1234 m_5678 (λ _, 0) = Returns (Some ans) ∧
         GetElement 0 ans 1 1 = Returns 12.
Proof.
  pose proof (Add_elementwise 0 Z.add m_1234 m_5678 (λ _, 0) m_1234_ok m_5678_ok) as H.
  destruct (decide _) as [_|Hn]; [|exfalso; by apply Hn].
  destruct H as (ans & E & _ & _ & _ & Hg). exists ans. split; [exact E|].
  rewrite Hg; [reflexivity|unfold in_range; simpl; lia].
Defined.

Lemma Multiply_is_row_by_column_witness :
  ∃ ans, Multiply 0 Z.add Z.mul m_1234 m_5678 (λ _, 0) = Returns (Some ans) ∧
         GetElement 0 ans 1 0 = Returns 43.
Proof.
  pose proof (Multiply_is_row_by_column 0 Z.add Z.mul m_1234 m_5678 (λ _, 0)
                m_1234_ok m_5678_ok ltac:(simpl; lia)) as H.
  destruct (decide _) as [_|Hn]; [|exfalso; by apply Hn].
  destruct H as (ans & E & _ & _ & _ & Hg). exists ans. split; [exact E|].
  rewrite Hg; [reflexivity|simpl; lia..].
Defined.

Lemma GEMM_is_product_plus_witness :
  ∃ ans, GEMM 0 Z.add Z.mul m_1234 m_5678 m_1234 (λ _, 0) (λ _, 7) = Returns (Some ans) ∧
         GetElement 0 ans 1 0 = Returns 46.
Proof.
  pose proof (GEMM_is_product_plus 0 Z.add Z.mul m_1234 m_5678 m_1234 (λ _, 0) (λ _, 7)
                m_1234_ok m_5678_ok m_1234_ok) as H.
  destruct (decide _) as [_|Hn]; [|exfalso; by apply Hn].
  destruct H as (ans & E & _ & _ & _ & Hg). exists ans. split; [exact E|].
  rewrite Hg; [reflexivity|simpl; lia..].
Defined.

End PrimerFacts.

(** ** Hash join *)

Module HashJoinFacts.
Import LockMgr Executors HashJoin.

Lemma build_rows_lookup (plan : HashJoinPlanNode) (lefts : list Tuple) (key : Z) :
  foldl (build_row plan) ∅ lefts !! key = bucket_of_key plan lefts key.
Proof.
  induction lefts as [|t lefts IH] using rev_ind; [done|].
  rewrite foldl_app. simpl. unfold build_row, bucket_of_key in *. rewrite filter_app.
  destruct (decide (LeftJoinKeyExpression plan t = key)) as [<-|Hne].
  - rewrite filter_cons_True, filter_nil by done. rewrite IH.
    destruct (filter _ lefts) as [|t' ts]; rewrite lookup_insert_eq; [done|].
    by rewrite <- app_comm_cons.
  - rewrite filter_cons_False, filter_nil, app_nil_r by done.
    destruct (foldl _ _ _ !! LeftJoinKeyExpression plan t); by rewrite lookup_insert_ne.
Qed.

Lemma foldl_snoc_map {A B : Type} (f : A → B) (l : list A) (acc : list B) :
  foldl (λ acc x, acc ++ [f x]) acc l = acc ++ map f l.
Proof.
  revert acc. induction l as [|x l IH]; intros acc; simpl; [by rewrite app_nil_r|].
  by rewrite IH, <- app_assoc.
Qed.

Lemma probe_row_spec (plan : HashJoinPlanNode) (lefts : list Tuple) (result : list Tuple)
    (right_tuple : Tuple) :
  probe_row plan (foldl (build_row plan) ∅ lefts) result right_tuple =
    result ++ nested_loop_join plan lefts [right_tuple].
Proof.
  unfold probe_row, nested_loop_join. rewrite build_rows_lookup. unfold bucket_of_key.
  simpl. rewrite app_nil_r.
  destruct (filter _ lefts) as [|t ts] eqn:E.
  - by rewrite app_nil_r.
  - by rewrite foldl_snoc_map.
Qed.

Lemma build_loop_rows (plan : HashJoinPlanNode) (fuel : nat) (lefts : list (Tuple * RID))
    (st : ExecState) (map : gmap Z (list Tuple)) :
  (length lefts < fuel)%nat →
  build_loop plan rows_child fuel lefts st map =
    Done (st, foldl (build_row plan) map lefts.*1).
Proof.
  revert lefts map. induction fuel as [|fuel IH]; intros lefts map Hlen; [lia|].
  destruct lefts as [|[t rid] lefts]; [done|]. simpl. apply IH. simpl in Hlen. lia.
Qed.

Lemma probe_loop_rows (plan : HashJoinPlanNode) (fuel : nat) (rights : list (Tuple * RID))
    (st : ExecState) (map : gmap Z (list Tuple)) (result : list Tuple) :
  (length rights < fuel)%nat →
  probe_loop plan rows_child fuel rights st map result =
    Done (st, foldl (probe_row plan map) result rights.*1).
Proof.
  revert rights result. induction fuel as [|fuel IH]; intros rights result Hlen; [lia|].
  destruct rights as [|[t rid] rights]; [done|]. simpl. apply IH. simpl in Hlen. lia.
Qed.

Lemma nested_loop_join_app (plan : HashJoinPlanNode) (lefts rights rights' : list Tuple) :
  nested_loop_join plan lefts (rights ++ rights') =
    nested_loop_join plan lefts rights ++ nested_loop_join plan lefts rights'.
Proof. unfold nested_loop_join. by rewrite bind_app. Qed.

(** X28: over children that hand out the
    rows [lefts] and [rights], [Init] of a new executor leaves in [result_]
    the output of the join by two nested loops: for every right tuple in
    turn, one output tuple for each left tuple with the same key, in the
    order of the left rows; a right tuple without a partner adds nothing. *)
Theorem HashJoin_Init_is_nested_loop_join (plan : HashJoinPlanNode)
    (lefts rights : list (Tuple * RID)) (st : ExecState) (fuel : nat) :
  (length lefts < fuel)%nat → (length rights < fuel)%nat →
  Init plan rows_child rows_child fuel lefts rights st HashJoinExecutor_new =
    Done (st, mkHashJoin (foldl (build_row plan) ∅ lefts.*1)
                         (nested_loop_join plan lefts.*1 rights.*1) 0).
Proof.
  intros Hl Hr. unfold Init. simpl.
  rewrite build_loop_rows by done. simpl. rewrite probe_loop_rows by done. simpl.
  do 3 f_equal.
  assert (H : ∀ result, foldl (probe_row plan (foldl (build_row plan) ∅ lefts.*1))
                           result rights.*1
                        = result ++ nested_loop_join plan lefts.*1 rights.*1);
    [|by rewrite H].
  induction (rights.*1) as [|r rs IH] using rev_ind; intros result.
  - simpl. by rewrite app_nil_r.
  - rewrite foldl_app. simpl. rewrite IH, probe_row_spec, nested_loop_join_app.
    by rewrite app_assoc.
Qed.

Lemma HashJoin_Init_is_nested_loop_join_witness :
  ∃ e, Init join_plan rows_child rows_child 4 join_lefts join_rights join_state
            HashJoinExecutor_new = Done (join_state, e) ∧
       result_ e = [[10; 7]; [30; 7]].
Proof.
  eexists. split.
  - apply (HashJoin_Init_is_nested_loop_join join_plan join_lefts join_rights join_state 4);
      simpl; lia.
  - by vm_compute.
Defined.

(** X29: calls of [Next] hand out the tuples of
    [result_] from [now_id_] on, in their order and each one once; the call
    after the last of them returns false, as does every later call. *)
Theorem HashJoin_Next_hands_out_result (e : HashJoinExecutor) (n : nat) :
  (length (result_ e) - now_id_ e < n)%nat →
  (pull n e).1 = drop (now_id_ e) (result_ e) ∧
  (Next (pull n e).2).2 = None ∧
  result_ (pull n e).2 = result_ e.
Proof.
  revert e. induction n as [|n IH]; intros e Hn; [lia|]. simpl.
  destruct (Next e) as [e1 o] eqn:EN. unfold Next in EN.
  destruct (Nat.ltb_spec (now_id_ e) (length (result_ e))) as [Hlt|Hge].
  - destruct (lookup_lt_is_Some_2 _ _ Hlt) as [t Et]. rewrite Et in EN.
    injection EN as <- <-.
    specialize (IH (mkHashJoin (map_ e) (result_ e) (S (now_id_ e)))). simpl in IH.
    destruct (pull n _) as [ts e']. simpl in *.
    destruct IH as (-> & HN & Hr); [lia|]. split; [|split; [exact HN|exact Hr]].
    symmetry. by apply drop_S.
  - injection EN as <- <-. simpl. split; [by rewrite drop_ge|]. split; [|done].
    unfold Next. destruct (Nat.ltb_spec (now_id_ e) (length (result_ e))); [lia|done].
Qed.

Lemma HashJoin_Next_hands_out_result_witness :
  (pull 3 (mkHashJoin ∅ [[10; 7]; [30; 7]] 0)).1 = [[10; 7]; [30; 7]].
Proof.
  apply (HashJoin_Next_hands_out_result (mkHashJoin ∅ [[10; 7]; [30; 7]] 0) 3). simpl. lia.
Defined.

End HashJoinFacts.
